(** * Sparse matrix multiplication (CSR x CCS -> CSR)

    A shallow embedding of [sparse_matrix_multiply] (sparse_matrix_multiply.c)
    and of the dense collaborator [matrix_multiply], with their
    specification, and of the functions around them: the printing helpers,
    [fill_rand_2d_array], and the functions that allocate and free the
    matrices.

    Modelling conventions.
    - An [int] datum is a [Z].  The arithmetic on matrix entries
      ([dot_product += a * b]) wraps around at 32 bits ([int_add],
      [int_mul]).  Loop counters stay below their bounds.  The sizes
      [z_rows * z_cols] and [z_rows + 1] of the three stack arrays are
      [int] expressions, and the arrays take their room on the stack: a
      call one of whose sizes does not fit an [int] or is not positive, or
      whose arrays the stack cannot hold ([stack_holds]), has the outcome
      [Undefined].
    - An [int *] buffer is a [list Z].  Reading a cell the program never
      stored to (outside the buffer, or not yet initialised) yields whatever
      the environment [junk] holds there; every access is recorded in the
      trace of the memory, so that bounds can be checked afterwards.
    - Whether [malloc] finds memory is up to the environment ([grants]);
      when it does not, [Malloc] prints and the process exits.
    - The function runs on a [memory] holding both operands, the three stack
      buffers, the slot of the result and the trace.  Loops are recursive
      functions over that memory, well-founded on the distance to the bound.
    - The dense program is given twice: on lists of lists, where [malloc]
      refuses only the sizes no memory could hold and [print_matrix] has no
      output once it read outside its array; and on a heap of blocks
      (module [Heap]), where a pointer is the number of a block, [Malloc]
      may fail, a freed block leaves a mark, and an access outside a block,
      a division by zero or an overflow of [int] arithmetic is a fault. *)

From Stdlib Require Import ZArith Lia Bool String.
From stdpp Require Import base tactics option list list_numbers.
From Equations Require Import Equations.
From Equations.Prop Require Import Logic.

Local Open Scope Z_scope.

(** ** Machine integers *)

Definition int_modulus : Z := 2 ^ 32.
Definition INT_MAX : Z := 2 ^ 31 - 1.
Definition INT_MIN : Z := - 2 ^ 31.
Definition EXIT_FAILURE : Z := 1.

(** What both multiplications print on [stderr] before they exit. *)
Definition mismatch_message : string :=
  String.append "Matrix sizes are incompatible for multiplication."
    (String (Ascii.ascii_of_nat 10) EmptyString).

(** The representative of [z] in [INT_MIN, INT_MAX]. *)
Definition wrap (z : Z) : Z := (z + 2 ^ 31) mod int_modulus - 2 ^ 31.

Definition int_add (a b : Z) : Z := wrap (a + b).
Definition int_mul (a b : Z) : Z := wrap (a * b).

(** ** The two compressed formats *)

Module CSR.
Record Matrix : Type := mk {
  val : list Z;      (* the non-zero values, row-major *)
  col_ind : list Z;  (* the column of each value *)
  row_ptr : list Z;  (* where each row starts in [val] *)
  num_rows : Z;
  num_cols : Z
}.
End CSR.

Module CCS.
Record Matrix : Type := mk {
  val : list Z;
  row_ind : list Z;
  col_ptr : list Z;
  num_rows : Z;
  num_cols : Z
}.
End CCS.

Abbreviation CSR_Matrix := CSR.Matrix.
Abbreviation CCS_Matrix := CCS.Matrix.

(** ** Memory, accesses and their trace *)

(** The buffers the function touches: those of the operands [X] and [Y], the
    stack arrays [z_val], [z_col_ind], [z_row_ptr], and those of the result. *)
Inductive array : Type :=
| X_val | X_col_ind | X_row_ptr
| Y_val | Y_row_ind | Y_col_ptr
| z_val | z_col_ind | z_row_ptr
| Z_val | Z_col_ind | Z_row_ptr.

Inductive event : Type :=
| Load (a : array) (i : Z)
| Store (a : array) (i : Z) (v : Z)
| Alloc (a : array) (n : Z)
| Stderr (msg : string)
| Exit (status : Z).

Record memory : Type := mkmem {
  opX : CSR_Matrix;
  opY : CCS_Matrix;
  stk_val : list Z;
  stk_col_ind : list Z;
  stk_row_ptr : list Z;
  resZ : CSR_Matrix;
  trace : list event
}.

Definition cells (a : array) (m : memory) : list Z :=
  match a with
  | X_val => CSR.val (opX m)
  | X_col_ind => CSR.col_ind (opX m)
  | X_row_ptr => CSR.row_ptr (opX m)
  | Y_val => CCS.val (opY m)
  | Y_row_ind => CCS.row_ind (opY m)
  | Y_col_ptr => CCS.col_ptr (opY m)
  | z_val => stk_val m
  | z_col_ind => stk_col_ind m
  | z_row_ptr => stk_row_ptr m
  | Z_val => CSR.val (resZ m)
  | Z_col_ind => CSR.col_ind (resZ m)
  | Z_row_ptr => CSR.row_ptr (resZ m)
  end.

Definition set_cells (a : array) (l : list Z) (m : memory) : memory :=
  let '(mkmem x y sv sc sr z t) := m in
  match a with
  | X_val =>
      mkmem (CSR.mk l (CSR.col_ind x) (CSR.row_ptr x) (CSR.num_rows x)
               (CSR.num_cols x)) y sv sc sr z t
  | X_col_ind =>
      mkmem (CSR.mk (CSR.val x) l (CSR.row_ptr x) (CSR.num_rows x)
               (CSR.num_cols x)) y sv sc sr z t
  | X_row_ptr =>
      mkmem (CSR.mk (CSR.val x) (CSR.col_ind x) l (CSR.num_rows x)
               (CSR.num_cols x)) y sv sc sr z t
  | Y_val =>
      mkmem x (CCS.mk l (CCS.row_ind y) (CCS.col_ptr y) (CCS.num_rows y)
                 (CCS.num_cols y)) sv sc sr z t
  | Y_row_ind =>
      mkmem x (CCS.mk (CCS.val y) l (CCS.col_ptr y) (CCS.num_rows y)
                 (CCS.num_cols y)) sv sc sr z t
  | Y_col_ptr =>
      mkmem x (CCS.mk (CCS.val y) (CCS.row_ind y) l (CCS.num_rows y)
                 (CCS.num_cols y)) sv sc sr z t
  | z_val => mkmem x y l sc sr z t
  | z_col_ind => mkmem x y sv l sr z t
  | z_row_ptr => mkmem x y sv sc l z t
  | Z_val =>
      mkmem x y sv sc sr
        (CSR.mk l (CSR.col_ind z) (CSR.row_ptr z) (CSR.num_rows z)
           (CSR.num_cols z)) t
  | Z_col_ind =>
      mkmem x y sv sc sr
        (CSR.mk (CSR.val z) l (CSR.row_ptr z) (CSR.num_rows z)
           (CSR.num_cols z)) t
  | Z_row_ptr =>
      mkmem x y sv sc sr
        (CSR.mk (CSR.val z) (CSR.col_ind z) l (CSR.num_rows z)
           (CSR.num_cols z)) t
  end.

(** Appending to the trace. *)
Definition logs (es : list event) (m : memory) : memory :=
  let '(mkmem x y sv sc sr z t) := m in mkmem x y sv sc sr z (t ++ es).

Definition log (e : event) (m : memory) : memory := logs [e] m.

Definition in_bounds (l : list Z) (i : Z) : Prop :=
  0 <= i < Z.of_nat (length l).

(** [l[i]] and [l[i] = v] on a buffer; [d] is what lies at offset [i] when
    that is outside [l]. *)
Definition rd (d : Z) (l : list Z) (i : Z) : Z :=
  if decide (0 <= i) then default d (l !! Z.to_nat i) else d.

Definition wr (l : list Z) (i : Z) (v : Z) : list Z :=
  if decide (0 <= i) then <[Z.to_nat i := v]> l else l.

(** Programs: functions from a memory to a value and a memory. *)
Definition M (A : Type) : Type := memory -> A * memory.

Definition ret {A} (a : A) : M A := fun m => (a, m).
Definition bind {A B} (c : M A) (k : A -> M B) : M B :=
  fun m => let r := c m in k (fst r) (snd r).

Notation "x <- c ;; k" := (bind c (fun x => k))
  (at level 100, c at next level, right associativity).
Notation "c ;;; k" := (bind c (fun _ => k))
  (at level 100, right associativity).

(** A stack with room for [stack_cells] cells takes two arrays of
    [z_rows * z_cols] cells and one of [z_rows + 1].  The size of an array
    declared with a variable size is to be an [int] greater than zero. *)
Definition stack_holds (stack_cells z_rows z_cols : Z) : Prop :=
  0 < z_rows * z_cols <= INT_MAX /\
  0 < z_rows + 1 <= INT_MAX /\
  z_rows * z_cols + z_rows * z_cols + (z_rows + 1) <= stack_cells.

#[global] Instance stack_holds_dec stack_cells z_rows z_cols :
  Decision (stack_holds stack_cells z_rows z_cols).
Proof. unfold stack_holds. apply _. Defined.

Section Program.

(** What the environment holds in the cells the program reads without
    having written them. *)
Variable junk : array -> Z -> Z.

(** How many [int] cells the stack can still take when the function is
    entered; whether the [k]-th call of [malloc] during the run, for [n]
    cells, finds memory. *)
Variable stack_cells : Z.
Variable grants : nat -> Z -> bool.

Definition peek (a : array) (i : Z) (m : memory) : Z :=
  rd (junk a i) (cells a m) i.

Definition load (a : array) (i : Z) : M Z :=
  fun m => (peek a i m, log (Load a i) m).

Definition store (a : array) (i v : Z) : M unit :=
  fun m => (tt, log (Store a i v) (set_cells a (wr (cells a m) i v) m)).

(** A buffer of [n] cells that nobody has written yet. *)
Definition fresh (a : array) (n : Z) : list Z := junk a <$> seqZ 0 n.

(** [int a[n];] on the stack. *)
Definition declare (a : array) (n : Z) : M unit :=
  fun m => (tt, log (Alloc a n) (set_cells a (fresh a n) m)).

(** ** Malloc and init_CSR_matrix

    [Malloc] asks [malloc] for [n] cells; when there is no memory it prints
    with [perror("Malloc")], recorded by its argument, and exits.  The
    boolean says whether the run goes on. *)
Definition Malloc (k : nat) (n : Z) : M bool :=
  fun m =>
    if grants k n then (true, m)
    else (false, log (Exit EXIT_FAILURE) (log (Stderr "Malloc") m)).

(** [R->a = Malloc(n * sizeof(int))]: the block becomes buffer [a] of the
    result. *)
Definition Malloc_array (k : nat) (a : array) (n : Z) : M bool :=
  ok <- Malloc k n ;;
  if ok then declare a n ;;; ret true else ret false.

(** [R->num_rows = num_rows; R->num_cols = num_cols;] *)
Definition set_dims (num_rows num_cols : Z) : M unit :=
  fun m =>
    let '(mkmem x y sv sc sr z t) := m in
    (tt, mkmem x y sv sc sr
           (CSR.mk (CSR.val z) (CSR.col_ind z) (CSR.row_ptr z)
              num_rows num_cols) t).

(** Four calls to [Malloc]: the structure, counted as five cells, and its
    three arrays; the new matrix lands in the result slot. *)
Definition init_CSR_matrix (num_val num_rows num_cols : Z) : M bool :=
  ok <- Malloc 0 5 ;;
  if ok then
    ok <- Malloc_array 1 Z_val num_val ;;
    if ok then
      ok <- Malloc_array 2 Z_col_ind num_val ;;
      if ok then
        ok <- Malloc_array 3 Z_row_ptr (num_rows + 1) ;;
        if ok then set_dims num_rows num_cols ;;; ret true
        else ret false
      else ret false
    else ret false
  else ret false.

(** ** Loops *)

(** [for (int i = lo; i < hi; i++) body], for a bound [hi] that the body
    leaves alone. *)
Equations? for_loop {S : Type} (i hi : Z) (body : Z -> S -> S) (s : S) : S
  by wf (Z.to_nat (hi - i)) lt :=
  for_loop i hi body s :=
    if decide (i < hi) then for_loop (i + 1) hi body (body i s) else s.
Proof. lia. Qed.

Definition for_each {S : Type} (lo hi : Z) (body : Z -> S -> M S) (s : S)
  : M S :=
  fun m => for_loop lo hi (fun i sm => body i (fst sm) (snd sm)) (s, m).

(** The test of the cursor loop, with C's left-to-right [&&]:
    [Y->row_ind[y_row] < X->col_ind[x_col] && y_row < Y->col_ptr[cur_z_col + 1]]. *)
Definition advance_test (cur_z_col x_col y_row : Z) : M bool :=
  r <- load Y_row_ind y_row ;;
  c <- load X_col_ind x_col ;;
  if decide (r < c) then
    e <- load Y_col_ptr (cur_z_col + 1) ;;
    ret (bool_decide (y_row < e))
  else ret false.

Lemma advance_test_cells cur_z_col x_col y_row m a :
  cells a (snd (advance_test cur_z_col x_col y_row m)) = cells a m.
Proof.
  unfold advance_test, bind, load, ret; simpl.
  destruct m as [[] [] ? ? ? [] ?]; destruct a; simpl;
    case_decide; reflexivity.
Qed.

Lemma advance_test_true cur_z_col x_col y_row m :
  fst (advance_test cur_z_col x_col y_row m) = true ->
  y_row < peek Y_col_ptr (cur_z_col + 1) m.
Proof.
  unfold advance_test, bind, load, ret; simpl.
  case_decide; simpl; [|discriminate].
  intros H1%bool_decide_eq_true.
  destruct m as [[] [] ? ? ? [] ?]; exact H1.
Qed.

(** [while (test) y_row++;] *)
Equations? advance (cur_z_col x_col y_row : Z) (m : memory) : Z * memory
  by wf (Z.to_nat (peek Y_col_ptr (cur_z_col + 1) m - y_row)) lt :=
  advance cur_z_col x_col y_row m
    with inspect (advance_test cur_z_col x_col y_row m) := {
    | exist _ (true, m') _ => advance cur_z_col x_col (y_row + 1) m'
    | exist _ (false, m') _ => (y_row, m') }.
Proof.
  pose proof (advance_test_true cur_z_col x_col y_row m) as Hlt.
  pose proof (advance_test_cells cur_z_col x_col y_row m Y_col_ptr) as Hc.
  rewrite e in Hlt, Hc. specialize (Hlt eq_refl).
  clear advance. unfold peek in *. simpl in *. rewrite Hc. lia.
Qed.

Lemma advance_eqn cur_z_col x_col y_row m :
  advance cur_z_col x_col y_row m =
  let t := advance_test cur_z_col x_col y_row m in
  if fst t then advance cur_z_col x_col (y_row + 1) (snd t)
  else (y_row, snd t).
Proof.
  rewrite advance_equation_1. unfold inspect. simpl.
  destruct (advance_test cur_z_col x_col y_row m) as [[] m']; reflexivity.
Qed.

Lemma cells_log a e m : cells a (log e m) = cells a m.
Proof. destruct m; destruct a; reflexivity. Qed.

(** Induction along the turns of the cursor loop. *)
Lemma advance_ind cur_z_col x_col (P : Z -> memory -> Z * memory -> Prop) :
  (forall y m, fst (advance_test cur_z_col x_col y m) = false ->
     P y m (y, snd (advance_test cur_z_col x_col y m))) ->
  (forall y m r, fst (advance_test cur_z_col x_col y m) = true ->
     P (y + 1) (snd (advance_test cur_z_col x_col y m)) r -> P y m r) ->
  forall y m, P y m (advance cur_z_col x_col y m).
Proof.
  intros Hstop Hgo y m.
  remember (Z.to_nat (peek Y_col_ptr (cur_z_col + 1) m - y)) as n eqn:Hn.
  revert y m Hn. induction n as [n IH] using lt_wf_ind. intros y m ->.
  rewrite advance_eqn. simpl.
  destruct (fst (advance_test cur_z_col x_col y m)) eqn:Ht.
  - apply Hgo; [exact Ht|]. eapply IH; [|reflexivity].
    pose proof (advance_test_true _ _ _ _ Ht).
    unfold peek in *. rewrite advance_test_cells. lia.
  - apply Hstop. exact Ht.
Qed.

Lemma advance_cells a cur_z_col x_col y_row m :
  cells a (snd (advance cur_z_col x_col y_row m)) = cells a m.
Proof.
  revert y_row m.
  apply (advance_ind cur_z_col x_col (fun y m r => cells a (snd r) = cells a m)).
  - intros. apply advance_test_cells.
  - intros y m r _ ->. apply advance_test_cells.
Qed.

(** One turn of the loop over the entries of row [cur_z_row] of [X]: move
    the cursor, leave if the column of [Y] is used up, add the product if
    the two indices meet.  The boolean says whether the loop goes on. *)
Definition dot_body (cur_z_col x_col : Z) (dot_product y_row : Z)
  : M (bool * (Z * Z)) :=
  y_row <- advance cur_z_col x_col y_row ;;
  e <- load Y_col_ptr (cur_z_col + 1) ;;
  if decide (y_row >= e) then ret (false, (dot_product, y_row))
  else
    r <- load Y_row_ind y_row ;;
    c <- load X_col_ind x_col ;;
    if decide (r = c) then
      xv <- load X_val x_col ;;
      yv <- load Y_val y_row ;;
      ret (true, (int_add dot_product (int_mul xv yv), y_row))
    else ret (true, (dot_product, y_row)).


Lemma dot_body_cells a cur_z_col x_col dot_product y_row m :
  cells a (snd (dot_body cur_z_col x_col dot_product y_row m)) = cells a m.
Proof.
  unfold dot_body, bind, ret; simpl.
  repeat (case_decide; simpl); unfold load; simpl; rewrite ?cells_log;
    apply advance_cells.
Qed.

(** [for (int x_col = ...; x_col < X->row_ptr[cur_z_row + 1]; x_col++)]
    with its [break]. *)
Equations? dot_loop (cur_z_row cur_z_col x_col : Z) (dot_product y_row : Z)
  (m : memory) : (Z * Z) * memory
  by wf (Z.to_nat (peek X_row_ptr (cur_z_row + 1) m - x_col)) lt :=
  dot_loop cur_z_row cur_z_col x_col dot_product y_row m
    with inspect (load X_row_ptr (cur_z_row + 1) m) := {
    | exist _ (hi, m1) _ with decide (x_col < hi) := {
      | right _ => ((dot_product, y_row), m1)
      | left _ with inspect (dot_body cur_z_col x_col dot_product y_row m1) := {
        | exist _ ((false, s), m2) _ => (s, m2)
        | exist _ ((true, (dot_product', y_row')), m2) _ =>
            dot_loop cur_z_row cur_z_col (x_col + 1) dot_product' y_row' m2 } } }.
Proof.
  clear dot_loop.
  match goal with
  | H : dot_body _ _ _ _ ?m1 = _ |- _ =>
      pose proof (dot_body_cells X_row_ptr cur_z_col x_col dot_product y_row m1) as Hc;
      rewrite H in Hc
  end.
  rewrite cells_log in Hc. unfold peek in *. simpl in *. rewrite Hc. lia.
Qed.

Lemma dot_loop_eqn cur_z_row cur_z_col x_col dot_product y_row m :
  dot_loop cur_z_row cur_z_col x_col dot_product y_row m =
  let m1 := log (Load X_row_ptr (cur_z_row + 1)) m in
  if decide (x_col < peek X_row_ptr (cur_z_row + 1) m) then
    let b := dot_body cur_z_col x_col dot_product y_row m1 in
    if fst (fst b)
    then dot_loop cur_z_row cur_z_col (x_col + 1)
           (fst (snd (fst b))) (snd (snd (fst b))) (snd b)
    else (snd (fst b), snd b)
  else ((dot_product, y_row), m1).
Proof.
  rewrite dot_loop_equation_1. unfold inspect. simpl.
  case_decide; simpl; [|reflexivity].
  destruct (dot_body _ _ _ _ _) as [[[] []] m2]; reflexivity.
Qed.

(** ** sparse_matrix_multiply *)

(** The body of the loop over the columns of [Z]: one dot product, stored
    in the stack buffers when it is not zero.  The state is
    [(z_val_count, cur_row_val_count)]. *)
Definition col_body (cur_z_row cur_z_col : Z) (s : Z * Z) : M (Z * Z) :=
  let '(z_val_count, cur_row_val_count) := s in
  y_row <- load Y_col_ptr cur_z_col ;;
  x_col <- load X_row_ptr cur_z_row ;;
  d <- dot_loop cur_z_row cur_z_col x_col 0 y_row ;;
  let dot_product := fst d in
  if decide (dot_product <> 0) then
    store z_val z_val_count dot_product ;;;
    store z_col_ind z_val_count cur_z_col ;;;
    ret (z_val_count + 1, cur_row_val_count + 1)
  else ret (z_val_count, cur_row_val_count).

(** The body of the loop over the rows of [Z]; the state is [z_val_count]. *)
Definition row_body (z_cols cur_z_row : Z) (z_val_count : Z) : M Z :=
  s <- for_each 0 z_cols (col_body cur_z_row) (z_val_count, 0) ;;
  let '(z_val_count, cur_row_val_count) := s in
  p <- load z_row_ptr cur_z_row ;;
  store z_row_ptr (cur_z_row + 1) (p + cur_row_val_count) ;;;
  ret z_val_count.

(** How a call ends: it returns, the process exits, or the behaviour is
    undefined before the first loop (see [stack_holds]). *)
Inductive outcome : Type :=
| Returned (Z : CSR_Matrix)
| Exited (status : Z)
| Undefined.

(** [int z_val[z_rows * z_cols]; int z_col_ind[z_rows * z_cols];
    int z_row_ptr[z_rows + 1];]: the sizes are [int] expressions, and the
    stack has to take the three arrays.  Where a size does not fit an
    [int] or is not positive, or the stack is too small, the behaviour is
    undefined. *)
Definition sparse_matrix_multiply : M outcome :=
  fun m =>
  if decide (CSR.num_cols (opX m) <> CCS.num_rows (opY m)) then
    (Exited EXIT_FAILURE,
     log (Exit EXIT_FAILURE)
       (log (Stderr mismatch_message) m))
  else
    let z_rows := CSR.num_rows (opX m) in
    let z_cols := CCS.num_cols (opY m) in
    if decide (stack_holds stack_cells z_rows z_cols) then
      (declare z_val (z_rows * z_cols) ;;;
       declare z_col_ind (z_rows * z_cols) ;;;
       declare z_row_ptr (z_rows + 1) ;;;
       store z_row_ptr 0 0 ;;;
       z_val_count <- for_each 0 z_rows (row_body z_cols) 0 ;;
       ok <- init_CSR_matrix z_val_count z_rows z_cols ;;
       if ok then
         for_each 0 z_val_count
           (fun i _ =>
              v <- load z_val i ;; store Z_val i v ;;;
              c <- load z_col_ind i ;; store Z_col_ind i c) tt ;;;
         for_each 0 (z_rows + 1)
           (fun i _ => p <- load z_row_ptr i ;; store Z_row_ptr i p) tt ;;;
         fun m' => (Returned (resZ m'), m')
       else ret (Exited EXIT_FAILURE)) m
    else (Undefined, m).

End Program.

(** The memory at the call: the operands in place, nothing on the stack, no
    result yet, nothing done. *)
Definition start (X : CSR_Matrix) (Y : CCS_Matrix) : memory :=
  mkmem X Y [] [] [] (CSR.mk [] [] [] 0 0) [].

(** The call in an environment: what unwritten cells hold, the room on the
    stack, and what [malloc] answers. *)
Definition run (junk : array -> Z -> Z) (stack_cells : Z)
  (grants : nat -> Z -> bool) (X : CSR_Matrix) (Y : CCS_Matrix)
  : outcome * memory :=
  sparse_matrix_multiply junk stack_cells grants (start X Y).

(** The call where memory is no concern: the stack has room for [INT_MAX]
    cells and [malloc] finds what it is asked for. *)
Definition call (junk : array -> Z -> Z) (X : CSR_Matrix) (Y : CCS_Matrix)
  : outcome * memory :=
  run junk INT_MAX (fun _ _ => true) X Y.

(** ** The dense collaborator: matrix_multiply *)

(** [A[i][j]] on an [int **]; [d] is what lies there when [A] has no such
    cell. *)
Definition rd2 (d : Z) (A : list (list Z)) (i j : Z) : Z :=
  if decide (0 <= i) then
    match A !! Z.to_nat i with
    | Some row => rd d row j
    | None => d
    end
  else d.

Definition wr2 (A : list (list Z)) (i j v : Z) : list (list Z) :=
  if decide (0 <= i) then
    match A !! Z.to_nat i with
    | Some row => <[Z.to_nat i := wr row j v]> A
    | None => A
    end
  else A.

Inductive dense_outcome : Type :=
| Dense_returned (Z : list (list Z))
| Dense_exited (status : Z).

Section Dense.

(** What [malloc] hands out, and what lies outside the arrays. *)
Variable junk2 : Z -> Z -> Z.

Definition init_2d_array (num_rows num_cols : Z) : list (list Z) :=
  (fun i => junk2 i <$> seqZ 0 num_cols) <$> seqZ 0 num_rows.

(** [init_2d_array] calls [Malloc] for [num_rows] pointers and then, in
    each of its [num_rows] turns, for [num_cols] integers.  The size
    reaches [Malloc] as a [size_t], where a negative number is a size
    beyond any memory: [malloc] returns [NULL] and [Malloc] exits.  On
    lists the other requests are taken to be granted; the program on the
    heap, below, leaves every request to the environment. *)
Definition size_refused (num_rows num_cols : Z) : Prop :=
  num_rows < 0 \/ (0 < num_rows /\ num_cols < 0).

#[global] Instance size_refused_dec num_rows num_cols :
  Decision (size_refused num_rows num_cols).
Proof. unfold size_refused. apply _. Defined.

Definition matrix_multiply (X Y : list (list Z))
  (x_rows x_cols y_rows y_cols : Z) : dense_outcome :=
  if decide (x_cols <> y_rows) then Dense_exited EXIT_FAILURE
  else
    let z_rows := x_rows in
    let z_cols := y_cols in
    if decide (size_refused z_rows z_cols) then Dense_exited EXIT_FAILURE
    else
    let Z := init_2d_array z_rows z_cols in
    Dense_returned
      (for_loop 0 z_rows
         (fun cur_z_row Z =>
            for_loop 0 z_cols
              (fun cur_z_col Z =>
                 let dot_product :=
                   for_loop 0 x_cols
                     (fun dot_index dot_product =>
                        int_add dot_product
                          (int_mul
                             (rd2 (junk2 cur_z_row dot_index) X cur_z_row dot_index)
                             (rd2 (junk2 dot_index cur_z_col) Y dot_index cur_z_col)))
                     0 in
                 wr2 Z cur_z_row cur_z_col dot_product)
              Z)
         Z).

End Dense.

(** ** The helpers of the dense program: fill_rand_2d_array, print_matrix *)

Section DenseHelpers.

(** The values that the successive calls of [rand] return. *)
Variable rand : nat -> Z.

(** [R[i][j] = rand() % upper]; C's [%] truncates, as [Z.rem] does, and
    [upper = 0], a division by zero, is outside the model.  The state is
    the array and the number of calls of [rand] so far. *)
Definition fill_rand_2d_array (R : list (list Z))
  (num_rows num_cols upper : Z) (calls : nat) : list (list Z) * nat :=
  for_loop 0 num_rows
    (fun i s =>
       for_loop 0 num_cols
         (fun j s =>
            (wr2 (fst s) i j (Z.rem (rand (snd s)) upper), S (snd s)))
         s)
    (R, calls).

(** [R[i][j]], where the array has that cell; where it has not, the source
    reads outside the array and there is no value to speak of. *)
Definition cell2 (R : list (list Z)) (i j : Z) : option Z :=
  if decide (0 <= i /\ 0 <= j) then
    match R !! Z.to_nat i with
    | Some row => row !! Z.to_nat j
    | None => None
    end
  else None.

(** One line of [print_matrix]; [None] once a cell was read that the array
    does not have. *)
Definition print_line (R : list (list Z)) (i r_cols : Z)
  : option (list Z) :=
  for_loop 0 r_cols
    (fun j line =>
       match line with
       | Some line =>
           match cell2 R i j with
           | Some v => Some (line ++ [v])
           | None => None
           end
       | None => None
       end)
    (Some []).

(** What is printed: the list of the lines, each the list of its
    integers. *)
Definition print_matrix (R : list (list Z)) (r_rows r_cols : Z)
  : option (list (list Z)) :=
  for_loop 0 r_rows
    (fun i out =>
       match out with
       | Some out =>
           match print_line R i r_cols with
           | Some line => Some (out ++ [line])
           | None => None
           end
       | None => None
       end)
    (Some []).

End DenseHelpers.

(** ** The printing helpers: print_CSR_matrix, print_CCS_matrix

    What is printed is kept as the list of the lines, each the list of its
    integers. *)

Section Printing.

(** What lies beyond the end of a buffer. *)
Variable beyond : Z -> Z.

Definition at_ (l : list Z) (i : Z) : Z := rd (beyond i) l i.

(** One line: the state is [(cur_ptr, line)]. *)
Definition print_CSR_row (R : CSR_Matrix) (cur_row : Z) : Z * list Z :=
  let cur_ptr := at_ (CSR.row_ptr R) cur_row in
  for_loop 0 (CSR.num_cols R)
    (fun cur_col s =>
       let '(cur_ptr, line) := s in
       if decide (cur_col = at_ (CSR.col_ind R) cur_ptr /\
                  cur_ptr < at_ (CSR.row_ptr R) (cur_row + 1))
       then (cur_ptr + 1, line ++ [at_ (CSR.val R) cur_ptr])
       else (cur_ptr, line ++ [0]))
    (cur_ptr, []).

Definition print_CSR_matrix (R : CSR_Matrix) : list (list Z) :=
  for_loop 0 (CSR.num_rows R)
    (fun cur_row out => out ++ [snd (print_CSR_row R cur_row)]) [].

(** The loop of [print_CCS_matrix] over one column slice:
    [for (...; cur_ptr < R->col_ptr[cur_col + 1] && R->row_ind[cur_ptr] <= cur_row; cur_ptr++)]. *)
Equations? column_scan (R : CCS_Matrix) (cur_row cur_col cur_ptr val : Z) : Z
  by wf (Z.to_nat (at_ (CCS.col_ptr R) (cur_col + 1) - cur_ptr)) lt :=
  column_scan R cur_row cur_col cur_ptr val :=
    if decide (cur_ptr < at_ (CCS.col_ptr R) (cur_col + 1) /\
               at_ (CCS.row_ind R) cur_ptr <= cur_row)
    then column_scan R cur_row cur_col (cur_ptr + 1)
           (if decide (at_ (CCS.row_ind R) cur_ptr = cur_row)
            then at_ (CCS.val R) cur_ptr else val)
    else val.
Proof. lia. Qed.

Definition print_CCS_matrix (R : CCS_Matrix) : list (list Z) :=
  for_loop 0 (CCS.num_rows R)
    (fun cur_row out =>
       out ++
       [for_loop 0 (CCS.num_cols R)
          (fun cur_col line =>
             line ++
             [column_scan R cur_row cur_col (at_ (CCS.col_ptr R) cur_col) 0])
          []])
    [].

End Printing.

(** ** The printing helpers as programs on the memory

    The same two functions again, run on the memory so that their loads
    appear in the trace: [print_CSR_matrix] on the matrix in the slot of
    [X], [print_CCS_matrix] on the one in the slot of [Y].  What [printf]
    writes is the value returned. *)

Module Traced.

Section Traced.

Variable junk : array -> Z -> Z.

(** One integer of a line; the state is [(cur_ptr, line)].  The test is
    [cur_col == R->col_ind[cur_ptr] && cur_ptr < R->row_ptr[cur_row + 1]]. *)
Definition print_CSR_cell (cur_row cur_col : Z) (s : Z * list Z)
  : M (Z * list Z) :=
  c <- load junk X_col_ind (fst s) ;;
  if decide (cur_col = c) then
    e <- load junk X_row_ptr (cur_row + 1) ;;
    if decide (fst s < e) then
      v <- load junk X_val (fst s) ;;
      ret (fst s + 1, snd s ++ [v])
    else ret (fst s, snd s ++ [0])
  else ret (fst s, snd s ++ [0]).

Definition print_CSR_line (cur_row : Z) (out : list (list Z))
  : M (list (list Z)) :=
  fun m =>
    (cur_ptr <- load junk X_row_ptr cur_row ;;
     s <- for_each 0 (CSR.num_cols (opX m)) (print_CSR_cell cur_row)
            (cur_ptr, []) ;;
     ret (out ++ [snd s])) m.

Definition print_CSR_matrix : M (list (list Z)) :=
  fun m => for_each 0 (CSR.num_rows (opX m)) print_CSR_line [] m.

(** The test of the loop of [print_CCS_matrix] over a column slice:
    [cur_ptr < R->col_ptr[cur_col + 1] && R->row_ind[cur_ptr] <= cur_row]. *)
Definition scan_test (cur_row cur_col cur_ptr : Z) : M bool :=
  e <- load junk Y_col_ptr (cur_col + 1) ;;
  if decide (cur_ptr < e) then
    r <- load junk Y_row_ind cur_ptr ;;
    ret (bool_decide (r <= cur_row))
  else ret false.

(** Its body: [if (R->row_ind[cur_ptr] == cur_row) val = R->val[cur_ptr];]. *)
Definition scan_body (cur_row cur_ptr val : Z) : M Z :=
  r <- load junk Y_row_ind cur_ptr ;;
  if decide (r = cur_row) then load junk Y_val cur_ptr else ret val.

Lemma scan_test_cells cur_row cur_col cur_ptr m a :
  cells a (snd (scan_test cur_row cur_col cur_ptr m)) = cells a m.
Proof.
  unfold scan_test, bind, load, ret; simpl.
  case_decide; simpl; by rewrite !cells_log.
Qed.

Lemma scan_test_true cur_row cur_col cur_ptr m :
  fst (scan_test cur_row cur_col cur_ptr m) = true ->
  cur_ptr < peek junk Y_col_ptr (cur_col + 1) m.
Proof.
  unfold scan_test, bind, load, ret; simpl.
  case_decide; simpl; [done|discriminate].
Qed.

Lemma scan_body_cells cur_row cur_ptr val m a :
  cells a (snd (scan_body cur_row cur_ptr val m)) = cells a m.
Proof.
  unfold scan_body, bind, load, ret; simpl.
  case_decide; simpl; by rewrite !cells_log.
Qed.

Equations? column_scan (cur_row cur_col cur_ptr val : Z) (m : memory)
  : Z * memory
  by wf (Z.to_nat (peek junk Y_col_ptr (cur_col + 1) m - cur_ptr)) lt :=
  column_scan cur_row cur_col cur_ptr val m
    with inspect (scan_test cur_row cur_col cur_ptr m) := {
    | exist _ (false, m1) _ => (val, m1)
    | exist _ (true, m1) _
        with inspect (scan_body cur_row cur_ptr val m1) := {
      | exist _ (val', m2) _ =>
          column_scan cur_row cur_col (cur_ptr + 1) val' m2 } }.
Proof.
  match goal with
  | H1 : scan_test _ _ _ _ = _, H2 : scan_body _ _ _ _ = _ |- _ =>
      pose proof (scan_test_true cur_row cur_col cur_ptr m) as Hlt;
      pose proof (scan_test_cells cur_row cur_col cur_ptr m Y_col_ptr) as Hc1;
      pose proof (scan_body_cells cur_row cur_ptr val m1 Y_col_ptr) as Hc2;
      rewrite H1 in Hlt, Hc1; rewrite H2 in Hc2
  end.
  specialize (Hlt eq_refl). unfold peek in Hlt |- *.
  simpl in Hlt, Hc1, Hc2 |- *. rewrite Hc2, Hc1. lia.
Qed.

Definition print_CCS_cell (cur_row cur_col : Z) (line : list Z)
  : M (list Z) :=
  cur_ptr <- load junk Y_col_ptr cur_col ;;
  val <- column_scan cur_row cur_col cur_ptr 0 ;;
  ret (line ++ [val]).

Definition print_CCS_line (cur_row : Z) (out : list (list Z))
  : M (list (list Z)) :=
  fun m =>
    (line <- for_each 0 (CCS.num_cols (opY m)) (print_CCS_cell cur_row) [] ;;
     ret (out ++ [line])) m.

Definition print_CCS_matrix : M (list (list Z)) :=
  fun m => for_each 0 (CCS.num_rows (opY m)) print_CCS_line [] m.

End Traced.

End Traced.

(** ** Allocation: Malloc, the init_ and the free_ functions

    For the life cycle of the blocks these functions are run on a heap.  A
    pointer is the number of a block; a block is a list of cells, and
    freeing it leaves [None] in its place, so that a stale pointer is
    recognised.  Sizes are counted in cells: [Malloc(n * sizeof(int))] is
    [Malloc n], and a [struct CSR_Matrix] or [struct CCS_Matrix] is a block
    of five cells, one for each field.  Whether [malloc] finds memory is up
    to the environment. *)

Module Heap.

Inductive cell : Type :=
| Undef
| Int (z : Z)
| Ptr (b : nat).

Abbreviation heap := (list (option (list cell))).

(** How a run ends: with a value, by [exit], or in undefined behaviour (an
    access outside a live block, a cell of the wrong kind, a block freed
    twice, a division by zero, an [int] result that does not fit an
    [int]). *)
Inductive result (A : Type) : Type :=
| Done (a : A) (h : heap)
| Exited (status : Z) (err : list string)
| Fault.

Arguments Done {A} a h.
Arguments Exited {A} status err.
Arguments Fault {A}.

Definition H (A : Type) : Type := heap -> result A.

Definition ret {A} (a : A) : H A := fun h => Done a h.

Definition bind {A B} (c : H A) (k : A -> H B) : H B :=
  fun h =>
    match c h with
    | Done a h' => k a h'
    | Exited status err => Exited status err
    | Fault => Fault
    end.

Declare Scope heap_scope.
Delimit Scope heap_scope with heap.

Notation "x <- c ;; k" := (bind c (fun x => k))
  (at level 100, c at next level, right associativity) : heap_scope.
Notation "c ;;; k" := (bind c (fun _ => k))
  (at level 100, right associativity) : heap_scope.

Local Open Scope heap_scope.

(** [for (int i = lo; i < hi; i++) body]. *)
Definition for_each (lo hi : Z) (body : Z -> H unit) : H unit :=
  fun h =>
    for_loop lo hi
      (fun i r =>
         match r with
         | Done _ h' => body i h'
         | Exited status err => Exited status err
         | Fault => Fault
         end)
      (Done tt h).

Definition load (b : nat) (i : Z) : H cell :=
  fun h =>
    match h !! b with
    | Some (Some block) =>
        if decide (0 <= i) then
          match block !! Z.to_nat i with
          | Some c => Done c h
          | None => Fault
          end
        else Fault
    | _ => Fault
    end.

Definition store (b : nat) (i : Z) (c : cell) : H unit :=
  fun h =>
    match h !! b with
    | Some (Some block) =>
        if decide (0 <= i < Z.of_nat (length block)) then
          Done tt (<[b := Some (<[Z.to_nat i := c]> block)]> h)
        else Fault
    | _ => Fault
    end.

(** Reading a cell that is to hold a pointer. *)
Definition load_ptr (b : nat) (i : Z) : H nat :=
  c <- load b i ;;
  match c with
  | Ptr p => ret p
  | _ => fun _ => Fault
  end.

Definition free (b : nat) : H unit :=
  fun h =>
    match h !! b with
    | Some (Some _) => Done tt (<[b := None]> h)
    | _ => Fault
    end.

(** The offsets of the fields of the two structures. *)
Definition val : Z := 0.
Definition ind : Z := 1.
Definition ptr : Z := 2.
Definition num_rows : Z := 3.
Definition num_cols : Z := 4.

Section Allocation.

(** Whether [malloc] finds room for [n] more cells in a heap. *)
Variable grants : heap -> Z -> bool.

(** [Malloc]: a new block of [n] cells, or [perror("Malloc")], recorded by
    its argument, and [exit(EXIT_FAILURE)]. *)
Definition Malloc (n : Z) : H nat :=
  fun h =>
    if grants h n
    then Done (length h) (h ++ [Some (replicate (Z.to_nat n) Undef)])
    else Exited EXIT_FAILURE ["Malloc"%string].

Definition init_2d_array (rows cols : Z) : H nat :=
  R <- Malloc rows ;;
  for_each 0 rows (fun i => p <- Malloc cols ;; store R i (Ptr p)) ;;;
  ret R.

Definition init_CSR_matrix (num_val rows cols : Z) : H nat :=
  R <- Malloc 5 ;;
  v <- Malloc num_val ;; store R val (Ptr v) ;;;
  c <- Malloc num_val ;; store R ind (Ptr c) ;;;
  p <- Malloc (rows + 1) ;; store R ptr (Ptr p) ;;;
  store R num_rows (Int rows) ;;;
  store R num_cols (Int cols) ;;;
  ret R.

Definition init_CCS_matrix (num_val rows cols : Z) : H nat :=
  R <- Malloc 5 ;;
  v <- Malloc num_val ;; store R val (Ptr v) ;;;
  r <- Malloc num_val ;; store R ind (Ptr r) ;;;
  p <- Malloc (rows + 1) ;; store R ptr (Ptr p) ;;;
  store R num_rows (Int rows) ;;;
  store R num_cols (Int cols) ;;;
  ret R.

End Allocation.

Definition free_2d_array (R : nat) (rows cols : Z) : H unit :=
  for_each 0 rows (fun i => p <- load_ptr R i ;; free p) ;;;
  free R.

Definition free_CSR_matrix (R : nat) : H unit :=
  v <- load_ptr R val ;; free v ;;;
  c <- load_ptr R ind ;; free c ;;;
  p <- load_ptr R ptr ;; free p ;;;
  free R.

Definition free_CCS_matrix (R : nat) : H unit :=
  v <- load_ptr R val ;; free v ;;;
  r <- load_ptr R ind ;; free r ;;;
  p <- load_ptr R ptr ;; free p ;;;
  free R.

(** [Y->col_ptr[i] = v], as [main] writes it. *)
Definition set_col_ptr (Y : nat) (i v : Z) : H unit :=
  p <- load_ptr Y ptr ;; store p i (Int v).

(** [R->field[i] = v], for [field] one of [val], [ind], [ptr]. *)
Definition assign (R : nat) (field i v : Z) : H unit :=
  p <- load_ptr R field ;; store p i (Int v).

(** [R->field[i] = v0; R->field[i + 1] = v1; ...], one assignment after the
    other. *)
Fixpoint assign_from (R : nat) (field i : Z) (vs : list Z) : H unit :=
  match vs with
  | [] => ret tt
  | v :: vs' => assign R field i v ;;; assign_from R field (i + 1) vs'
  end.

Section Main.

Variable grants : heap -> Z -> bool.

(** The beginning of [main], up to the call of [sparse_matrix_multiply]:
    the two operands are allocated and filled cell by cell. *)
Definition build_X : H nat :=
  X <- init_CSR_matrix grants 6 7 5 ;;
  assign_from X val 0 [2; 4; 3; 1; 6; 2] ;;;
  assign_from X ind 0 [0; 3; 2; 0; 1; 4] ;;;
  assign_from X ptr 0 [0; 2; 2; 3; 4; 4; 5; 6] ;;;
  ret X.

Definition build_Y : H nat :=
  Y <- init_CCS_matrix grants 9 5 6 ;;
  assign_from Y val 0 [3; 11; 2; 3; 5; 4; 2; 6; 5] ;;;
  assign_from Y ind 0 [0; 4; 1; 1; 3; 0; 1; 2; 4] ;;;
  assign_from Y ptr 0 [0; 2; 3; 5; 6; 8; 9] ;;;
  ret Y.

Definition main_operands : H (nat * nat) :=
  X <- build_X ;;
  Y <- build_Y ;;
  ret (X, Y).

End Main.

(** ** The dense program on the heap *)

(** [for (int i = lo; i < hi; i++) body], for a body that updates local
    variables [s]. *)
Definition for_state {S : Type} (lo hi : Z) (body : Z -> S -> H S) (s : S)
  : H S :=
  fun h =>
    for_loop lo hi
      (fun i r =>
         match r with
         | Done s' h' => body i s' h'
         | Exited status err => Exited status err
         | Fault => Fault
         end)
      (Done s h).

(** Reading a cell that is to hold an [int]; a cell never written has no
    value to read, so that a run without fault reads none. *)
Definition load_int (b : nat) (i : Z) : H Z :=
  c <- load b i ;;
  match c with
  | Int z => ret z
  | _ => fun _ => Fault
  end.

(** [R[i][j]] and [R[i][j] = v] on an [int **]. *)
Definition load2 (R : nat) (i j : Z) : H Z :=
  p <- load_ptr R i ;; load_int p j.

Definition store2 (R : nat) (i j v : Z) : H unit :=
  p <- load_ptr R i ;; store p j (Int v).

(** What the dense program prints: titles and lines of integers. *)
Inductive line : Type :=
| Title (s : string)
| Numbers (l : list Z).

Section DenseProgram.

Variable grants : heap -> Z -> bool.

(** The values that the successive calls of [rand] return. *)
Variable rand : nat -> Z.

(** [rand() % upper], for the call of [rand] of that number; C's [%]
    truncates, as [Z.rem] does, and a division by zero is undefined. *)
Definition rand_below (upper : Z) (calls : nat) : H Z :=
  fun h =>
    if decide (upper = 0) then Fault
    else Done (Z.rem (rand calls) upper) h.

(** The local variable is the number of calls of [rand] so far. *)
Definition fill_rand_2d_array (R : nat) (rows cols upper : Z) (calls : nat)
  : H nat :=
  for_state 0 rows
    (fun i calls =>
       for_state 0 cols
         (fun j calls =>
            v <- rand_below upper calls ;;
            store2 R i j v ;;;
            ret (S calls))
         calls)
    calls.

(** The value of an [int] expression: a result that does not fit an [int]
    is an overflow, which is undefined. *)
Definition int_result (z : Z) : H Z :=
  fun h => if decide (INT_MIN <= z <= INT_MAX) then Done z h else Fault.

Definition matrix_multiply (X Y : nat) (x_rows x_cols y_rows y_cols : Z)
  : H nat :=
  if decide (x_cols <> y_rows)
  then fun _ => Exited EXIT_FAILURE [mismatch_message]
  else
    Z <- init_2d_array grants x_rows y_cols ;;
    for_each 0 x_rows
      (fun cur_z_row =>
         for_each 0 y_cols
           (fun cur_z_col =>
              dot_product <-
                for_state 0 x_cols
                  (fun dot_index dot_product =>
                     a <- load2 X cur_z_row dot_index ;;
                     b <- load2 Y dot_index cur_z_col ;;
                     p <- int_result (a * b) ;;
                     int_result (dot_product + p))
                  0 ;;
              store2 Z cur_z_row cur_z_col dot_product)) ;;;
    ret Z.

(** What is printed is returned. *)
Definition print_matrix (R : nat) (rows cols : Z) : H (list (list Z)) :=
  for_state 0 rows
    (fun i out =>
       l <- for_state 0 cols
              (fun j l => v <- load2 R i j ;; ret (l ++ [v])) [] ;;
       ret (out ++ [l]))
    [].

(** [main] of the dense program; [srand(time(NULL))] chooses [rand]. *)
Definition main_dense : H (list line) :=
  X <- init_2d_array grants 4 5 ;;
  calls <- fill_rand_2d_array X 4 5 10 0 ;;
  Y <- init_2d_array grants 5 3 ;;
  calls <- fill_rand_2d_array Y 5 3 10 calls ;;
  Z <- matrix_multiply X Y 4 5 5 3 ;;
  out_X <- print_matrix X 4 5 ;;
  out_Y <- print_matrix Y 5 3 ;;
  out_Z <- print_matrix Z 4 3 ;;
  free_2d_array X 4 5 ;;;
  free_2d_array Y 5 3 ;;;
  free_2d_array Z 4 3 ;;;
  ret ([Title "---X---"%string] ++ (Numbers <$> out_X) ++
       [Title "---Y---"%string] ++ (Numbers <$> out_Y) ++
       [Title "---Z---"%string] ++ (Numbers <$> out_Z)).

End DenseProgram.

End Heap.

(** ** Heaps: what they hold *)

(** Block [b] is live. *)
Definition live (h : Heap.heap) (b : nat) : Prop :=
  exists block, h !! b = Some (Some block).

(** Block [b] has been freed. *)
Definition freed (h : Heap.heap) (b : nat) : Prop := h !! b = Some None.

(** [R] is an [int **] of [length rows] rows: a live table of pointers to
    live blocks, all different. *)
Definition is_2d_array (h : Heap.heap) (R : nat) (rows : list nat) : Prop :=
  h !! R = Some (Some (Heap.Ptr <$> rows)) /\
  NoDup (R :: rows) /\
  Forall (live h) rows.

(** [R] is a [struct CSR_Matrix] or a [struct CCS_Matrix]: a live block
    whose first three cells point to the live blocks [v], [i] and [p], all
    different. *)
Definition is_matrix (h : Heap.heap) (R v i p : nat) : Prop :=
  (exists dims,
     h !! R = Some (Some (Heap.Ptr v :: Heap.Ptr i :: Heap.Ptr p :: dims))) /\
  NoDup [R; v; i; p] /\
  live h v /\ live h i /\ live h p.

(** The matrix [M] lies in the heap at [R]: the structure with its two
    dimensions, and its three arrays. *)
Definition holds_CSR (h : Heap.heap) (R : nat) (M : CSR_Matrix) : Prop :=
  exists v c p,
    h !! R =
      Some (Some [Heap.Ptr v; Heap.Ptr c; Heap.Ptr p;
                  Heap.Int (CSR.num_rows M); Heap.Int (CSR.num_cols M)]) /\
    h !! v = Some (Some (Heap.Int <$> CSR.val M)) /\
    h !! c = Some (Some (Heap.Int <$> CSR.col_ind M)) /\
    h !! p = Some (Some (Heap.Int <$> CSR.row_ptr M)).

(** The array at [R] has the blocks [bs] for rows, and these hold the
    cells [C], row by row. *)
Definition holds_cells (h : Heap.heap) (R : nat) (bs : list nat)
  (C : list (list Heap.cell)) : Prop :=
  h !! R = Some (Some (Heap.Ptr <$> bs)) /\
  NoDup (R :: bs) /\
  Forall2 (fun b row => h !! b = Some (Some row)) bs C.

(** The array at [R] holds the matrix [A]: every cell has been written. *)
Definition holds_2d (h : Heap.heap) (R : nat) (bs : list nat)
  (A : list (list Z)) : Prop :=
  holds_cells h R bs ((fun row : list Z => Heap.Int <$> row) <$> A).

(** A run that, if it ends in [exit], does so from [Malloc]. *)
Definition exit_is_from_Malloc {A} (r : Heap.result A) : Prop :=
  forall status err,
    r = Heap.Exited status err ->
    status = EXIT_FAILURE /\ err = ["Malloc"%string].

(** The heap [h] with a new [rows x cols] array of cells never written. *)
Definition with_2d_array (h : Heap.heap) (rows cols : Z) : Heap.heap :=
  h ++
  Some (Heap.Ptr <$> seq (S (length h)) (Z.to_nat rows)) ::
  replicate (Z.to_nat rows) (Some (replicate (Z.to_nat cols) Heap.Undef)).

(** The heap [h] with a new compressed matrix: the structure, then [val],
    the index array and the pointer array of [ptrs] cells. *)
Definition with_matrix (h : Heap.heap) (num_val ptrs rows cols : Z)
  : Heap.heap :=
  h ++
  [Some [Heap.Ptr (S (length h)); Heap.Ptr (S (S (length h)));
         Heap.Ptr (S (S (S (length h)))); Heap.Int rows; Heap.Int cols];
   Some (replicate (Z.to_nat num_val) Heap.Undef);
   Some (replicate (Z.to_nat num_val) Heap.Undef);
   Some (replicate (Z.to_nat ptrs) Heap.Undef)].

(** ** Specification vocabulary *)

(** Reading a list at an integer position, 0 outside. *)
Definition get (l : list Z) (i : Z) : Z := rd 0 l i.

(** The value paired with [target] among the [n] entries from position [p]
    on, 0 when there is none. *)
Fixpoint scan (idx vals : list Z) (target p : Z) (n : nat) : Z :=
  match n with
  | O => 0
  | S n' =>
      if decide (get idx p = target) then get vals p
      else scan idx vals target (p + 1) n'
  end.

Definition slice_get (idx vals : list Z) (lo hi target : Z) : Z :=
  scan idx vals target lo (Z.to_nat (hi - lo)).

(** The entry at row [i], column [j] of the matrix a compressed format
    stands for. *)
Definition CSR_get (X : CSR_Matrix) (i j : Z) : Z :=
  slice_get (CSR.col_ind X) (CSR.val X)
    (get (CSR.row_ptr X) i) (get (CSR.row_ptr X) (i + 1)) j.

Definition CCS_get (Y : CCS_Matrix) (i j : Z) : Z :=
  slice_get (CCS.row_ind Y) (CCS.val Y)
    (get (CCS.col_ptr Y) j) (get (CCS.col_ptr Y) (j + 1)) i.

Definition tabulate (rows cols : Z) (f : Z -> Z -> Z) : list (list Z) :=
  (fun i => f i <$> seqZ 0 cols) <$> seqZ 0 rows.

Definition CSR_to_dense (X : CSR_Matrix) : list (list Z) :=
  tabulate (CSR.num_rows X) (CSR.num_cols X) (CSR_get X).

Definition CCS_to_dense (Y : CCS_Matrix) : list (list Z) :=
  tabulate (CCS.num_rows Y) (CCS.num_cols Y) (CCS_get Y).

(** Well-formed compressed matrices: the invariant of the data model. *)
Definition compressed_wf (vals ind ptr : list Z) (major minor : Z) : Prop :=
  0 <= major /\ 0 <= minor /\
  Z.of_nat (length ptr) = major + 1 /\
  get ptr 0 = 0 /\
  Forall (fun i => get ptr i <= get ptr (i + 1)) (seqZ 0 major) /\
  get ptr major = Z.of_nat (length vals) /\
  length ind = length vals /\
  Forall (fun k => 0 <= k < minor) ind /\
  Forall (fun i =>
            Forall (fun p => get ind p < get ind (p + 1))
              (seqZ (get ptr i) (get ptr (i + 1) - get ptr i - 1)))
    (seqZ 0 major).

Definition CSR_wf (X : CSR_Matrix) : Prop :=
  compressed_wf (CSR.val X) (CSR.col_ind X) (CSR.row_ptr X)
    (CSR.num_rows X) (CSR.num_cols X).

Definition CCS_wf (Y : CCS_Matrix) : Prop :=
  compressed_wf (CCS.val Y) (CCS.row_ind Y) (CCS.col_ptr Y)
    (CCS.num_cols Y) (CCS.num_rows Y).

#[global] Instance compressed_wf_dec vals ind ptr major minor :
  Decision (compressed_wf vals ind ptr major minor).
Proof. unfold compressed_wf. apply _. Defined.

#[global] Instance CSR_wf_dec X : Decision (CSR_wf X).
Proof. unfold CSR_wf. apply _. Defined.

#[global] Instance CCS_wf_dec Y : Decision (CCS_wf Y).
Proof. unfold CCS_wf. apply _. Defined.

(** Exact sums over an integer range. *)
Fixpoint sum_from (f : Z -> Z) (lo : Z) (n : nat) : Z :=
  match n with
  | O => 0
  | S n' => f lo + sum_from f (lo + 1) n'
  end.

Definition Zsum (f : Z -> Z) (lo hi : Z) : Z :=
  sum_from f lo (Z.to_nat (hi - lo)).

(** The entry [(i, j)] of the product, as an [int]. *)
Definition dot (X : CSR_Matrix) (Y : CCS_Matrix) (i j : Z) : Z :=
  wrap (Zsum (fun k => CSR_get X i k * CCS_get Y k j) 0 (CSR.num_cols X)).

(** The entry [(i, j)] of the product of two dense matrices, as an
    integer. *)
Definition dense_sum (A B : list (list Z)) (K i j : Z) : Z :=
  Zsum (fun l => rd2 0 A i l * rd2 0 B l j) 0 K.

(** The columns of row [i] of the product, below [upto], that hold a
    non-zero entry; the cells of the rows before [i]. *)
Definition row_cols (X : CSR_Matrix) (Y : CCS_Matrix) (i upto : Z) : list Z :=
  filter (fun j => dot X Y i j <> 0) (seqZ 0 upto).

Definition cells_before (X : CSR_Matrix) (Y : CCS_Matrix) (i : Z)
  : list (Z * Z) :=
  concat ((fun i' => pair i' <$> row_cols X Y i' (CCS.num_cols Y))
            <$> seqZ 0 i).

(** The matrix that [sparse_matrix_multiply] builds, written as a value. *)
Definition product (X : CSR_Matrix) (Y : CCS_Matrix) : CSR_Matrix :=
  let L := cells_before X Y (CSR.num_rows X) in
  CSR.mk ((fun c => dot X Y (fst c) (snd c)) <$> L) (snd <$> L)
    ((fun i => Z.of_nat (length (cells_before X Y i)))
       <$> seqZ 0 (CSR.num_rows X + 1))
    (CSR.num_rows X) (CCS.num_cols Y).

(** ** Traces *)

Definition is_load (e : event) : Prop :=
  match e with Load _ _ => True | _ => False end.

(** [m'] is [m] after some loads and nothing else. *)
Definition reads_only (m m' : memory) : Prop :=
  exists t, m' = logs t m /\ Forall is_load t.

(** The number of cells of each buffer during a call whose result holds
    [nnz] entries; the operands are not to be written at all. *)
Definition size_of (rows cols nnz : Z) (a : array) : Z :=
  match a with
  | z_val | z_col_ind => rows * cols
  | z_row_ptr | Z_row_ptr => rows + 1
  | Z_val | Z_col_ind => nnz
  | _ => 0
  end.

Definition is_operand (a : array) : bool :=
  match a with
  | X_val | X_col_ind | X_row_ptr | Y_val | Y_row_ind | Y_col_ptr => true
  | _ => false
  end.

(** Stores land inside the stack buffers and the result; these buffers
    get the sizes above; nothing is printed and the process does not
    exit. *)
Definition event_ok (rows cols nnz : Z) (e : event) : Prop :=
  match e with
  | Load _ _ => True
  | Store a k _ => 0 <= k < size_of rows cols nnz a
  | Alloc a n => is_operand a = false /\ n = size_of rows cols nnz a
  | Stderr _ | Exit _ => False
  end.

(** The weaker reading: only buffers of the function's own are written. *)
Definition own_effect (e : event) : Prop :=
  match e with
  | Load _ _ => True
  | Store a _ _ | Alloc a _ => is_operand a = false
  | Stderr _ | Exit _ => False
  end.

(** The number of cells of each buffer that a call on [X] and [Y] may
    read: those of the operands and of the stack arrays.  The buffers of the
    result are only written. *)
Definition extent (X : CSR_Matrix) (Y : CCS_Matrix) (a : array) : Z :=
  match a with
  | X_val => Z.of_nat (length (CSR.val X))
  | X_col_ind => Z.of_nat (length (CSR.col_ind X))
  | X_row_ptr => Z.of_nat (length (CSR.row_ptr X))
  | Y_val => Z.of_nat (length (CCS.val Y))
  | Y_row_ind => Z.of_nat (length (CCS.row_ind Y))
  | Y_col_ptr => Z.of_nat (length (CCS.col_ptr Y))
  | z_val | z_col_ind => CSR.num_rows X * CCS.num_cols Y
  | z_row_ptr => CSR.num_rows X + 1
  | Z_val | Z_col_ind | Z_row_ptr => 0
  end.

(** A load is inside its buffer, or it is a load of [Y->row_ind] at the
    cell that follows the last one. *)
Definition load_ok (X : CSR_Matrix) (Y : CCS_Matrix) (e : event) : Prop :=
  match e with
  | Load a i =>
      0 <= i < extent X Y a \/ (a = Y_row_ind /\ i = extent X Y Y_row_ind)
  | _ => True
  end.

(** A load inside its buffer, as the buffers are in [m]. *)
Definition inside (m : memory) (e : event) : Prop :=
  match e with
  | Load a k => in_bounds (cells a m) k
  | _ => False
  end.

#[global] Instance array_eq_dec : EqDecision array.
Proof. solve_decision. Defined.

(** The stores into buffer [a], in the order of the trace: the index and
    the value of each. *)
Definition stores_to (a : array) (t : list event) : list (Z * Z) :=
  omap (fun e =>
          match e with
          | Store b k v => if decide (b = a) then Some (k, v) else None
          | _ => None
          end) t.

(** The cells of a buffer, each with its index. *)
Definition numbered (l : list Z) : list (Z * Z) :=
  imap (fun k v => (Z.of_nat k, v)) l.

(** The run has ended in [exit(EXIT_FAILURE)], right after [msg] on
    [stderr]. *)
Definition exits_with (msg : string) (r : outcome * memory) : Prop :=
  fst r = Exited EXIT_FAILURE /\
  exists t, trace (snd r) = t ++ [Stderr msg; Exit EXIT_FAILURE].

(** Whether [malloc] grants the four requests of [init_CSR_matrix]. *)
Definition all_granted (grants : nat -> Z -> bool) (num_val num_rows : Z)
  : bool :=
  grants 0%nat 5 && grants 1%nat num_val && grants 2%nat num_val &&
  grants 3%nat (num_rows + 1).

(** A bound on the number of events of a call: loads, stores and
    allocations. *)
Definition cost_bound (X : CSR_Matrix) (Y : CCS_Matrix) : Z :=
  let r := CSR.num_rows X in
  let c := CCS.num_cols Y in
  11 + 9 * (r * c) + 4 * r +
  3 * (r * Z.of_nat (length (CCS.val Y))) +
  9 * (c * Z.of_nat (length (CSR.val X))).

(** The slice [lo, hi) of [idx] lies inside the buffer and is strictly
    increasing. *)
Definition slice_ok (idx : list Z) (lo hi : Z) : Prop :=
  0 <= lo <= hi /\ hi <= Z.of_nat (length idx) /\
  forall p q, lo <= p -> p < q -> q < hi -> get idx p < get idx q.

(** [A] has [r] rows of [c] cells. *)
Definition shape (A : list (list Z)) (r c : Z) : Prop :=
  Z.of_nat (length A) = r /\ Forall (fun row => Z.of_nat (length row) = c) A.


(** ** Invariants of the loops of [sparse_matrix_multiply] *)

Definition cell_dot (X : CSR_Matrix) (Y : CCS_Matrix) (c : Z * Z) : Z :=
  dot X Y (fst c) (snd c).

(** The cells emitted before reaching column [j] of row [i]. *)
Definition cells_upto (X : CSR_Matrix) (Y : CCS_Matrix) (i j : Z)
  : list (Z * Z) :=
  cells_before X Y i ++ (pair i <$> row_cols X Y i j).

(** The first [length L] cells of the stack buffers hold the entries [L]. *)
Definition stack_inv (X : CSR_Matrix) (Y : CCS_Matrix) (L : list (Z * Z))
  (sv sc : list Z) : Prop :=
  Z.of_nat (length sv) = CSR.num_rows X * CCS.num_cols Y /\
  Z.of_nat (length sc) = CSR.num_rows X * CCS.num_cols Y /\
  take (length L) sv = cell_dot X Y <$> L /\
  take (length L) sc = snd <$> L.

(** The prefix of [z_row_ptr] written so far. *)
Definition ptr_inv (X : CSR_Matrix) (Y : CCS_Matrix) (i : Z) (sr : list Z)
  : Prop :=
  Z.of_nat (length sr) = CSR.num_rows X + 1 /\
  forall i', 0 <= i' <= i ->
    get sr i' = Z.of_nat (length (cells_before X Y i')).

(** The trace [t] stores, in the two stack buffers, the entries of the
    cells that [L'] has after those of [L], one at each index from
    [length L] on, and nothing else. *)
Definition emits (X : CSR_Matrix) (Y : CCS_Matrix) (L L' : list (Z * Z))
  (t : list event) : Prop :=
  numbered (cell_dot X Y <$> L) ++ stores_to z_val t =
    numbered (cell_dot X Y <$> L') /\
  numbered (snd <$> L) ++ stores_to z_col_ind t = numbered (snd <$> L').

(** If row [i] of [X] has an entry, the cursor reads [Y->row_ind] at the
    start of column [j]. *)
Definition cursor_read (X : CSR_Matrix) (Y : CCS_Matrix) (i j : Z)
  (t : list event) : Prop :=
  get (CSR.row_ptr X) i < get (CSR.row_ptr X) (i + 1) ->
  Load Y_row_ind (get (CCS.col_ptr Y) j) ∈ t.

(** ** The test case of [main] *)

Definition main_X : CSR_Matrix :=
  CSR.mk [2; 4; 3; 1; 6; 2] [0; 3; 2; 0; 1; 4] [0; 2; 2; 3; 4; 4; 5; 6] 7 5.

Definition main_Y : CCS_Matrix :=
  CCS.mk [3; 11; 2; 3; 5; 4; 2; 6; 5] [0; 4; 1; 1; 3; 0; 1; 2; 4]
    [0; 2; 3; 5; 6; 8; 9] 5 6.


(** ** Other inputs *)

(** An environment without surprises. *)
Definition no_junk : array -> Z -> Z := fun _ _ => 0.


(** A 1x1 matrix with one entry, times the 1x1 zero matrix. *)
Definition gap_X : CSR_Matrix := CSR.mk [1] [0] [0; 1] 1 1.
Definition gap_Y : CCS_Matrix := CCS.mk [] [] [0; 0] 1 1.

(** The matrix of [main_X] again, with a zero stored at row 1, column 0;
    the matrix of [main_Y] again, with a zero stored at row 2, column 1. *)
Definition padded_X : CSR_Matrix :=
  CSR.mk [2; 4; 0; 3; 1; 6; 2] [0; 3; 0; 2; 0; 1; 4]
    [0; 2; 3; 4; 5; 5; 6; 7] 7 5.

Definition padded_Y : CCS_Matrix :=
  CCS.mk [3; 11; 2; 0; 3; 5; 4; 2; 6; 5] [0; 4; 1; 2; 1; 3; 0; 1; 2; 4]
    [0; 2; 4; 6; 7; 9; 10] 5 6.

(** The 1x1 zero matrix, in CSR form. *)
Definition zero_X : CSR_Matrix := CSR.mk [] [] [0; 0] 1 1.

(** The zero matrix of 1100 x 1100 cells, in both forms; and the room on a
    stack of 8 MiB, counted in [int] cells of four bytes. *)
Definition wide_X : CSR_Matrix := CSR.mk [] [] (replicate 1101 0) 1100 1100.
Definition wide_Y : CCS_Matrix := CCS.mk [] [] (replicate 1101 0) 1100 1100.
Definition stack_8MiB : Z := 2097152.

(** Two small dense matrices. *)
Definition small_A : list (list Z) := [[1; 2; 3]; [4; 5; 6]].
Definition small_B : list (list Z) := [[1; 0]; [0; 1]; [2; 2]].
Definition small_C : list (list Z) := [[65536; 1]; [3; 65536]].

(** * Verification *)

(** ** Machine integers *)

Lemma wrap_range z : INT_MIN <= wrap z <= INT_MAX.
Proof.
  unfold wrap, INT_MIN, INT_MAX, int_modulus.
  pose proof (Z.mod_pos_bound (z + 2 ^ 31) (2 ^ 32) ltac:(lia)). lia.
Qed.

Lemma wrap_small z : INT_MIN <= z <= INT_MAX -> wrap z = z.
Proof.
  unfold wrap, INT_MIN, INT_MAX, int_modulus. intros H.
  rewrite Z.mod_small by lia. lia.
Qed.

Lemma wrap_wrap z : wrap (wrap z) = wrap z.
Proof. apply wrap_small, wrap_range. Qed.

Lemma wrap_add_r a b : wrap (a + wrap b) = wrap (a + b).
Proof.
  unfold wrap, int_modulus. f_equal.
  replace (a + ((b + 2 ^ 31) mod 2 ^ 32 - 2 ^ 31) + 2 ^ 31)
    with (a + (b + 2 ^ 31) mod 2 ^ 32) by lia.
  rewrite Zplus_mod_idemp_r. f_equal. lia.
Qed.

Lemma wrap_add_l a b : wrap (wrap a + b) = wrap (a + b).
Proof. rewrite (Z.add_comm (wrap a)), wrap_add_r. f_equal. lia. Qed.

Lemma int_add_mul a x y : int_add a (int_mul x y) = wrap (a + x * y).
Proof. unfold int_add, int_mul. apply wrap_add_r. Qed.

(** ** Buffers *)

Lemma rd_lookup d (l : list Z) i v :
  0 <= i -> l !! Z.to_nat i = Some v -> rd d l i = v.
Proof. intros Hi Hl. unfold rd. rewrite decide_True by done. by rewrite Hl. Qed.

Lemma in_bounds_lookup (l : list Z) i :
  in_bounds l i -> exists v, l !! Z.to_nat i = Some v.
Proof.
  intros [? ?]. apply lookup_lt_is_Some. lia.
Qed.

Lemma rd_in_bounds d (l : list Z) i : in_bounds l i -> rd d l i = get l i.
Proof.
  intros Hb. destruct (in_bounds_lookup l i Hb) as [v Hv].
  unfold get. rewrite !(rd_lookup _ l i v); auto; apply Hb.
Qed.

Lemma length_wr (l : list Z) i v : length (wr l i v) = length l.
Proof. unfold wr. case_decide; [apply length_insert|done]. Qed.

Lemma get_wr_eq (l : list Z) i v : in_bounds l i -> get (wr l i v) i = v.
Proof.
  intros [? ?]. unfold get, wr, rd. rewrite !decide_True by done.
  rewrite list_lookup_insert_eq by lia. done.
Qed.

Lemma get_wr_ne (l : list Z) i j v : i <> j -> get (wr l i v) j = get l j.
Proof.
  intros Hne. unfold get, wr, rd.
  destruct (decide (0 <= j)); [|done].
  destruct (decide (0 <= i)); [|done].
  rewrite list_lookup_insert_ne by lia. done.
Qed.

Lemma get_app_l (l1 l2 : list Z) i :
  0 <= i < Z.of_nat (length l1) -> get (l1 ++ l2) i = get l1 i.
Proof.
  intros [? ?]. unfold get, rd. rewrite !decide_True by done.
  rewrite lookup_app_l by lia. done.
Qed.

Lemma get_app_r (l1 l2 : list Z) i :
  Z.of_nat (length l1) <= i ->
  get (l1 ++ l2) i = get l2 (i - Z.of_nat (length l1)).
Proof.
  intros ?. unfold get, rd. rewrite !decide_True by lia.
  rewrite lookup_app_r by lia. do 2 f_equal. lia.
Qed.

Lemma take_S_wr (l : list Z) n v :
  (n < length l)%nat ->
  take (S n) (wr l (Z.of_nat n) v) = take n l ++ [v].
Proof.
  intros Hn. unfold wr. rewrite decide_True by lia. rewrite Nat2Z.id.
  erewrite take_S_r by (rewrite list_lookup_insert_eq; [done|lia]).
  rewrite take_insert_ge by lia. done.
Qed.

Lemma lookup_get (l : list Z) n :
  (n < length l)%nat -> l !! n = Some (get l (Z.of_nat n)).
Proof.
  intros Hn. destruct (lookup_lt_is_Some_2 l n Hn) as [v Hv].
  rewrite Hv. f_equal. symmetry. apply rd_lookup; [lia|]. by rewrite Nat2Z.id.
Qed.

(** Copying cell [k] extends the copied prefix. *)
Lemma copy_step (src dst : list Z) k :
  0 <= k < Z.of_nat (length src) -> k < Z.of_nat (length dst) ->
  take (Z.to_nat k) dst = take (Z.to_nat k) src ->
  take (Z.to_nat (k + 1)) (wr dst k (get src k)) = take (Z.to_nat (k + 1)) src.
Proof.
  intros Hs Hd Heq.
  replace (Z.to_nat (k + 1)) with (S (Z.to_nat k)) by lia.
  replace k with (Z.of_nat (Z.to_nat k)) at 2 3 by lia.
  rewrite take_S_wr by lia. rewrite Heq.
  erewrite (take_S_r src) by (apply lookup_get; lia). reflexivity.
Qed.

Lemma get_fresh (f : Z -> Z) n i : 0 <= i < n -> get (f <$> seqZ 0 n) i = f i.
Proof.
  intros Hi. unfold get. apply rd_lookup; [lia|].
  rewrite list_lookup_fmap, lookup_seqZ_lt by lia. simpl. do 2 f_equal. lia.
Qed.

Lemma get_fmap (f : Z -> Z) (l : list Z) k :
  0 <= k < Z.of_nat (length l) -> get (f <$> l) k = f (get l k).
Proof.
  intros Hk. unfold get at 1. apply rd_lookup; [lia|].
  rewrite list_lookup_fmap.
  replace (l !! Z.to_nat k) with (Some (get l k)); [done|].
  rewrite lookup_get by lia. by rewrite Z2Nat.id by lia.
Qed.

Lemma get_elem (l : list Z) k : 0 <= k < Z.of_nat (length l) -> get l k ∈ l.
Proof.
  intros Hk. apply (list_elem_of_lookup_2 l (Z.to_nat k)).
  rewrite lookup_get by lia. by rewrite Z2Nat.id by lia.
Qed.


Lemma fmap_snd_pair (i : Z) (l : list Z) : snd <$> (pair i <$> l) = l.
Proof.
  induction l as [|x l IH]; [done|]. rewrite !fmap_cons, IH. reflexivity.
Qed.

Lemma fmap_cell_pair (f : Z -> Z -> Z) (i : Z) (l : list Z) :
  (fun c => f (fst c) (snd c)) <$> (pair i <$> l) = f i <$> l.
Proof.
  induction l as [|x l IH]; [done|]. rewrite !fmap_cons, IH. reflexivity.
Qed.

(** ** Loops over a fixed range *)

Lemma for_loop_eqn {S : Type} (i hi : Z) (body : Z -> S -> S) (s : S) :
  for_loop i hi body s =
  if decide (i < hi) then for_loop (i + 1) hi body (body i s) else s.
Proof. apply for_loop_equation_1. Qed.

Lemma for_loop_done {S : Type} (i hi : Z) (body : Z -> S -> S) (s : S) :
  hi <= i -> for_loop i hi body s = s.
Proof. intros. rewrite for_loop_eqn, decide_False by lia. done. Qed.

(** The invariant rule. *)
Lemma for_loop_inv {S : Type} (I : Z -> S -> Prop) lo hi body (s : S) :
  lo <= hi ->
  I lo s ->
  (forall i s, lo <= i < hi -> I i s -> I (i + 1) (body i s)) ->
  I hi (for_loop lo hi body s).
Proof.
  intros Hle H0 Hstep.
  remember (Z.to_nat (hi - lo)) as n eqn:Hn.
  revert lo s Hle H0 Hstep Hn.
  induction n as [|n IH]; intros lo s Hle H0 Hstep Hn.
  - assert (lo = hi) as -> by lia. by rewrite for_loop_done by lia.
  - rewrite for_loop_eqn, decide_True by lia.
    apply IH; [lia| |intros; apply Hstep; [lia|done]|lia].
    apply Hstep; [lia|done].
Qed.

(** ** Memory and traces *)


Lemma logs_nil m : logs [] m = m.
Proof. destruct m; simpl. by rewrite app_nil_r. Qed.

Lemma logs_logs t1 t2 m : logs t2 (logs t1 m) = logs (t1 ++ t2) m.
Proof. destruct m; simpl. by rewrite app_assoc. Qed.

Lemma reads_only_refl m : reads_only m m.
Proof. exists []. by rewrite logs_nil. Qed.

Lemma reads_only_trans m1 m2 m3 :
  reads_only m1 m2 -> reads_only m2 m3 -> reads_only m1 m3.
Proof.
  intros (t1 & -> & H1) (t2 & -> & H2). exists (t1 ++ t2).
  rewrite logs_logs. split; [done|]. by apply Forall_app.
Qed.

Lemma cells_logs a t m : cells a (logs t m) = cells a m.
Proof. destruct m; destruct a; reflexivity. Qed.

Lemma opX_logs t m : opX (logs t m) = opX m.
Proof. by destruct m. Qed.

Lemma opY_logs t m : opY (logs t m) = opY m.
Proof. by destruct m. Qed.

Lemma trace_logs t m : trace (logs t m) = trace m ++ t.
Proof. by destruct m. Qed.

Lemma stores_to_app a t1 t2 :
  stores_to a (t1 ++ t2) = stores_to a t1 ++ stores_to a t2.
Proof. apply omap_app. Qed.

Lemma stores_to_loads a t : Forall is_load t -> stores_to a t = [].
Proof.
  induction 1 as [|e t He _ IH]; [done|].
  destruct e; first [done | exact IH].
Qed.

Lemma numbered_snoc l x :
  numbered (l ++ [x]) = numbered l ++ [(Z.of_nat (length l), x)].
Proof.
  unfold numbered. rewrite imap_app. simpl. by rewrite Nat.add_0_r.
Qed.

Lemma numbered_length l : length (numbered l) = length l.
Proof. apply length_imap. Qed.

Lemma numbered_lookup l k v :
  numbered l !! k = Some v <-> exists x, l !! k = Some x /\ v = (Z.of_nat k, x).
Proof.
  unfold numbered. rewrite list_lookup_imap.
  destruct (l !! k) as [x|]; simpl.
  - split; [intros [= <-]; eauto|by intros (? & [= <-] & ->)].
  - split; [done|by intros (? & ? & _)].
Qed.

Lemma emits_refl X Y L : emits X Y L L [].
Proof. split; simpl; apply app_nil_r. Qed.

Lemma emits_trans X Y L1 L2 L3 t1 t2 :
  emits X Y L1 L2 t1 -> emits X Y L2 L3 t2 -> emits X Y L1 L3 (t1 ++ t2).
Proof.
  intros [Hv1 Hc1] [Hv2 Hc2].
  split; rewrite stores_to_app, app_assoc; [by rewrite Hv1|by rewrite Hc1].
Qed.

Lemma emits_cell X Y L c t :
  stores_to z_val t = [(Z.of_nat (length L), cell_dot X Y c)] ->
  stores_to z_col_ind t = [(Z.of_nat (length L), snd c)] ->
  emits X Y L (L ++ [c]) t.
Proof.
  intros Hv Hc.
  split; rewrite ?Hv, ?Hc, fmap_app; cbn [fmap list_fmap];
    by rewrite numbered_snoc, length_fmap.
Qed.

Lemma emits_other X Y L t :
  stores_to z_val t = [] -> stores_to z_col_ind t = [] -> emits X Y L L t.
Proof. intros Hv Hc. split; rewrite ?Hv, ?Hc; apply app_nil_r. Qed.

(** Splitting a statement on a trace into one for each of its events. *)
Ltac each_event :=
  repeat match goal with
         | |- Forall _ (_ ++ _) => apply Forall_app; split
         | |- Forall _ (_ :: _) => apply Forall_cons_2
         | |- Forall _ [] => apply Forall_nil_2
         end.

(** ** Exact sums *)

Lemma sum_from_ext f g lo n :
  (forall k, lo <= k < lo + Z.of_nat n -> f k = g k) ->
  sum_from f lo n = sum_from g lo n.
Proof.
  revert lo. induction n as [|n IH]; intros lo Hfg; simpl; [done|].
  rewrite Hfg by lia. f_equal. apply IH. intros. apply Hfg. lia.
Qed.

Lemma sum_from_add f g lo n :
  sum_from (fun k => f k + g k) lo n = sum_from f lo n + sum_from g lo n.
Proof.
  revert lo. induction n as [|n IH]; intros lo; simpl; [done|].
  rewrite IH. lia.
Qed.

Lemma sum_from_zero f lo n :
  (forall k, lo <= k < lo + Z.of_nat n -> f k = 0) -> sum_from f lo n = 0.
Proof.
  revert lo. induction n as [|n IH]; intros lo Hf; simpl; [done|].
  rewrite Hf by lia. rewrite IH; [done|]. intros. apply Hf. lia.
Qed.

Lemma sum_from_single f c lo n :
  lo <= c < lo + Z.of_nat n ->
  (forall k, lo <= k < lo + Z.of_nat n -> k <> c -> f k = 0) ->
  sum_from f lo n = f c.
Proof.
  revert lo. induction n as [|n IH]; intros lo Hc Hf; simpl; [lia|].
  destruct (decide (lo = c)) as [->|Hne].
  - rewrite sum_from_zero; [lia|]. intros. apply Hf; lia.
  - rewrite Hf by lia. rewrite IH; [lia|lia|]. intros. apply Hf; lia.
Qed.

(** ** Looking a key up in a slice *)


Lemma scan_none idx vals t p n :
  (forall q, p <= q < p + Z.of_nat n -> get idx q <> t) ->
  scan idx vals t p n = 0.
Proof.
  revert p. induction n as [|n IH]; intros p Hq; simpl; [done|].
  rewrite decide_False by (apply Hq; lia). apply IH. intros. apply Hq. lia.
Qed.

Lemma scan_found idx vals t p n y :
  p <= y < p + Z.of_nat n -> get idx y = t ->
  (forall q, p <= q < y -> get idx q <> t) ->
  scan idx vals t p n = get vals y.
Proof.
  revert p. induction n as [|n IH]; intros p Hy Ht Hq; simpl; [lia|].
  destruct (decide (p = y)) as [->|Hne].
  - by rewrite decide_True.
  - rewrite decide_False by (apply Hq; lia).
    apply IH; [lia|done|]. intros. apply Hq. lia.
Qed.

Lemma slice_get_none idx vals lo hi t :
  (forall q, lo <= q < hi -> get idx q <> t) -> slice_get idx vals lo hi t = 0.
Proof. intros Hq. apply scan_none. intros. apply Hq. lia. Qed.

Lemma slice_get_found idx vals lo hi t y :
  slice_ok idx lo hi -> lo <= y < hi -> get idx y = t ->
  slice_get idx vals lo hi t = get vals y.
Proof.
  intros (? & ? & Hinc) Hy Ht. apply scan_found; [lia|done|].
  intros q Hq. specialize (Hinc q y). lia.
Qed.

(** Summing over the stored entries of a slice is summing over all keys. *)
Lemma sum_over_slice idx vals (g : Z -> Z) K x n :
  (forall p q, x <= p -> p < q -> q < x + Z.of_nat n ->
     get idx p < get idx q) ->
  (forall p, x <= p < x + Z.of_nat n -> 0 <= get idx p < K) ->
  sum_from (fun p => get vals p * g (get idx p)) x n =
  Zsum (fun k => scan idx vals k x n * g k) 0 K.
Proof.
  revert x. induction n as [|n IH]; intros x Hinc Hrange.
  - simpl. symmetry. apply sum_from_zero. intros. lia.
  - cbn [sum_from]. rewrite IH.
    2: { intros. apply Hinc; lia. }
    2: { intros. apply Hrange. lia. }
    unfold Zsum.
    rewrite (sum_from_ext (fun k => scan idx vals k x (S n) * g k)
               (fun k => (if decide (get idx x = k)
                          then get vals x * g k else 0)
                         + scan idx vals k (x + 1) n * g k)).
    + rewrite sum_from_add. f_equal.
      pose proof (Hrange x ltac:(lia)).
      rewrite (sum_from_single _ (get idx x)) by
        (first [lia | intros; by rewrite decide_False]).
      by rewrite decide_True.
    + intros k _. simpl. case_decide as Hk; [|lia].
      rewrite (scan_none idx vals k (x + 1) n); [lia|].
      intros q Hq. specialize (Hinc x q). lia.
Qed.

(** ** Consequences of well-formedness *)

Section Compressed.

Context {vals ind ptr : list Z} {major minor : Z}.
Hypothesis Hwf : compressed_wf vals ind ptr major minor.

Lemma wf_ptr_step i : 0 <= i < major -> get ptr i <= get ptr (i + 1).
Proof.
  destruct Hwf as (_ & _ & _ & _ & Hmono & _).
  rewrite Forall_seqZ in Hmono. intros. apply Hmono. lia.
Qed.

Lemma wf_ptr_mono i i' :
  0 <= i -> i <= i' -> i' <= major -> get ptr i <= get ptr i'.
Proof.
  intros Hi Hii' Hi'.
  remember (Z.to_nat (i' - i)) as n eqn:Hn. revert i' Hii' Hi' Hn.
  induction n as [|n IH]; intros i' Hii' Hi' Hn.
  - assert (i' = i) as -> by lia. lia.
  - specialize (IH (i' - 1) ltac:(lia) ltac:(lia) ltac:(lia)).
    pose proof (wf_ptr_step (i' - 1) ltac:(lia)) as Hs.
    replace (i' - 1 + 1) with i' in Hs by lia. lia.
Qed.

Lemma wf_ptr_bounds i :
  0 <= i <= major -> 0 <= get ptr i <= Z.of_nat (length vals).
Proof.
  intros Hi. destruct Hwf as (_ & _ & _ & H0 & _ & Hlast & _).
  pose proof (wf_ptr_mono 0 i ltac:(lia) ltac:(lia) ltac:(lia)).
  pose proof (wf_ptr_mono i major ltac:(lia) ltac:(lia) ltac:(lia)).
  lia.
Qed.

Lemma wf_ptr_in_bounds i : 0 <= i <= major -> in_bounds ptr i.
Proof.
  intros Hi. destruct Hwf as (_ & _ & Hlen & _). unfold in_bounds. lia.
Qed.

Lemma wf_length_ind : length ind = length vals.
Proof. by destruct Hwf as (_ & _ & _ & _ & _ & _ & Hlen & _). Qed.

Lemma wf_ind_range p :
  0 <= p < Z.of_nat (length vals) -> 0 <= get ind p < minor.
Proof.
  intros Hp. destruct Hwf as (_ & _ & _ & _ & _ & _ & Hlen & Hr & _).
  destruct (in_bounds_lookup ind p) as [v Hv].
  { unfold in_bounds. lia. }
  unfold get. rewrite (rd_lookup _ _ _ v) by (done || lia).
  rewrite Forall_lookup in Hr. by eapply Hr.
Qed.

Lemma wf_slice i :
  0 <= i < major -> slice_ok ind (get ptr i) (get ptr (i + 1)).
Proof.
  intros Hi.
  pose proof (wf_ptr_bounds i ltac:(lia)).
  pose proof (wf_ptr_bounds (i + 1) ltac:(lia)).
  pose proof (wf_ptr_step i Hi).
  split; [lia|]. split; [rewrite wf_length_ind; lia|].
  destruct Hwf as (_ & _ & _ & _ & _ & _ & _ & _ & Hinc).
  rewrite Forall_seqZ in Hinc. specialize (Hinc i ltac:(lia)).
  rewrite Forall_seqZ in Hinc.
  intros p q Hp Hpq Hq.
  remember (Z.to_nat (q - p - 1)) as n eqn:Hn. revert q Hpq Hq Hn.
  induction n as [|n IH]; intros q Hpq Hq Hn.
  - assert (q = p + 1) as -> by lia. apply Hinc. lia.
  - specialize (IH (q - 1) ltac:(lia) ltac:(lia) ltac:(lia)).
    specialize (Hinc (q - 1) ltac:(lia)).
    replace (q - 1 + 1) with q in Hinc by lia. lia.
Qed.

End Compressed.

(** ** Dense matrices *)


Lemma shape_row A r c i :
  shape A r c -> 0 <= i < r ->
  exists row, A !! Z.to_nat i = Some row /\ Z.of_nat (length row) = c.
Proof.
  intros [Hr Hc] Hi.
  destruct (lookup_lt_is_Some_2 A (Z.to_nat i) ltac:(lia)) as [row Hrow].
  exists row. split; [done|]. rewrite Forall_lookup in Hc. by eapply Hc.
Qed.

Lemma shape_tabulate r c f : 0 <= r -> 0 <= c -> shape (tabulate r c f) r c.
Proof.
  intros Hr Hc. unfold tabulate. split.
  - rewrite length_fmap, length_seqZ. lia.
  - apply Forall_fmap, Forall_forall. intros i _. simpl.
    rewrite length_fmap, length_seqZ. lia.
Qed.

Lemma rd2_tabulate d r c f i j :
  0 <= i < r -> 0 <= j < c -> rd2 d (tabulate r c f) i j = f i j.
Proof.
  intros Hi Hj. unfold rd2, tabulate. rewrite decide_True by lia.
  rewrite list_lookup_fmap, lookup_seqZ_lt by lia. simpl.
  replace (0 + Z.of_nat (Z.to_nat i)) with i by lia.
  rewrite rd_in_bounds by (unfold in_bounds; rewrite length_fmap, length_seqZ; lia).
  by rewrite get_fresh.
Qed.

Lemma shape_wr2 A r c i j v : shape A r c -> shape (wr2 A i j v) r c.
Proof.
  intros [Hr Hc]. unfold wr2. case_decide; [|done].
  destruct (A !! Z.to_nat i) as [row|] eqn:Hrow; [|done]. split.
  - by rewrite length_insert.
  - apply Forall_insert; [done|]. rewrite length_wr.
    rewrite Forall_lookup in Hc. by eapply Hc.
Qed.

Lemma rd2_wr2_eq A r c i j v :
  shape A r c -> 0 <= i < r -> 0 <= j < c -> rd2 0 (wr2 A i j v) i j = v.
Proof.
  intros Hs Hi Hj. destruct (shape_row A r c i Hs Hi) as (row & Hrow & Hlen).
  destruct Hs as [Hr _].
  unfold rd2, wr2. rewrite !decide_True, Hrow by lia.
  rewrite list_lookup_insert_eq by lia.
  apply get_wr_eq. unfold in_bounds. lia.
Qed.

Lemma rd2_wr2_ne A i j v i' j' :
  (i, j) <> (i', j') -> rd2 0 (wr2 A i j v) i' j' = rd2 0 A i' j'.
Proof.
  intros Hne. unfold rd2, wr2.
  destruct (decide (0 <= i')); [|done].
  destruct (decide (0 <= i)); [|done].
  destruct (A !! Z.to_nat i) as [row|] eqn:Hrow; [|done].
  destruct (decide (i = i')) as [->|Hi].
  - rewrite list_lookup_insert_eq by (by eapply lookup_lt_Some).
    rewrite Hrow. apply get_wr_ne. congruence.
  - rewrite list_lookup_insert_ne by lia. done.
Qed.

Lemma shape_ext A B r c :
  shape A r c -> shape B r c ->
  (forall i j, 0 <= i < r -> 0 <= j < c -> rd2 0 A i j = rd2 0 B i j) ->
  A = B.
Proof.
  intros HA HB Heq. apply list_eq. intros n.
  destruct (decide (Z.of_nat n < r)) as [Hn|Hn].
  - destruct (shape_row A r c (Z.of_nat n) HA ltac:(lia)) as (ra & Hra & Hla).
    destruct (shape_row B r c (Z.of_nat n) HB ltac:(lia)) as (rb & Hrb & Hlb).
    rewrite Nat2Z.id in Hra, Hrb. rewrite Hra, Hrb. f_equal.
    apply list_eq. intros k.
    destruct (decide (Z.of_nat k < c)) as [Hk|Hk].
    + specialize (Heq (Z.of_nat n) (Z.of_nat k) ltac:(lia) ltac:(lia)).
      unfold rd2 in Heq. rewrite !decide_True, Nat2Z.id, Hra, Hrb in Heq by lia.
      rewrite !lookup_get by lia. f_equal. exact Heq.
    + rewrite !lookup_ge_None_2 by lia. done.
  - destruct HA as [HA _], HB as [HB _].
    rewrite !lookup_ge_None_2 by lia. done.
Qed.

Lemma sum_from_snoc f lo n :
  sum_from f lo (S n) = sum_from f lo n + f (lo + Z.of_nat n).
Proof.
  revert lo. induction n as [|n IH]; intros lo.
  - simpl. replace (lo + Z.of_nat 0) with lo by lia. lia.
  - change (sum_from f lo (S (S n))) with (f lo + sum_from f (lo + 1) (S n)).
    rewrite IH.
    change (sum_from f lo (S n)) with (f lo + sum_from f (lo + 1) n).
    replace (lo + 1 + Z.of_nat n) with (lo + Z.of_nat (S n)) by lia. lia.
Qed.

Lemma Zsum_last f k : 0 <= k -> Zsum f 0 (k + 1) = Zsum f 0 k + f k.
Proof.
  intros Hk. unfold Zsum.
  replace (Z.to_nat (k + 1 - 0)) with (S (Z.to_nat (k - 0))) by lia.
  rewrite sum_from_snoc. do 2 f_equal. lia.
Qed.

(** The inner loop of the dense multiplication. *)
Lemma dense_dot_spec (a b : Z -> Z) K :
  0 <= K ->
  for_loop 0 K (fun k dp => int_add dp (int_mul (a k) (b k))) 0 =
  wrap (Zsum (fun k => a k * b k) 0 K).
Proof.
  intros HK.
  apply (for_loop_inv
           (fun k dp => dp = wrap (Zsum (fun k => a k * b k) 0 k))).
  - done.
  - reflexivity.
  - intros k dp Hk ->. rewrite int_add_mul, wrap_add_l.
    by rewrite Zsum_last by lia.
Qed.

Section DenseFacts.

Variable junk2 : Z -> Z -> Z.

Lemma shape_init_2d_array r c :
  0 <= r -> 0 <= c -> shape (init_2d_array junk2 r c) r c.
Proof. apply shape_tabulate. Qed.

(** Filling a matrix cell by cell, as the two outer loops of
    [matrix_multiply] do. *)
Lemma fill_spec (D : Z -> Z -> Z) r c A :
  0 <= r -> 0 <= c -> shape A r c ->
  for_loop 0 r
    (fun i A => for_loop 0 c (fun j A => wr2 A i j (D i j)) A) A =
  tabulate r c D.
Proof.
  intros Hr Hc HA.
  apply (shape_ext _ _ r c); [| by apply shape_tabulate |].
  - apply (for_loop_inv (fun _ A => shape A r c)); [done|done|].
    intros i A' _ HA'.
    apply (for_loop_inv (fun _ A => shape A r c)); [done|done|].
    intros. by apply shape_wr2.
  - cut (shape
           (for_loop 0 r
              (fun i A => for_loop 0 c (fun j A => wr2 A i j (D i j)) A) A)
           r c /\
         forall i j, 0 <= i < r -> 0 <= j < c ->
           rd2 0 (for_loop 0 r
                    (fun i A => for_loop 0 c (fun j A => wr2 A i j (D i j)) A)
                    A) i j = D i j).
    { intros [_ H] i j Hi Hj. rewrite H by done. by rewrite rd2_tabulate. }
    apply (for_loop_inv
             (fun i A =>
                shape A r c /\
                forall i' j, 0 <= i' < i -> 0 <= j < c -> rd2 0 A i' j = D i' j)).
    + done.
    + split; [done|]. intros; lia.
    + intros i A' Hi [HA' Hdone].
      pose (I := fun j A =>
                   shape A r c /\
                   (forall i' j', 0 <= i' < i -> 0 <= j' < c ->
                      rd2 0 A i' j' = D i' j') /\
                   (forall j', 0 <= j' < j -> rd2 0 A i j' = D i j')).
      assert (Hin : I c (for_loop 0 c (fun j A => wr2 A i j (D i j)) A')).
      { apply (for_loop_inv I); unfold I.
        - done.
        - split; [done|]. split; [done|]. intros; lia.
        - intros j A'' Hj (HA'' & Hrows & Hrow).
          split; [by apply shape_wr2|]. split.
          + intros i' j' Hi' Hj'. rewrite rd2_wr2_ne by (intros [=]; lia). auto.
          + intros j' Hj'. destruct (decide (j' = j)) as [->|].
            * by rewrite (rd2_wr2_eq _ r c).
            * rewrite rd2_wr2_ne by (intros [=]; lia). apply Hrow. lia. }
      destruct Hin as (HA'' & Hrows & Hrow). split; [done|].
      intros i' j Hi' Hj. destruct (decide (i' = i)) as [->|]; [auto|].
      apply Hrows; lia.
Qed.

End DenseFacts.

(** ** What a well-behaved trace looks like *)

Lemma event_ok_own rows cols nnz e : event_ok rows cols nnz e -> own_effect e.
Proof.
  destruct e as [| a k v | a n | |]; simpl; try done.
  - destruct a; simpl; (done || lia).
  - tauto.
Qed.

Lemma is_load_ok rows cols nnz t :
  Forall is_load t -> Forall (event_ok rows cols nnz) t.
Proof. intros H. eapply Forall_impl; [exact H|]. by intros []. Qed.

(** ** The cells that are emitted *)

Section Cells.

Variables (X : CSR_Matrix) (Y : CCS_Matrix).

Lemma seqZ_snoc n : 0 <= n -> seqZ 0 (n + 1) = seqZ 0 n ++ [n].
Proof.
  intros Hn. replace (n + 1) with (Z.of_nat (S (Z.to_nat n))) by lia.
  rewrite seqZ_S. rewrite Z2Nat.id by done. reflexivity.
Qed.

Lemma row_cols_0 i : row_cols X Y i 0 = [].
Proof. reflexivity. Qed.

Lemma row_cols_S i j :
  0 <= j ->
  row_cols X Y i (j + 1) =
  row_cols X Y i j ++ (if decide (dot X Y i j <> 0) then [j] else []).
Proof.
  intros Hj. unfold row_cols. rewrite seqZ_snoc by done.
  rewrite filter_app. reflexivity.
Qed.

Lemma row_cols_length i j : 0 <= j -> Z.of_nat (length (row_cols X Y i j)) <= j.
Proof.
  intros Hj. unfold row_cols.
  pose proof (length_filter (fun j => dot X Y i j <> 0) (seqZ 0 j)) as H.
  rewrite length_seqZ in H. lia.
Qed.

Lemma row_cols_elem i j upto :
  j ∈ row_cols X Y i upto <-> dot X Y i j <> 0 /\ 0 <= j < upto.
Proof.
  unfold row_cols. rewrite list_elem_of_filter, elem_of_seqZ. intuition lia.
Qed.

Lemma cells_before_0 : cells_before X Y 0 = [].
Proof. reflexivity. Qed.

Lemma cells_before_S i :
  0 <= i ->
  cells_before X Y (i + 1) =
  cells_before X Y i ++ (pair i <$> row_cols X Y i (CCS.num_cols Y)).
Proof.
  intros Hi. unfold cells_before. rewrite seqZ_snoc by done.
  rewrite fmap_app, concat_app. simpl. by rewrite app_nil_r.
Qed.

Lemma cells_before_length i :
  0 <= i -> 0 <= CCS.num_cols Y ->
  Z.of_nat (length (cells_before X Y i)) <= i * CCS.num_cols Y.
Proof.
  intros Hi Hc. remember (Z.to_nat i) as n eqn:Hn. revert i Hi Hn.
  induction n as [|n IH]; intros i Hi Hn.
  - assert (i = 0) as -> by lia. simpl. lia.
  - replace i with (i - 1 + 1) by lia. rewrite cells_before_S by lia.
    rewrite length_app, length_fmap.
    specialize (IH (i - 1) ltac:(lia) ltac:(lia)).
    pose proof (row_cols_length (i - 1) (CCS.num_cols Y) Hc). nia.
Qed.

Lemma cells_before_prefix i i' :
  0 <= i <= i' ->
  exists rest, cells_before X Y i' = cells_before X Y i ++ rest.
Proof.
  intros Hi. remember (Z.to_nat (i' - i)) as n eqn:Hn. revert i' Hi Hn.
  induction n as [|n IH]; intros i' Hi Hn.
  - assert (i' = i) as -> by lia. exists []. by rewrite app_nil_r.
  - destruct (IH (i' - 1) ltac:(lia) ltac:(lia)) as [rest Hrest].
    replace i' with (i' - 1 + 1) by lia. rewrite cells_before_S by lia.
    rewrite Hrest, <- app_assoc. eauto.
Qed.

Lemma cells_before_split i i' :
  0 <= i < i' ->
  exists rest,
    cells_before X Y i' =
    cells_before X Y i ++ (pair i <$> row_cols X Y i (CCS.num_cols Y)) ++ rest.
Proof.
  intros Hi.
  destruct (cells_before_prefix (i + 1) i' ltac:(lia)) as [rest Hrest].
  exists rest. rewrite Hrest, cells_before_S by lia. by rewrite <- app_assoc.
Qed.

Lemma cells_before_elem i c :
  0 <= i ->
  c ∈ cells_before X Y i <->
  0 <= fst c < i /\ snd c ∈ row_cols X Y (fst c) (CCS.num_cols Y).
Proof.
  intros Hi. remember (Z.to_nat i) as n eqn:Hn. revert i Hi Hn.
  induction n as [|n IH]; intros i Hi Hn.
  - assert (i = 0) as -> by lia. rewrite cells_before_0.
    split; [by intros ?%elem_of_nil|lia].
  - replace i with (i - 1 + 1) by lia. rewrite cells_before_S by lia.
    rewrite elem_of_app, (IH (i - 1)) by lia.
    rewrite list_elem_of_fmap. split.
    + intros [[? ?]|(j & -> & Hj)]; [split; [lia|done]|]. simpl. split; [lia|done].
    + intros [? Hc]. destruct (decide (fst c = i - 1)) as [Heq|]; [|left; split; [lia|done]].
      right. exists (snd c). rewrite <- Heq. split; [by destruct c|done].
Qed.

(** The columns kept for a row come in increasing order. *)
Lemma row_cols_incr i upto k :
  0 <= k -> k + 1 < Z.of_nat (length (row_cols X Y i upto)) ->
  get (row_cols X Y i upto) k < get (row_cols X Y i upto) (k + 1).
Proof.
  destruct (decide (0 <= upto)) as [Hu|Hu].
  2: { unfold row_cols. rewrite seqZ_nil by lia. simpl. lia. }
  remember (Z.to_nat upto) as n eqn:Hn. revert upto Hu Hn k.
  induction n as [|n IH]; intros upto Hu Hn k Hk Hlen.
  - assert (upto = 0) as -> by lia. simpl in Hlen. lia.
  - revert Hlen. replace upto with (upto - 1 + 1) by lia.
    rewrite row_cols_S by lia. case_decide; [|rewrite app_nil_r; apply IH; lia].
    rewrite length_app. simpl. intros Hlen.
    destruct (decide (k + 1 < Z.of_nat (length (row_cols X Y i (upto - 1))))).
    + rewrite !get_app_l by lia. apply IH; lia.
    + rewrite get_app_l, get_app_r by lia.
      replace (k + 1 - _) with 0 by lia. change (get [upto - 1] 0) with (upto - 1).
      pose proof (get_elem (row_cols X Y i (upto - 1)) k ltac:(lia)) as He.
      apply row_cols_elem in He. lia.
Qed.

End Cells.

(** ** The matrix [product X Y] *)

Section Product.

Variables (X : CSR_Matrix) (Y : CCS_Matrix).
Hypothesis Hrows : 0 <= CSR.num_rows X.
Hypothesis Hcols : 0 <= CCS.num_cols Y.

Let rows := CSR.num_rows X.
Let cols := CCS.num_cols Y.
Let P := product X Y.
Let before (i : Z) : Z := Z.of_nat (length (cells_before X Y i)).
Let kept (i : Z) : list Z := row_cols X Y i cols.

Lemma product_ptr i : 0 <= i <= rows -> get (CSR.row_ptr P) i = before i.
Proof. intros Hi. unfold P, product. simpl. by rewrite get_fresh by (fold rows; lia). Qed.

Lemma before_S i :
  0 <= i -> before (i + 1) = before i + Z.of_nat (length (kept i)).
Proof.
  intros Hi. unfold before. rewrite cells_before_S by done.
  rewrite length_app, length_fmap. fold cols. unfold kept. lia.
Qed.

(** The [k]-th entry of row [i]. *)
Lemma product_entry i k :
  0 <= i < rows -> 0 <= k < Z.of_nat (length (kept i)) ->
  get (CSR.col_ind P) (before i + k) = get (kept i) k /\
  get (CSR.val P) (before i + k) = dot X Y i (get (kept i) k).
Proof.
  intros Hi Hk. unfold P, product. cbn [CSR.col_ind CSR.val].
  destruct (cells_before_split X Y i (CSR.num_rows X) ltac:(fold rows; lia))
    as [rest ->].
  rewrite !fmap_app. split.
  - rewrite get_app_r by (rewrite length_fmap; fold (before i); lia).
    rewrite get_app_l.
    2: { rewrite !length_fmap. fold cols. fold (kept i).
         fold (before i). lia. }
    rewrite length_fmap. fold (before i).
    replace (before i + k - before i) with k by lia.
    by rewrite fmap_snd_pair.
  - rewrite get_app_r by (rewrite length_fmap; fold (before i); lia).
    rewrite get_app_l.
    2: { rewrite !length_fmap. fold cols. fold (kept i).
         fold (before i). lia. }
    rewrite length_fmap. fold (before i).
    replace (before i + k - before i) with k by lia.
    rewrite (fmap_cell_pair (dot X Y)). by rewrite get_fmap.
Qed.

Lemma product_length_val : Z.of_nat (length (CSR.val P)) = before rows.
Proof. unfold P, product. simpl. by rewrite length_fmap. Qed.

Lemma product_length_ind : length (CSR.col_ind P) = length (CSR.val P).
Proof. unfold P, product. simpl. by rewrite !length_fmap. Qed.

Lemma product_wf : CSR_wf P.
Proof.
  unfold CSR_wf, compressed_wf.
  split; [done|]. split; [done|].
  split. { unfold P, product. simpl. rewrite length_fmap, length_seqZ.
           fold rows. lia. }
  split. { by rewrite product_ptr by (fold rows; lia). }
  split. { apply Forall_seqZ. intros i Hi. change (CSR.num_rows P) with rows in Hi.
           rewrite !product_ptr by lia. rewrite before_S by lia. lia. }
  split. { change (CSR.num_rows P) with rows.
           rewrite product_ptr by lia. by rewrite product_length_val. }
  split. { apply product_length_ind. }
  split.
  - unfold P, product. simpl. apply Forall_fmap, Forall_forall.
    intros c Hc. apply cells_before_elem in Hc; [|done].
    destruct Hc as [_ Hc]. apply row_cols_elem in Hc. simpl. lia.
  - apply Forall_seqZ. intros i Hi. change (CSR.num_rows P) with rows in Hi.
    apply Forall_seqZ. intros p Hp.
    rewrite !product_ptr in Hp by lia. rewrite before_S in Hp by lia.
    replace p with (before i + (p - before i)) by lia.
    replace (before i + (p - before i) + 1)
      with (before i + (p - before i + 1)) by lia.
    destruct (product_entry i (p - before i)) as [-> _]; [lia|lia|].
    destruct (product_entry i (p - before i + 1)) as [-> _]; [lia|lia|].
    unfold kept in *. apply row_cols_incr; lia.
Qed.




End Product.

(** ** The printing helpers print the dense forms *)

Lemma for_loop_collect {A : Type} (f g : Z -> A) n :
  0 <= n -> (forall i, 0 <= i < n -> f i = g i) ->
  for_loop 0 n (fun i out => out ++ [f i]) [] = g <$> seqZ 0 n.
Proof.
  intros Hn Hfg.
  apply (for_loop_inv (fun k out => out = g <$> seqZ 0 k)); [done|done|].
  intros i out Hi ->. rewrite seqZ_snoc, fmap_app by lia.
  by rewrite Hfg.
Qed.

Section PrintingFacts.

Variable beyond : Z -> Z.

Lemma at_in_bounds l i : in_bounds l i -> at_ beyond l i = get l i.
Proof. apply rd_in_bounds. Qed.

Lemma print_CSR_row_spec R cur_row :
  CSR_wf R -> 0 <= cur_row < CSR.num_rows R ->
  snd (print_CSR_row beyond R cur_row) =
  CSR_get R cur_row <$> seqZ 0 (CSR.num_cols R).
Proof.
  intros HR Hrow.
  pose proof (wf_slice HR cur_row Hrow) as Hs.
  pose proof Hs as (Hlo & Hhi & Hinc).
  pose proof (wf_length_ind HR) as Hlen.
  pose proof HR as (_ & Hcols & _).
  set (lo := get (CSR.row_ptr R) cur_row) in *.
  set (hi := get (CSR.row_ptr R) (cur_row + 1)) in *.
  unfold print_CSR_row.
  rewrite !at_in_bounds by (apply (wf_ptr_in_bounds HR); lia).
  fold lo hi.
  cut (let s := for_loop 0 (CSR.num_cols R)
                  (fun cur_col s =>
                     let '(cur_ptr, line) := s in
                     if decide (cur_col = at_ beyond (CSR.col_ind R) cur_ptr /\
                                cur_ptr < hi)
                     then (cur_ptr + 1,
                           line ++ [at_ beyond (CSR.val R) cur_ptr])
                     else (cur_ptr, line ++ [0]))
                  (lo, []) in
       snd s = CSR_get R cur_row <$> seqZ 0 (CSR.num_cols R) /\
       lo <= fst s <= hi /\
       (forall p, lo <= p < fst s ->
          get (CSR.col_ind R) p < CSR.num_cols R) /\
       (fst s < hi -> CSR.num_cols R <= get (CSR.col_ind R) (fst s))).
  { intros H. apply H. }
  apply (for_loop_inv
           (fun c s =>
              snd s = CSR_get R cur_row <$> seqZ 0 c /\
              lo <= fst s <= hi /\
              (forall p, lo <= p < fst s -> get (CSR.col_ind R) p < c) /\
              (fst s < hi -> c <= get (CSR.col_ind R) (fst s)))).
  - done.
  - simpl. split; [done|]. split; [lia|]. split; [intros; lia|].
    intros Hlt. apply (wf_ind_range HR). lia.
  - intros c [ptr line] Hc (Hline & Hptr & Hbelow & Hnext). simpl in *.
    rewrite seqZ_snoc, fmap_app by lia. subst line.
    case_decide as Hmatch.
    + destruct Hmatch as [Hm Hlt].
      rewrite at_in_bounds in Hm by (unfold in_bounds; lia).
      rewrite at_in_bounds by (unfold in_bounds; lia).
      simpl. split; [|split; [lia|split]].
      * do 2 f_equal. symmetry.
        apply (slice_get_found _ _ _ _ _ ptr); [exact Hs|lia|done].
      * intros p Hp. destruct (decide (p = ptr)) as [->|]; [lia|].
        specialize (Hbelow p ltac:(lia)). lia.
      * intros Hlt'. specialize (Hinc ptr (ptr + 1) ltac:(lia) ltac:(lia) Hlt').
        lia.
    + simpl. split; [|split; [lia|split]].
      * do 2 f_equal. symmetry. apply slice_get_none. fold lo hi.
        intros q Hq Heq. destruct (decide (q < ptr)) as [Hqp|Hqp].
        { specialize (Hbelow q ltac:(lia)). lia. }
        specialize (Hnext ltac:(lia)).
        apply Hmatch. split; [|lia].
        rewrite at_in_bounds by (unfold in_bounds; lia).
        destruct (decide (q = ptr)) as [->|]; [done|].
        specialize (Hinc ptr q ltac:(lia) ltac:(lia) ltac:(lia)). lia.
      * intros p Hp. specialize (Hbelow p Hp). lia.
      * intros Hlt. specialize (Hnext Hlt).
        destruct (decide (get (CSR.col_ind R) ptr = c)) as [Heq|]; [|lia].
        exfalso. apply Hmatch. split; [|done].
        by rewrite at_in_bounds by (unfold in_bounds; lia).
Qed.

(** On a well-formed matrix [print_CSR_matrix] prints its dense form. *)
Lemma print_CSR_matrix_dense R :
  CSR_wf R -> print_CSR_matrix beyond R = CSR_to_dense R.
Proof.
  intros HR. pose proof HR as (Hrows & _).
  unfold print_CSR_matrix, CSR_to_dense, tabulate.
  apply (for_loop_collect (fun i => snd (print_CSR_row beyond R i))); [done|].
  intros i Hi. by apply print_CSR_row_spec.
Qed.

Lemma column_scan_eqn R cur_row cur_col cur_ptr val :
  column_scan beyond R cur_row cur_col cur_ptr val =
  if decide (cur_ptr < at_ beyond (CCS.col_ptr R) (cur_col + 1) /\
             at_ beyond (CCS.row_ind R) cur_ptr <= cur_row)
  then column_scan beyond R cur_row cur_col (cur_ptr + 1)
         (if decide (at_ beyond (CCS.row_ind R) cur_ptr = cur_row)
          then at_ beyond (CCS.val R) cur_ptr else val)
  else val.
Proof. apply column_scan_equation_1. Qed.

Lemma column_scan_spec R cur_row cur_col :
  CCS_wf R -> 0 <= cur_col < CCS.num_cols R ->
  column_scan beyond R cur_row cur_col (get (CCS.col_ptr R) cur_col) 0 =
  CCS_get R cur_row cur_col.
Proof.
  intros HR Hcol.
  pose proof (wf_slice HR cur_col Hcol) as Hs.
  pose proof Hs as (Hlo & Hhi & Hinc).
  pose proof (wf_length_ind HR) as Hlen.
  set (lo := get (CCS.col_ptr R) cur_col) in *.
  set (hi := get (CCS.col_ptr R) (cur_col + 1)) in *.
  assert (Hend : at_ beyond (CCS.col_ptr R) (cur_col + 1) = hi).
  { apply at_in_bounds. apply (wf_ptr_in_bounds HR). lia. }
  (* from any position of the slice on: the value found from there on, or
     the one carried so far *)
  assert (Hgen : forall n ptr v,
            n = Z.to_nat (hi - ptr) -> lo <= ptr <= hi ->
            ((forall q, ptr <= q < hi -> get (CCS.row_ind R) q <> cur_row) ->
             column_scan beyond R cur_row cur_col ptr v = v) /\
            (forall q, ptr <= q < hi -> get (CCS.row_ind R) q = cur_row ->
             column_scan beyond R cur_row cur_col ptr v = get (CCS.val R) q)).
  { induction n as [|n IH]; intros ptr v Hn Hptr;
      rewrite column_scan_eqn, Hend.
    - rewrite decide_False by lia. split; [done|]. intros; lia.
    - destruct (decide (ptr < hi /\
                        at_ beyond (CCS.row_ind R) ptr <= cur_row))
        as [[Hlt Hle]|Hstop].
      + rewrite at_in_bounds in Hle by (unfold in_bounds; lia).
        rewrite !at_in_bounds by (unfold in_bounds; lia).
        destruct (IH (ptr + 1)
                    (if decide (get (CCS.row_ind R) ptr = cur_row)
                     then get (CCS.val R) ptr else v)
                    ltac:(lia) ltac:(lia)) as [IHnone IHsome].
        split.
        * intros Hnone. rewrite IHnone by (intros; apply Hnone; lia).
          rewrite decide_False; [done|]. apply Hnone. lia.
        * intros q Hq Heq. destruct (decide (q = ptr)) as [->|Hne].
          -- rewrite IHnone; [by rewrite decide_True|].
             intros q' Hq'.
             specialize (Hinc ptr q' ltac:(lia) ltac:(lia) ltac:(lia)). lia.
          -- apply IHsome; [lia|done].
      + split; [done|]. intros q Hq Heq. exfalso. apply Hstop.
        split; [lia|].
        rewrite at_in_bounds by (unfold in_bounds; lia).
        destruct (decide (q = ptr)) as [->|]; [lia|].
        specialize (Hinc ptr q ltac:(lia) ltac:(lia) ltac:(lia)). lia. }
  destruct (Hgen _ lo 0 eq_refl ltac:(lia)) as [Hnone Hsome].
  unfold CCS_get. fold lo hi.
  destruct (decide (Exists (fun q => get (CCS.row_ind R) q = cur_row)
                      (seqZ lo (hi - lo)))) as [Hyes|Hno].
  - apply Exists_exists in Hyes as (q & Hq & Heq).
    apply elem_of_seqZ in Hq.
    rewrite (Hsome q ltac:(lia) Heq). symmetry.
    apply (slice_get_found _ _ _ _ _ q); [exact Hs|lia|done].
  - assert (Hnot : forall q, lo <= q < hi ->
                     get (CCS.row_ind R) q <> cur_row).
    { intros q Hq Heq. apply Hno, Exists_exists. exists q.
      split; [apply elem_of_seqZ; lia|done]. }
    rewrite Hnone by done.
    symmetry. by apply slice_get_none.
Qed.

(** On a well-formed matrix [print_CCS_matrix] prints its dense form. *)
Lemma print_CCS_matrix_dense R :
  CCS_wf R -> print_CCS_matrix beyond R = CCS_to_dense R.
Proof.
  intros HR. pose proof HR as (Hcols & Hrows & _).
  unfold print_CCS_matrix, CCS_to_dense, tabulate.
  apply (for_loop_collect
           (fun i =>
              for_loop 0 (CCS.num_cols R)
                (fun cur_col line =>
                   line ++
                   [column_scan beyond R i cur_col
                      (at_ beyond (CCS.col_ptr R) cur_col) 0]) []));
    [done|].
  intros i Hi.
  apply (for_loop_collect
           (fun j => column_scan beyond R i j
                       (at_ beyond (CCS.col_ptr R) j) 0)); [done|].
  intros j Hj.
  rewrite at_in_bounds by (apply (wf_ptr_in_bounds HR); lia).
  by apply column_scan_spec.
Qed.

End PrintingFacts.

Section Verification.

Variable junk : array -> Z -> Z.

Lemma peek_logs a i t m : peek junk a i (logs t m) = peek junk a i m.
Proof. unfold peek. by rewrite cells_logs. Qed.

Lemma reads_only_peek m m' a i :
  reads_only m m' -> peek junk a i m' = peek junk a i m.
Proof. intros (t & -> & _). apply peek_logs. Qed.

Lemma peek_in_bounds a i m :
  in_bounds (cells a m) i -> peek junk a i m = get (cells a m) i.
Proof. apply rd_in_bounds. Qed.

(** ** The cursor loop *)

Lemma advance_test_spec cur_z_col x_col y_row m :
  fst (advance_test junk cur_z_col x_col y_row m) =
    bool_decide (peek junk Y_row_ind y_row m < peek junk X_col_ind x_col m /\
                 y_row < peek junk Y_col_ptr (cur_z_col + 1) m) /\
  reads_only m (snd (advance_test junk cur_z_col x_col y_row m)).
Proof.
  unfold advance_test, bind, load, ret, log; simpl.
  rewrite !peek_logs.
  case_decide; simpl; rewrite ?peek_logs, !logs_logs.
  - split.
    + apply bool_decide_ext. tauto.
    + eexists. split; [done|]. repeat constructor.
  - split.
    + symmetry. apply bool_decide_eq_false. tauto.
    + eexists. split; [done|]. repeat constructor.
Qed.

(** The cursor only moves forward, over entries of [Y] that lie below the
    current column index of [X] and inside the column slice, and it rests
    where the test fails. *)
Lemma advance_spec cur_z_col x_col y_row m :
  let r := advance junk cur_z_col x_col y_row m in
  let c := peek junk X_col_ind x_col m in
  let e := peek junk Y_col_ptr (cur_z_col + 1) m in
  reads_only m (snd r) /\
  y_row <= fst r /\
  (forall q, y_row <= q < fst r -> peek junk Y_row_ind q m < c /\ q < e) /\
  ~ (peek junk Y_row_ind (fst r) m < c /\ fst r < e).
Proof.
  revert y_row m.
  apply (advance_ind junk cur_z_col x_col
           (fun y m r =>
              reads_only m (snd r) /\ y <= fst r /\
              (forall q, y <= q < fst r ->
                 peek junk Y_row_ind q m < peek junk X_col_ind x_col m /\
                 q < peek junk Y_col_ptr (cur_z_col + 1) m) /\
              ~ (peek junk Y_row_ind (fst r) m < peek junk X_col_ind x_col m /\
                 fst r < peek junk Y_col_ptr (cur_z_col + 1) m))).
  - intros y m Ht.
    destruct (advance_test_spec cur_z_col x_col y m) as [Hb Hr].
    rewrite Ht in Hb. symmetry in Hb. apply bool_decide_eq_false in Hb.
    simpl. split; [done|]. split; [lia|]. split; [intros; lia|done].
  - intros y m r Ht (Hr' & Hle & Hq & Hstop).
    destruct (advance_test_spec cur_z_col x_col y m) as [Hb Hr].
    rewrite Ht in Hb. symmetry in Hb. apply bool_decide_eq_true in Hb.
    assert (Hpk : forall a i,
               peek junk a i (snd (advance_test junk cur_z_col x_col y m)) =
               peek junk a i m) by (intros; by apply reads_only_peek).
    rewrite !Hpk in Hstop.
    split; [by eapply reads_only_trans|].
    split; [lia|]. split; [|done].
    intros q Hqr. destruct (decide (q = y)) as [->|]; [done|].
    specialize (Hq q). rewrite !Hpk in Hq. apply Hq. lia.
Qed.

(** ** One dot product *)

Lemma reads_only_logs t m m' :
  Forall is_load t -> reads_only m m' -> reads_only m (logs t m').
Proof.
  intros Ht Hm. eapply reads_only_trans; [exact Hm|]. by exists t.
Qed.

Lemma reads_only_opX m m' : reads_only m m' -> opX m' = opX m.
Proof. intros (t & -> & _). by destruct m. Qed.

Lemma reads_only_opY m m' : reads_only m m' -> opY m' = opY m.
Proof. intros (t & -> & _). by destruct m. Qed.

(** ** Where the cursor reads first

    Whatever the operands, the cursor loop starts by reading
    [Y->row_ind[y_row]], before it compares [y_row] with the end of the
    column slice. *)

Lemma logs_inj t1 t2 m : logs t1 m = logs t2 m -> t1 = t2.
Proof. destruct m; simpl. intros [= H]. by apply app_inv_head in H. Qed.

Lemma advance_test_first_read cur_z_col x_col y_row m :
  exists t,
    snd (advance_test junk cur_z_col x_col y_row m) =
    logs (Load Y_row_ind y_row :: t) m.
Proof.
  unfold advance_test, bind, load, ret, log; simpl.
  case_decide; simpl; rewrite !logs_logs; eexists; reflexivity.
Qed.

Lemma advance_first_read cur_z_col x_col y_row m :
  exists t,
    snd (advance junk cur_z_col x_col y_row m) =
    logs (Load Y_row_ind y_row :: t) m.
Proof.
  rewrite advance_eqn. cbv zeta.
  destruct (advance_test_first_read cur_z_col x_col y_row m) as [t Ht].
  destruct (fst (advance_test junk cur_z_col x_col y_row m)).
  - pose proof (advance_spec cur_z_col x_col (y_row + 1)
                  (snd (advance_test junk cur_z_col x_col y_row m)))
      as ((t' & Ht' & _) & _).
    rewrite Ht', Ht, logs_logs. eexists. reflexivity.
  - simpl. eauto.
Qed.

Lemma dot_body_first_read cur_z_col x_col dp y_row m :
  exists t,
    snd (dot_body junk cur_z_col x_col dp y_row m) =
    logs (Load Y_row_ind y_row :: t) m.
Proof.
  destruct (advance_first_read cur_z_col x_col y_row m) as [t Ht].
  unfold dot_body, bind, load, ret, log. simpl.
  repeat (case_decide; simpl); rewrite Ht, !logs_logs; eexists; reflexivity.
Qed.

Lemma dot_loop_logs cur_z_row cur_z_col x_col dp y_row m :
  exists t, snd (dot_loop junk cur_z_row cur_z_col x_col dp y_row m) = logs t m.
Proof.
  remember (Z.to_nat (peek junk X_row_ptr (cur_z_row + 1) m - x_col)) as n
    eqn:Hn.
  revert x_col dp y_row m Hn.
  induction n as [n IH] using lt_wf_ind. intros x dp y m ->.
  rewrite dot_loop_eqn. cbv zeta. case_decide as Hlt; [|simpl; eauto].
  destruct (dot_body_first_read cur_z_col x dp y
              (log (Load X_row_ptr (cur_z_row + 1)) m)) as [t Ht].
  destruct (fst (fst (dot_body junk cur_z_col x dp y _))).
  - edestruct IH as [t' Ht']; [|reflexivity|rewrite Ht', Ht].
    + rewrite Ht. unfold log. rewrite !peek_logs. lia.
    + unfold log. rewrite !logs_logs. eauto.
  - simpl. rewrite Ht. unfold log. rewrite logs_logs. eauto.
Qed.

Lemma dot_loop_first_read cur_z_row cur_z_col x_col dp y_row m :
  x_col < peek junk X_row_ptr (cur_z_row + 1) m ->
  exists t,
    snd (dot_loop junk cur_z_row cur_z_col x_col dp y_row m) =
    logs (Load X_row_ptr (cur_z_row + 1) :: Load Y_row_ind y_row :: t) m.
Proof.
  intros Hlt. rewrite dot_loop_eqn. cbv zeta. rewrite decide_True by done.
  destruct (dot_body_first_read cur_z_col x_col dp y_row
              (log (Load X_row_ptr (cur_z_row + 1)) m)) as [t Ht].
  destruct (fst (fst (dot_body junk cur_z_col x_col dp y_row _))).
  - edestruct dot_loop_logs as [t' Ht']. rewrite Ht', Ht.
    unfold log. rewrite !logs_logs. eexists. reflexivity.
  - simpl. rewrite Ht. unfold log. rewrite logs_logs. eexists. reflexivity.
Qed.

(** ** How long the loops run

    In any memory, well formed or not, each loop logs a number of events
    that its bounds limit. *)

Lemma advance_test_cost cur_z_col x_col y_row m :
  exists t,
    snd (advance_test junk cur_z_col x_col y_row m) = logs t m /\
    (length t <= 3)%nat.
Proof.
  unfold advance_test, bind, load, ret, log; simpl.
  case_decide; simpl; rewrite !logs_logs; eexists;
    (split; [reflexivity|simpl; lia]).
Qed.

(** The cursor loop: three loads for each test, one test more than there
    are moves. *)
Lemma advance_cost cur_z_col x_col y_row m :
  let r := advance junk cur_z_col x_col y_row m in
  exists t,
    snd r = logs t m /\ Z.of_nat (length t) <= 3 * (fst r - y_row + 1).
Proof.
  revert y_row m.
  apply (advance_ind junk cur_z_col x_col
           (fun y m r =>
              exists t,
                snd r = logs t m /\
                Z.of_nat (length t) <= 3 * (fst r - y + 1))).
  - intros y m _.
    destruct (advance_test_cost cur_z_col x_col y m) as (t & Ht & Hlen).
    exists t. simpl. split; [done|lia].
  - intros y m r _ (t2 & Hr & Hlen2).
    destruct (advance_test_cost cur_z_col x_col y m) as (t1 & Ht1 & Hlen1).
    exists (t1 ++ t2). rewrite Hr, Ht1, logs_logs. split; [done|].
    rewrite length_app. lia.
Qed.

(** The cursor stays below the end of the column slice, unless it started
    beyond. *)
Lemma advance_below cur_z_col x_col y_row m :
  let y' := fst (advance junk cur_z_col x_col y_row m) in
  y_row <= y' <= Z.max y_row (peek junk Y_col_ptr (cur_z_col + 1) m).
Proof.
  pose proof (advance_spec cur_z_col x_col y_row m) as (_ & Hle & Hq & _).
  cbv zeta in *. split; [done|].
  destruct (decide (fst (advance junk cur_z_col x_col y_row m) = y_row))
    as [->|Hne]; [lia|].
  specialize (Hq (fst (advance junk cur_z_col x_col y_row m) - 1)
                ltac:(lia)).
  lia.
Qed.

Lemma dot_body_cost cur_z_col x_col dp y_row m :
  let r := dot_body junk cur_z_col x_col dp y_row m in
  let y' := snd (snd (fst r)) in
  y' = fst (advance junk cur_z_col x_col y_row m) /\
  exists t,
    snd r = logs t m /\ Z.of_nat (length t) <= 3 * (y' - y_row) + 8.
Proof.
  destruct (advance_cost cur_z_col x_col y_row m) as (t & Ht & Hlen).
  unfold dot_body, bind, load, ret, log.
  destruct (advance junk cur_z_col x_col y_row m) as [y' m'] eqn:Hadv.
  cbn [fst snd] in *. subst m'.
  repeat (case_decide; cbn [fst snd]); rewrite !logs_logs;
    (split; [reflexivity|]); eexists; (split; [reflexivity|]);
    rewrite !length_app; simpl; lia.
Qed.

(** The loop over a row slice of [X]: a test for each entry and one more,
    at most eight loads for an entry besides those of the cursor loop, and
    three loads for each move of the cursor, which only moves forward. *)
Lemma dot_loop_cost cur_z_row cur_z_col x_col dp y_row m :
  let r := dot_loop junk cur_z_row cur_z_col x_col dp y_row m in
  let hi := peek junk X_row_ptr (cur_z_row + 1) m in
  let e := peek junk Y_col_ptr (cur_z_col + 1) m in
  let y' := snd (fst r) in
  y_row <= y' <= Z.max y_row e /\
  exists t,
    snd r = logs t m /\
    Z.of_nat (length t) <=
      1 + 9 * Z.max 0 (hi - x_col) + 3 * (y' - y_row).
Proof.
  cbv zeta.
  remember (Z.to_nat (peek junk X_row_ptr (cur_z_row + 1) m - x_col)) as n
    eqn:Hn.
  revert x_col dp y_row m Hn.
  induction n as [n IH] using lt_wf_ind. intros x dp y m ->.
  rewrite dot_loop_eqn. cbv zeta. case_decide as Hlt.
  - set (m1 := log (Load X_row_ptr (cur_z_row + 1)) m).
    assert (Hpk : forall a k t, peek junk a k (logs t m1) = peek junk a k m).
    { intros a k t. unfold m1, log. by rewrite !peek_logs. }
    assert (Hpk1 : forall a k, peek junk a k m1 = peek junk a k m).
    { intros a k. unfold m1, log. by rewrite peek_logs. }
    destruct (dot_body_cost cur_z_col x dp y m1)
      as (Hy' & tb & Htb & Hlenb).
    pose proof (advance_below cur_z_col x y m1) as Hrange.
    cbv zeta in Hy', Hlenb, Hrange. rewrite <- Hy', Hpk1 in Hrange.
    destruct (dot_body junk cur_z_col x dp y m1) as [[go [dp' y']] m2].
    cbn [fst snd] in *. subst m2. destruct go; cbn [fst snd].
    + destruct (IH (Z.to_nat
                      (peek junk X_row_ptr (cur_z_row + 1) (logs tb m1) -
                       (x + 1)))
                  ltac:(rewrite Hpk; lia) (x + 1) dp' y' (logs tb m1)
                  eq_refl)
        as (Hr' & t' & Ht' & Hlen').
      rewrite !Hpk in Hr', Hlen'.
      split; [lia|]. exists ([Load X_row_ptr (cur_z_row + 1)] ++ tb ++ t').
      split.
      * rewrite Ht'. unfold m1, log. by rewrite !logs_logs.
      * rewrite !length_app. simpl. lia.
    + split; [lia|]. exists ([Load X_row_ptr (cur_z_row + 1)] ++ tb).
      split; [unfold m1, log; by rewrite logs_logs|].
      rewrite length_app. simpl. lia.
  - cbn [fst snd]. split; [lia|]. unfold log. eexists.
    split; [reflexivity|]. simpl. lia.
Qed.

Section DotProduct.

Variables (X : CSR_Matrix) (Y : CCS_Matrix) (i j : Z).
Hypothesis HX : CSR_wf X.
Hypothesis HY : CCS_wf Y.
Hypothesis Hi : 0 <= i < CSR.num_rows X.
Hypothesis Hj : 0 <= j < CCS.num_cols Y.

Let b := get (CSR.row_ptr X) (i + 1).
Let lo := get (CCS.col_ptr Y) j.
Let e := get (CCS.col_ptr Y) (j + 1).

(** Column [j] of [Y], as a function of the row. *)
Let Ycol (k : Z) : Z := CCS_get Y k j.

Lemma Ycol_none k :
  (forall q, lo <= q < e -> get (CCS.row_ind Y) q <> k) -> Ycol k = 0.
Proof. apply slice_get_none. Qed.

Lemma Ycol_found k y :
  lo <= y < e -> get (CCS.row_ind Y) y = k -> Ycol k = get (CCS.val Y) y.
Proof. apply slice_get_found. apply (wf_slice HY). lia. Qed.

Lemma dot_body_spec x dp y m :
  opX m = X -> opY m = Y ->
  get (CSR.row_ptr X) i <= x < b ->
  lo <= y <= e ->
  (forall q, lo <= q < y -> get (CCS.row_ind Y) q < get (CSR.col_ind X) x) ->
  wrap dp = dp ->
  exists y' m',
    reads_only m m' /\ lo <= y' <= e /\
    (forall q, lo <= q < y' ->
       get (CCS.row_ind Y) q < get (CSR.col_ind X) x) /\
    ((y' = e /\ dot_body junk j x dp y m = ((false, (dp, y')), m')) \/
     (y' < e /\
      dot_body junk j x dp y m =
        ((true,
          (wrap (dp + get (CSR.val X) x * Ycol (get (CSR.col_ind X) x)), y')),
         m'))).
Proof.
  intros HmX HmY Hx Hy Hbelow Hdp.
  pose proof (wf_slice HX i Hi) as (HXa & HXb & HXinc).
  pose proof (wf_slice HY j Hj) as (HYa & HYb & HYinc).
  pose proof (wf_length_ind HX) as HXlen.
  pose proof (wf_length_ind HY) as HYlen.
  fold b in HXa, HXb, HXinc. fold lo e in HYa, HYb, HYinc.
  pose proof (advance_spec j x y m) as (Hro & Hle & Hq & Hstop).
  assert (Hc : peek junk X_col_ind x m = get (CSR.col_ind X) x).
  { rewrite peek_in_bounds; simpl; rewrite HmX; [done|]. unfold in_bounds. lia. }
  assert (He : peek junk Y_col_ptr (j + 1) m = e).
  { rewrite peek_in_bounds; simpl; rewrite HmY; [done|].
    apply (wf_ptr_in_bounds HY). lia. }
  assert (Hr : forall q, lo <= q < e ->
                 peek junk Y_row_ind q m = get (CCS.row_ind Y) q).
  { intros q Hqe. rewrite peek_in_bounds; simpl; rewrite HmY; [done|].
    unfold in_bounds. lia. }
  rewrite Hc, He in Hq, Hstop.
  destruct (advance junk j x y m) as [y' m'] eqn:Hadv. simpl in *.
  assert (Hy' : y' <= e).
  { destruct (decide (y' = y)) as [->|]; [lia|].
    specialize (Hq (y' - 1) ltac:(lia)). lia. }
  assert (Hbelow' : forall q, lo <= q < y' ->
             get (CCS.row_ind Y) q < get (CSR.col_ind X) x).
  { intros q Hqy. destruct (decide (q < y)); [apply Hbelow; lia|].
    rewrite <- Hr by lia. apply Hq. lia. }
  assert (Hpk : forall a k, peek junk a k m' = peek junk a k m)
    by (intros; by apply reads_only_peek).
  unfold dot_body, bind, load, ret, log. rewrite Hadv. simpl.
  rewrite ?peek_logs, ?Hpk, He.
  destruct (decide (y' >= e)) as [Hge|Hlt]; rewrite ?peek_logs, ?Hpk.
  - exists y'. eexists.
    split; [|split; [lia|split; [done|left; split; [lia|reflexivity]]]].
    apply reads_only_logs; [repeat constructor|done].
  - rewrite Hc, Hr by lia.
    assert (Hstop' : get (CSR.col_ind X) x <= get (CCS.row_ind Y) y').
    { rewrite Hr in Hstop by lia. lia. }
    case_decide as Hmatch; simpl.
    + rewrite ?peek_logs, ?Hpk.
      assert (peek junk X_val x m = get (CSR.val X) x) as ->.
      { rewrite peek_in_bounds; simpl; rewrite HmX; [done|].
        unfold in_bounds. lia. }
      assert (peek junk Y_val y' m = get (CCS.val Y) y') as ->.
      { rewrite peek_in_bounds; simpl; rewrite HmY; [done|].
        unfold in_bounds. lia. }
      exists y'. eexists.
      split; [|split; [lia|split; [done|right; split; [lia|]]]]; cycle 1.
      * rewrite int_add_mul. rewrite (Ycol_found _ y') by (done || lia).
        reflexivity.
      * rewrite !logs_logs. apply reads_only_logs; [repeat constructor|done].
    + exists y'. eexists.
      split; [|split; [lia|split; [done|right; split; [lia|]]]]; cycle 1.
      * rewrite Ycol_none.
        { rewrite Z.mul_0_r, Z.add_0_r, Hdp. reflexivity. }
        intros q Hqe. destruct (decide (q < y')).
        -- specialize (Hbelow' q ltac:(lia)). lia.
        -- destruct (decide (q = y')) as [->|]; [lia|].
           specialize (HYinc y' q ltac:(lia) ltac:(lia) ltac:(lia)). lia.
      * rewrite !logs_logs. apply reads_only_logs; [repeat constructor|done].
Qed.

Lemma dot_loop_spec n x dp y m :
  opX m = X -> opY m = Y ->
  get (CSR.row_ptr X) i <= x <= b -> n = Z.to_nat (b - x) ->
  lo <= y <= e ->
  (x < b ->
   forall q, lo <= q < y -> get (CCS.row_ind Y) q < get (CSR.col_ind X) x) ->
  wrap dp = dp ->
  exists y' m',
    reads_only m m' /\
    dot_loop junk i j x dp y m =
      ((wrap (dp + sum_from
                     (fun p => get (CSR.val X) p * Ycol (get (CSR.col_ind X) p))
                     x n), y'), m').
Proof.
  pose proof (wf_slice HX i Hi) as (HXa & HXb & HXinc).
  fold b in HXa, HXb, HXinc.
  revert x dp y m.
  induction n as [|n IH]; intros x dp y m HmX HmY Hx Hn Hy Hbelow Hdp;
    rewrite dot_loop_eqn; unfold log; cbv zeta;
    (assert (peek junk X_row_ptr (i + 1) m = b) as ->;
     [rewrite peek_in_bounds; simpl; rewrite HmX;
      [done|apply (wf_ptr_in_bounds HX); lia]|]).
  - rewrite decide_False by lia. exists y. eexists. split; [|simpl].
    2: { rewrite Z.add_0_r, Hdp. reflexivity. }
    apply reads_only_logs; [repeat constructor|apply reads_only_refl].
  - rewrite decide_True by lia.
    set (m1 := logs [Load X_row_ptr (i + 1)] m).
    assert (Hm1 : reads_only m m1).
    { apply reads_only_logs; [repeat constructor|apply reads_only_refl]. }
    destruct (dot_body_spec x dp y m1) as (y' & m' & Hro & Hy' & Hbelow' & Hcase);
      [by rewrite (reads_only_opX _ _ Hm1)|by rewrite (reads_only_opY _ _ Hm1)
      |lia|lia|apply Hbelow; lia|done|].
    destruct Hcase as [[-> Hbody]|[Hlt Hbody]]; rewrite Hbody; cbn [fst snd].
    + (* the column of Y is used up: nothing more to add *)
      exists e, m'. split; [by eapply reads_only_trans|].
      rewrite sum_from_zero; [by rewrite Z.add_0_r, Hdp|].
      intros p Hp. rewrite Ycol_none; [lia|].
      intros q Hq. specialize (Hbelow' q Hq).
      destruct (decide (p = x)) as [->|]; [lia|].
      specialize (HXinc x p ltac:(lia) ltac:(lia) ltac:(lia)). lia.
    + destruct (IH (x + 1)
                  (wrap (dp + get (CSR.val X) x * Ycol (get (CSR.col_ind X) x)))
                  y' m') as (y'' & m'' & Hro' & Heq).
      * rewrite (reads_only_opX _ _ Hro). by rewrite (reads_only_opX _ _ Hm1).
      * rewrite (reads_only_opY _ _ Hro). by rewrite (reads_only_opY _ _ Hm1).
      * lia.
      * lia.
      * lia.
      * intros Hx1 q Hq. specialize (Hbelow' q Hq).
        specialize (HXinc x (x + 1) ltac:(lia) ltac:(lia) ltac:(lia)). lia.
      * apply wrap_wrap.
      * exists y'', m''. split.
        { eapply reads_only_trans; [exact Hm1|].
          eapply reads_only_trans; [exact Hro|exact Hro']. }
        rewrite Heq. cbn [sum_from]. rewrite wrap_add_l. do 3 f_equal. lia.
Qed.

(** The merge of row [i] of [X] with column [j] of [Y] computes the entry
    [(i, j)] of the product. *)
Lemma dot_product_spec m :
  opX m = X -> opY m = Y ->
  exists y' m',
    reads_only m m' /\
    dot_loop junk i j (get (CSR.row_ptr X) i) 0 lo m = ((dot X Y i j, y'), m').
Proof.
  intros HmX HmY.
  pose proof (wf_slice HX i Hi) as (HXa & HXb & HXinc).
  pose proof (wf_slice HY j Hj) as (HYa & HYb & HYinc).
  fold b in HXa, HXb, HXinc. fold lo e in HYa, HYb, HYinc.
  destruct (dot_loop_spec (Z.to_nat (b - get (CSR.row_ptr X) i))
              (get (CSR.row_ptr X) i) 0 lo m)
    as (y' & m' & Hro & Heq); [done|done|lia|done|lia|intros; lia|done|].
  exists y', m'. split; [done|]. rewrite Heq. do 2 f_equal.
  unfold dot. f_equal. rewrite Z.add_0_l.
  rewrite (sum_over_slice _ _ _ (CSR.num_cols X)).
  - reflexivity.
  - intros p q ? ? ?. apply HXinc; lia.
  - intros p Hp. apply (wf_ind_range HX). rewrite <- (wf_length_ind HX). lia.
Qed.

(** The loads of one dot product: all inside their buffers, but for
    [Y->row_ind], which is read up to the end of the column slice
    included. *)
Lemma load_ok_in a k : 0 <= k < extent X Y a -> load_ok X Y (Load a k).
Proof. intros. by left. Qed.

Lemma load_ok_row_ind y :
  0 <= y <= Z.of_nat (length (CCS.row_ind Y)) ->
  load_ok X Y (Load Y_row_ind y).
Proof.
  intros Hy. simpl.
  destruct (decide (y = Z.of_nat (length (CCS.row_ind Y)))); [by right|].
  left. lia.
Qed.

Lemma slice_end_bound : 0 <= lo <= e /\ e <= Z.of_nat (length (CCS.row_ind Y)).
Proof. pose proof (wf_slice HY j Hj) as (? & ? & _). done. Qed.

Lemma advance_test_loads x y m :
  opX m = X -> opY m = Y ->
  in_bounds (CSR.col_ind X) x -> 0 <= y <= e ->
  exists t,
    snd (advance_test junk j x y m) = logs t m /\ Forall (load_ok X Y) t.
Proof.
  intros HmX HmY Hx Hy.
  pose proof (wf_ptr_in_bounds HY (j + 1) ltac:(lia)) as Hp.
  pose proof slice_end_bound as [_ He].
  unfold advance_test, bind, load, ret, log; simpl.
  case_decide; simpl; rewrite !logs_logs; eexists; (split; [reflexivity|]);
    each_event;
    first [apply load_ok_row_ind; lia | apply load_ok_in; exact Hx
          | apply load_ok_in; exact Hp].
Qed.

Lemma advance_loads x y m :
  opX m = X -> opY m = Y ->
  in_bounds (CSR.col_ind X) x -> 0 <= y <= e ->
  exists t,
    snd (advance junk j x y m) = logs t m /\ Forall (load_ok X Y) t.
Proof.
  intros HmX HmY Hx. revert y m HmX HmY.
  apply (advance_ind junk j x
           (fun y m r =>
              opX m = X -> opY m = Y -> 0 <= y <= e ->
              exists t, snd r = logs t m /\ Forall (load_ok X Y) t)).
  - intros y m _ HmX HmY Hy. simpl. by apply advance_test_loads.
  - intros y m r Ht IH HmX HmY Hy.
    destruct (advance_test_loads x y m HmX HmY Hx Hy) as (t1 & Ht1 & Hok1).
    pose proof (advance_test_true junk _ _ _ _ Ht) as Hlt.
    rewrite peek_in_bounds in Hlt
      by (simpl; rewrite HmY; apply (wf_ptr_in_bounds HY); lia).
    simpl in Hlt. rewrite HmY in Hlt. fold e in Hlt.
    rewrite Ht1 in IH.
    destruct IH as (t2 & -> & Hok2);
      [by rewrite opX_logs|by rewrite opY_logs|lia|].
    exists (t1 ++ t2). rewrite logs_logs. split; [done|]. by apply Forall_app.
Qed.

Lemma advance_range x y m :
  opX m = X -> opY m = Y -> 0 <= y <= e ->
  y <= fst (advance junk j x y m) <= e.
Proof.
  intros HmX HmY Hy.
  pose proof (advance_spec j x y m) as (_ & Hle & Hq & _). cbv zeta in *.
  split; [done|].
  destruct (decide (fst (advance junk j x y m) = y)) as [->|]; [lia|].
  specialize (Hq (fst (advance junk j x y m) - 1) ltac:(lia)) as [_ Hq].
  rewrite peek_in_bounds in Hq
    by (simpl; rewrite HmY; apply (wf_ptr_in_bounds HY); lia).
  simpl in Hq. rewrite HmY in Hq. fold e in Hq. lia.
Qed.

Lemma dot_body_loads x dp y m :
  opX m = X -> opY m = Y ->
  get (CSR.row_ptr X) i <= x < b -> lo <= y <= e ->
  exists t,
    snd (dot_body junk j x dp y m) = logs t m /\ Forall (load_ok X Y) t.
Proof.
  intros HmX HmY Hx Hy.
  pose proof (wf_slice HX i Hi) as (HXa & HXb & _).
  pose proof slice_end_bound as [Hlo He].
  pose proof (wf_length_ind HX) as HXlen.
  pose proof (wf_length_ind HY) as HYlen.
  fold b in HXa, HXb.
  assert (Hxin : in_bounds (CSR.col_ind X) x) by (unfold in_bounds; lia).
  pose proof (wf_ptr_in_bounds HY (j + 1) ltac:(lia)) as Hp.
  destruct (advance_loads x y m HmX HmY Hxin ltac:(lia)) as (ta & Hta & Hoka).
  pose proof (advance_range x y m HmX HmY ltac:(lia)) as Hy'.
  unfold dot_body, bind, load, ret, log.
  destruct (advance junk j x y m) as [y' m'] eqn:Hadv.
  cbn [fst snd] in *. subst m'.
  rewrite !peek_logs.
  assert (peek junk Y_col_ptr (j + 1) m = e) as ->.
  { rewrite peek_in_bounds; simpl; rewrite HmY; done. }
  repeat (case_decide; cbn [fst snd]); rewrite !logs_logs;
    eexists; (split; [reflexivity|]);
    each_event; try exact Hoka;
    first [apply load_ok_row_ind; lia
          | apply load_ok_in; simpl; unfold in_bounds in *; lia].
Qed.

Lemma dot_loop_loads n x dp y m :
  opX m = X -> opY m = Y ->
  get (CSR.row_ptr X) i <= x <= b -> n = Z.to_nat (b - x) ->
  lo <= y <= e ->
  (x < b ->
   forall q, lo <= q < y -> get (CCS.row_ind Y) q < get (CSR.col_ind X) x) ->
  wrap dp = dp ->
  exists t,
    snd (dot_loop junk i j x dp y m) = logs t m /\ Forall (load_ok X Y) t.
Proof.
  pose proof (wf_slice HX i Hi) as (HXa & HXb & HXinc).
  fold b in HXa, HXb, HXinc.
  assert (Hptr : load_ok X Y (Load X_row_ptr (i + 1))).
  { apply load_ok_in. apply (wf_ptr_in_bounds HX). lia. }
  revert x dp y m.
  induction n as [|n IH]; intros x dp y m HmX HmY Hx Hn Hy Hbelow Hdp;
    rewrite dot_loop_eqn; unfold log; cbv zeta;
    (assert (peek junk X_row_ptr (i + 1) m = b) as ->;
     [rewrite peek_in_bounds; simpl; rewrite HmX;
      [done|apply (wf_ptr_in_bounds HX); lia]|]).
  - rewrite decide_False by lia. cbn [snd]. eexists. split; [reflexivity|].
    by constructor.
  - rewrite decide_True by lia.
    set (m1 := logs [Load X_row_ptr (i + 1)] m).
    assert (HmX1 : opX m1 = X) by (unfold m1; by rewrite opX_logs).
    assert (HmY1 : opY m1 = Y) by (unfold m1; by rewrite opY_logs).
    destruct (dot_body_spec x dp y m1) as (y' & m' & Hro & Hy' & Hbelow' & Hcase);
      [done|done|lia|lia|apply Hbelow; lia|done|].
    destruct (dot_body_loads x dp y m1) as (tb & Htb & Hokb);
      [done|done|lia|lia|].
    destruct Hcase as [[-> Hbody]|[Hlt Hbody]]; rewrite Hbody in Htb |- *;
      cbn [fst snd] in Htb |- *.
    + rewrite Htb. unfold m1. rewrite logs_logs. eexists.
      split; [reflexivity|]. by constructor.
    + destruct (IH (x + 1)
                  (wrap (dp + get (CSR.val X) x * Ycol (get (CSR.col_ind X) x)))
                  y' m') as (t' & -> & Hok').
      * rewrite Htb. by rewrite opX_logs.
      * rewrite Htb. by rewrite opY_logs.
      * lia.
      * lia.
      * lia.
      * intros Hx1 q Hq. specialize (Hbelow' q Hq).
        specialize (HXinc x (x + 1) ltac:(lia) ltac:(lia) ltac:(lia)). lia.
      * apply wrap_wrap.
      * rewrite Htb. unfold m1. rewrite !logs_logs. eexists.
        split; [reflexivity|]. constructor; [done|]. by apply Forall_app.
Qed.

Lemma dot_product_loads m :
  opX m = X -> opY m = Y ->
  exists t,
    snd (dot_loop junk i j (get (CSR.row_ptr X) i) 0 lo m) = logs t m /\
    Forall (load_ok X Y) t.
Proof.
  intros HmX HmY.
  pose proof (wf_slice HX i Hi) as (HXa & HXb & HXinc).
  pose proof slice_end_bound as [Hlo He].
  fold b in HXa, HXb, HXinc.
  apply (dot_loop_loads (Z.to_nat (b - get (CSR.row_ptr X) i)));
    [done|done|lia|done|lia|intros; lia|done].
Qed.

End DotProduct.

(** ** The loops that fill the stack buffers *)

Section Multiply.

Variables (X : CSR_Matrix) (Y : CCS_Matrix).
Hypothesis HX : CSR_wf X.
Hypothesis HY : CCS_wf Y.
Hypothesis Hdim : CSR.num_cols X = CCS.num_rows Y.

Local Abbreviation rows := (CSR.num_rows X).
Local Abbreviation cols := (CCS.num_cols Y).

Lemma rows_nonneg : 0 <= rows.
Proof. by destruct HX as (? & _). Qed.

Lemma cols_nonneg : 0 <= cols.
Proof. by destruct HY as (? & _). Qed.

Lemma cells_upto_length i j :
  0 <= i < rows -> 0 <= j < cols ->
  Z.of_nat (length (cells_upto X Y i j)) < rows * cols.
Proof.
  intros Hi Hj. unfold cells_upto. rewrite length_app, length_fmap.
  pose proof (cells_before_length X Y i ltac:(lia) cols_nonneg).
  pose proof (row_cols_length X Y i j ltac:(lia)).
  nia.
Qed.

Lemma cells_upto_S i j :
  0 <= j ->
  cells_upto X Y i (j + 1) =
  cells_upto X Y i j ++ (if decide (dot X Y i j <> 0) then [(i, j)] else []).
Proof.
  intros Hj. unfold cells_upto. rewrite row_cols_S by done.
  rewrite fmap_app, app_assoc. by case_decide.
Qed.

(** The events of one dot product, in number. *)
Lemma dot_product_cost i j m :
  0 <= i < rows -> 0 <= j < cols ->
  opX m = X -> opY m = Y ->
  exists t,
    snd (dot_loop junk i j (get (CSR.row_ptr X) i) 0
           (get (CCS.col_ptr Y) j) m) = logs t m /\
    Z.of_nat (length t) <=
      1 + 9 * (get (CSR.row_ptr X) (i + 1) - get (CSR.row_ptr X) i) +
      3 * (get (CCS.col_ptr Y) (j + 1) - get (CCS.col_ptr Y) j).
Proof.
  intros Hi Hj HmX HmY.
  pose proof (wf_ptr_step HX i Hi) as Hxs.
  pose proof (wf_ptr_step HY j Hj) as Hys.
  destruct (dot_loop_cost i j (get (CSR.row_ptr X) i) 0
              (get (CCS.col_ptr Y) j) m) as (Hy & t & Ht & Hlen).
  assert (Hhi : peek junk X_row_ptr (i + 1) m = get (CSR.row_ptr X) (i + 1)).
  { rewrite peek_in_bounds; simpl; rewrite HmX; [done|].
    apply (wf_ptr_in_bounds HX). lia. }
  assert (He : peek junk Y_col_ptr (j + 1) m = get (CCS.col_ptr Y) (j + 1)).
  { rewrite peek_in_bounds; simpl; rewrite HmY; [done|].
    apply (wf_ptr_in_bounds HY). lia. }
  rewrite Hhi in Hlen. rewrite He in Hy.
  exists t. split; [exact Ht|]. lia.
Qed.

Lemma col_body_spec i j sv sc sr z t :
  0 <= i < rows -> 0 <= j < cols ->
  stack_inv X Y (cells_upto X Y i j) sv sc ->
  exists sv' sc' t',
    col_body junk i j
      (Z.of_nat (length (cells_upto X Y i j)),
       Z.of_nat (length (row_cols X Y i j)))
      (mkmem X Y sv sc sr z t) =
    ((Z.of_nat (length (cells_upto X Y i (j + 1))),
      Z.of_nat (length (row_cols X Y i (j + 1)))),
     mkmem X Y sv' sc' sr z (t ++ t')) /\
    stack_inv X Y (cells_upto X Y i (j + 1)) sv' sc' /\
    (forall nnz, Forall (event_ok rows cols nnz) t') /\
    cursor_read X Y i j t' /\
    Forall (load_ok X Y) t' /\
    emits X Y (cells_upto X Y i j) (cells_upto X Y i (j + 1)) t' /\
    Z.of_nat (length t') <=
      5 + 9 * (get (CSR.row_ptr X) (i + 1) - get (CSR.row_ptr X) i) +
      3 * (get (CCS.col_ptr Y) (j + 1) - get (CCS.col_ptr Y) j).
Proof.
  intros Hi Hj (Hlv & Hlc & Hv & Hc).
  pose proof (cells_upto_length i j Hi Hj) as Hlen.
  unfold col_body, bind. cbn [load log logs fst snd].
  assert (peek junk Y_col_ptr j (mkmem X Y sv sc sr z t)
          = get (CCS.col_ptr Y) j) as ->.
  { apply peek_in_bounds. apply (wf_ptr_in_bounds HY). lia. }
  assert (peek junk X_row_ptr i (mkmem X Y sv sc sr z (t ++ [Load Y_col_ptr j]))
          = get (CSR.row_ptr X) i) as ->.
  { apply peek_in_bounds. apply (wf_ptr_in_bounds HX). lia. }
  edestruct (dot_product_spec X Y i j HX HY Hi Hj) as (y' & m' & Hro & Heq);
    [| |rewrite Heq]; [reflexivity|reflexivity|].
  destruct Hro as (t'' & -> & Ht'').
  assert (Hcur : cursor_read X Y i j t'').
  { intros Hne.
    edestruct (dot_loop_first_read i j (get (CSR.row_ptr X) i) 0
                 (get (CCS.col_ptr Y) j)) as [t3 Ht3];
      [|rewrite Heq in Ht3].
    - rewrite peek_in_bounds; [exact Hne|].
      apply (wf_ptr_in_bounds HX). lia.
    - cbn [snd] in Ht3. apply logs_inj in Ht3. rewrite Ht3.
      rewrite !elem_of_cons. auto. }
  assert (Hld : Forall (load_ok X Y) t'').
  { edestruct (dot_product_loads X Y i j HX HY Hi Hj) as (t3 & Ht3 & Hok3);
      [| |rewrite Heq in Ht3]; [reflexivity|reflexivity|].
    cbn [snd] in Ht3. apply logs_inj in Ht3. by rewrite Ht3. }
  assert (Hcost : Z.of_nat (length t'') <=
            1 + 9 * (get (CSR.row_ptr X) (i + 1) - get (CSR.row_ptr X) i) +
            3 * (get (CCS.col_ptr Y) (j + 1) - get (CCS.col_ptr Y) j)).
  { edestruct (dot_product_cost i j) as (t3 & Ht3 & Hlen3);
      [exact Hi|exact Hj| | |rewrite Heq in Ht3];
      [reflexivity|reflexivity|].
    cbn [snd] in Ht3. apply logs_inj in Ht3. by rewrite Ht3. }
  assert (Hld0 : Forall (load_ok X Y) [Load Y_col_ptr j; Load X_row_ptr i]).
  { each_event; apply load_ok_in;
      [apply (wf_ptr_in_bounds HY)|apply (wf_ptr_in_bounds HX)]; lia. }
  cbn [logs fst snd].
  rewrite cells_upto_S, row_cols_S by lia.
  case_decide as Hnz.
  - unfold ret.
    cbn [store set_cells cells log logs fst snd stk_val stk_col_ind
           stk_row_ptr opX opY resZ trace].
    exists (wr sv (Z.of_nat (length (cells_upto X Y i j))) (dot X Y i j)),
      (wr sc (Z.of_nat (length (cells_upto X Y i j))) j),
      ([Load Y_col_ptr j; Load X_row_ptr i] ++ t'' ++
       [Store z_val (Z.of_nat (length (cells_upto X Y i j))) (dot X Y i j);
        Store z_col_ind (Z.of_nat (length (cells_upto X Y i j))) j]).
    split; [|split; [|split; [|split; [|split; [|split]]]]].
    + rewrite !length_app. cbn [length app]. rewrite <- !app_assoc.
      rewrite !Nat2Z.inj_add. reflexivity.
    + split; [by rewrite length_wr|]. split; [by rewrite length_wr|].
      rewrite !length_app, !fmap_app. cbn [length].
      rewrite !Nat.add_1_r. rewrite !take_S_wr by lia.
      by rewrite Hv, Hc.
    + intros nnz. repeat (apply Forall_app; split);
        try (by apply is_load_ok); repeat constructor; cbn; lia.
    + intros Hne. specialize (Hcur Hne).
      rewrite !elem_of_app. auto.
    + apply Forall_cons_1 in Hld0 as [? [? _]%Forall_cons_1].
      each_event; done.
    + apply emits_cell;
        rewrite !stores_to_app, (stores_to_loads _ t'') by done;
        reflexivity.
    + rewrite !length_app. cbn [length]. lia.
  - unfold ret. rewrite !app_nil_r.
    exists sv, sc, ([Load Y_col_ptr j; Load X_row_ptr i] ++ t'').
    split; [|split; [|split; [|split; [|split; [|split]]]]].
    + cbn [app]. by rewrite <- !app_assoc.
    + done.
    + intros nnz. repeat (apply Forall_app; split);
        try (by apply is_load_ok); repeat constructor.
    + intros Hne. specialize (Hcur Hne).
      rewrite !elem_of_app. auto.
    + apply Forall_cons_1 in Hld0 as [? [? _]%Forall_cons_1].
      each_event; done.
    + apply emits_other;
        by rewrite !stores_to_app, (stores_to_loads _ t'') by done.
    + rewrite !length_app. cbn [length]. lia.
Qed.

Lemma cells_upto_0 i : cells_upto X Y i 0 = cells_before X Y i.
Proof. unfold cells_upto. rewrite row_cols_0. apply app_nil_r. Qed.

Lemma cells_upto_all i : 0 <= i -> cells_upto X Y i cols = cells_before X Y (i + 1).
Proof. intros. by rewrite cells_before_S. Qed.

(** The loop over the columns, for row [i]. *)
Lemma col_loop_spec i sv sc sr z t :
  0 <= i < rows ->
  stack_inv X Y (cells_before X Y i) sv sc ->
  exists sv' sc' t',
    for_each 0 cols (col_body junk i)
      (Z.of_nat (length (cells_before X Y i)), 0)
      (mkmem X Y sv sc sr z t) =
    ((Z.of_nat (length (cells_before X Y (i + 1))),
      Z.of_nat (length (row_cols X Y i cols))),
     mkmem X Y sv' sc' sr z (t ++ t')) /\
    stack_inv X Y (cells_before X Y (i + 1)) sv' sc' /\
    (forall nnz, Forall (event_ok rows cols nnz) t') /\
    (forall j, 0 <= j < cols -> cursor_read X Y i j t') /\
    Forall (load_ok X Y) t' /\
    emits X Y (cells_before X Y i) (cells_before X Y (i + 1)) t' /\
    Z.of_nat (length t') <=
      (5 + 9 * (get (CSR.row_ptr X) (i + 1) - get (CSR.row_ptr X) i)) * cols +
      3 * Z.of_nat (length (CCS.val Y)).
Proof.
  intros Hi Hinv. unfold for_each.
  pose proof HY as (_ & _ & _ & Hp0 & _ & Hpn & _).
  cbn [CCS.val CCS.col_ptr CCS.num_cols] in Hp0, Hpn.
  rewrite <- Hpn.
  rewrite <- cells_upto_all by lia.
  apply (for_loop_inv
           (fun j sm =>
              exists sv' sc' t',
                sm = ((Z.of_nat (length (cells_upto X Y i j)),
                       Z.of_nat (length (row_cols X Y i j))),
                      mkmem X Y sv' sc' sr z (t ++ t')) /\
                stack_inv X Y (cells_upto X Y i j) sv' sc' /\
                (forall nnz, Forall (event_ok rows cols nnz) t') /\
                (forall j', 0 <= j' < j -> cursor_read X Y i j' t') /\
                Forall (load_ok X Y) t' /\
                emits X Y (cells_before X Y i) (cells_upto X Y i j) t' /\
                Z.of_nat (length t') <=
                  (5 + 9 * (get (CSR.row_ptr X) (i + 1) -
                            get (CSR.row_ptr X) i)) * j +
                  3 * get (CCS.col_ptr Y) j)).
  - apply cols_nonneg.
  - exists sv, sc, []. rewrite cells_upto_0, app_nil_r.
    split; [done|]. split; [done|]. split; [by constructor|].
    split; [intros; lia|]. split; [by constructor|].
    split; [apply emits_refl|]. simpl. lia.
  - intros j sm Hj
      (sv' & sc' & t' & -> & Hinv' & Hok & Hcur & Hld & Hem & Hcost).
    cbn [fst snd].
    destruct (col_body_spec i j sv' sc' sr z (t ++ t') Hi ltac:(lia) Hinv')
      as (sv'' & sc'' & t'' & -> & Hinv'' & Hok' & Hcur' & Hld' & Hem'
          & Hcost').
    exists sv'', sc'', (t' ++ t''). rewrite app_assoc.
    split; [done|]. split; [done|].
    split; [intros nnz; apply Forall_app; auto|].
    split; [|split; [by apply Forall_app|split]].
    + intros j' Hj' Hne. apply elem_of_app.
      destruct (decide (j' = j)) as [->|]; [right; by apply Hcur'|].
      left. apply (Hcur j'); [lia|done].
    + by eapply emits_trans.
    + rewrite length_app. lia.
Qed.

Lemma row_body_spec i sv sc sr z t :
  0 <= i < rows ->
  stack_inv X Y (cells_before X Y i) sv sc ->
  ptr_inv X Y i sr ->
  exists sv' sc' sr' t',
    row_body junk cols i (Z.of_nat (length (cells_before X Y i)))
      (mkmem X Y sv sc sr z t) =
    (Z.of_nat (length (cells_before X Y (i + 1))),
     mkmem X Y sv' sc' sr' z (t ++ t')) /\
    stack_inv X Y (cells_before X Y (i + 1)) sv' sc' /\
    ptr_inv X Y (i + 1) sr' /\
    (forall nnz, Forall (event_ok rows cols nnz) t') /\
    (forall j, 0 <= j < cols -> cursor_read X Y i j t') /\
    Forall (load_ok X Y) t' /\
    emits X Y (cells_before X Y i) (cells_before X Y (i + 1)) t' /\
    Z.of_nat (length t') <=
      (5 + 9 * (get (CSR.row_ptr X) (i + 1) - get (CSR.row_ptr X) i)) * cols +
      3 * Z.of_nat (length (CCS.val Y)) + 2.
Proof.
  intros Hi Hinv (Hlen & Hptr). unfold row_body, bind.
  destruct (col_loop_spec i sv sc sr z t Hi Hinv)
    as (sv' & sc' & t' & -> & Hinv' & Hok & Hcur & Hld & Hem & Hcost).
  unfold ret.
  cbn [load store set_cells cells log logs fst snd stk_val stk_col_ind
         stk_row_ptr opX opY resZ trace].
  assert (peek junk z_row_ptr i (mkmem X Y sv' sc' sr z (t ++ t'))
          = Z.of_nat (length (cells_before X Y i))) as ->.
  { rewrite peek_in_bounds; [apply Hptr; lia|]. unfold in_bounds. simpl. lia. }
  exists sv', sc',
    (wr sr (i + 1)
       (Z.of_nat (length (cells_before X Y i)) +
        Z.of_nat (length (row_cols X Y i cols)))),
    (t' ++
     [Load z_row_ptr i;
      Store z_row_ptr (i + 1)
        (Z.of_nat (length (cells_before X Y i)) +
         Z.of_nat (length (row_cols X Y i cols)))]).
  split; [cbn [app]; by rewrite <- !app_assoc|].
  split; [done|]. split; [|split; [|split; [|split; [|split]]]].
  - split; [by rewrite length_wr|]. intros i' Hi'.
    destruct (decide (i' = i + 1)) as [->|Hne].
    + rewrite get_wr_eq by (unfold in_bounds; lia).
      rewrite cells_before_S by lia. rewrite length_app, length_fmap.
      lia.
    + rewrite get_wr_ne by lia. apply Hptr. lia.
  - intros nnz. repeat (apply Forall_app; split); [auto|..];
      repeat constructor; cbn; lia.
  - intros j Hj Hne. apply elem_of_app. left. by apply Hcur.
  - each_event; [done| |done]. apply load_ok_in. simpl. lia.
  - eapply emits_trans; [exact Hem|]. by apply emits_other.
  - rewrite length_app. cbn [length]. lia.
Qed.

(** The loop over the rows. *)
Lemma row_loop_spec sv sc sr z t :
  stack_inv X Y [] sv sc ->
  ptr_inv X Y 0 sr ->
  exists sv' sc' sr' t',
    for_each 0 rows (row_body junk cols) 0 (mkmem X Y sv sc sr z t) =
    (Z.of_nat (length (cells_before X Y rows)),
     mkmem X Y sv' sc' sr' z (t ++ t')) /\
    stack_inv X Y (cells_before X Y rows) sv' sc' /\
    ptr_inv X Y rows sr' /\
    (forall nnz, Forall (event_ok rows cols nnz) t') /\
    (forall i j, 0 <= i < rows -> 0 <= j < cols -> cursor_read X Y i j t') /\
    Forall (load_ok X Y) t' /\
    emits X Y [] (cells_before X Y rows) t' /\
    Z.of_nat (length t') <=
      (5 * cols + 3 * Z.of_nat (length (CCS.val Y)) + 2) * rows +
      9 * (cols * Z.of_nat (length (CSR.val X))).
Proof.
  intros Hinv Hptr. unfold for_each.
  pose proof HX as (_ & _ & _ & Hp0 & _ & Hpn & _).
  cbn [CSR.val CSR.row_ptr CSR.num_rows] in Hp0, Hpn.
  rewrite <- Hpn.
  pose proof cols_nonneg as Hcols.
  apply (for_loop_inv
           (fun i sm =>
              exists sv' sc' sr' t',
                sm = (Z.of_nat (length (cells_before X Y i)),
                      mkmem X Y sv' sc' sr' z (t ++ t')) /\
                stack_inv X Y (cells_before X Y i) sv' sc' /\
                ptr_inv X Y i sr' /\
                (forall nnz, Forall (event_ok rows cols nnz) t') /\
                (forall i' j, 0 <= i' < i -> 0 <= j < cols ->
                   cursor_read X Y i' j t') /\
                Forall (load_ok X Y) t' /\
                emits X Y [] (cells_before X Y i) t' /\
                Z.of_nat (length t') <=
                  (5 * cols + 3 * Z.of_nat (length (CCS.val Y)) + 2) * i +
                  9 * (cols * get (CSR.row_ptr X) i))).
  - apply rows_nonneg.
  - exists sv, sc, sr, []. rewrite app_nil_r.
    split; [done|]. split; [done|]. split; [done|].
    split; [by constructor|]. split; [intros; lia|].
    split; [by constructor|]. split; [apply emits_refl|].
    simpl. rewrite Hp0. lia.
  - intros i sm Hi
      (sv' & sc' & sr' & t' & -> & Hinv' & Hptr' & Hok & Hcur & Hld & Hem
       & Hcost).
    cbn [fst snd].
    destruct (row_body_spec i sv' sc' sr' z (t ++ t') Hi Hinv' Hptr')
      as (sv'' & sc'' & sr'' & t'' & -> & Hinv'' & Hptr'' & Hok' & Hcur'
          & Hld' & Hem' & Hcost').
    exists sv'', sc'', sr'', (t' ++ t''). rewrite app_assoc.
    split; [done|]. split; [done|]. split; [done|].
    split; [intros nnz; apply Forall_app; auto|].
    split; [|split; [by apply Forall_app|split]].
    + intros i' j Hi' Hj Hne. apply elem_of_app.
      destruct (decide (i' = i)) as [->|]; [right; by apply Hcur'|].
      left. apply (Hcur i' j); [lia|done|done].
    + by eapply emits_trans.
    + rewrite length_app. nia.
Qed.

Lemma ptr_inv_all sr :
  ptr_inv X Y rows sr ->
  sr = (fun i => Z.of_nat (length (cells_before X Y i))) <$> seqZ 0 (rows + 1).
Proof.
  intros (Hlen & Hptr). apply list_eq. intros n.
  destruct (decide (n < length sr)%nat) as [Hn|Hn].
  - rewrite lookup_get by done. rewrite Hptr by lia.
    rewrite list_lookup_fmap, lookup_seqZ_lt by lia. simpl. do 3 f_equal.
  - rewrite lookup_ge_None_2 by lia. symmetry. apply lookup_ge_None_2.
    rewrite length_fmap, length_seqZ. lia.
Qed.

(** The loop that copies the entries into the result. *)
Lemma copy_entries_spec nnz sv sc sr zv zc zr t :
  0 <= nnz <= Z.of_nat (length sv) -> nnz <= Z.of_nat (length sc) ->
  Z.of_nat (length zv) = nnz -> Z.of_nat (length zc) = nnz ->
  nnz <= rows * cols ->
  exists t',
    for_each 0 nnz
      (fun i (_ : unit) =>
         v <- load junk z_val i ;; store Z_val i v ;;;
         c <- load junk z_col_ind i ;; store Z_col_ind i c) tt
      (mkmem X Y sv sc sr (CSR.mk zv zc zr rows cols) t) =
    (tt, mkmem X Y sv sc sr
           (CSR.mk (take (Z.to_nat nnz) sv) (take (Z.to_nat nnz) sc) zr
              rows cols) (t ++ t')) /\
    Forall (event_ok rows cols nnz) t' /\
    Forall (load_ok X Y) t' /\
    stores_to Z_val t' = numbered (take (Z.to_nat nnz) sv) /\
    stores_to Z_col_ind t' = numbered (take (Z.to_nat nnz) sc) /\
    stores_to z_val t' = [] /\ stores_to z_col_ind t' = [] /\
    Z.of_nat (length t') <= 4 * nnz.
Proof.
  intros Hsv Hsc Hzv Hzc Hnnz. unfold for_each.
  cut (exists zv' zc' t',
          for_loop 0 nnz
            (fun i (sm : unit * memory) =>
               (v <- load junk z_val i ;; store Z_val i v ;;;
                c <- load junk z_col_ind i ;; store Z_col_ind i c)
                 (snd sm))
            (tt, mkmem X Y sv sc sr (CSR.mk zv zc zr rows cols) t) =
          (tt, mkmem X Y sv sc sr (CSR.mk zv' zc' zr rows cols) (t ++ t')) /\
          (Z.of_nat (length zv') = nnz /\ Z.of_nat (length zc') = nnz /\
           take (Z.to_nat nnz) zv' = take (Z.to_nat nnz) sv /\
           take (Z.to_nat nnz) zc' = take (Z.to_nat nnz) sc) /\
          Forall (event_ok rows cols nnz) t' /\
          Forall (load_ok X Y) t' /\
          stores_to Z_val t' = numbered (take (Z.to_nat nnz) sv) /\
          stores_to Z_col_ind t' = numbered (take (Z.to_nat nnz) sc) /\
          stores_to z_val t' = [] /\ stores_to z_col_ind t' = [] /\
          Z.of_nat (length t') <= 4 * nnz).
  { intros (zv' & zc' & t' & -> & (Hlv & Hlc & Hv & Hc) & Hok).
    exists t'. split; [|done].
    rewrite <- Hv, <- Hc. rewrite !take_ge by lia. reflexivity. }
  apply (for_loop_inv
           (fun k sm =>
              exists zv' zc' t',
                sm = (tt, mkmem X Y sv sc sr (CSR.mk zv' zc' zr rows cols)
                            (t ++ t')) /\
                (Z.of_nat (length zv') = nnz /\ Z.of_nat (length zc') = nnz /\
                 take (Z.to_nat k) zv' = take (Z.to_nat k) sv /\
                 take (Z.to_nat k) zc' = take (Z.to_nat k) sc) /\
                Forall (event_ok rows cols nnz) t' /\
                Forall (load_ok X Y) t' /\
                stores_to Z_val t' = numbered (take (Z.to_nat k) sv) /\
                stores_to Z_col_ind t' = numbered (take (Z.to_nat k) sc) /\
                stores_to z_val t' = [] /\ stores_to z_col_ind t' = [] /\
                Z.of_nat (length t') <= 4 * k)).
  - lia.
  - exists zv, zc, []. rewrite app_nil_r. repeat split; auto. simpl. lia.
  - intros k sm Hk
      (zv' & zc' & t' & -> & (Hlv & Hlc & Hv & Hc) & Hok & Hld & HsV & HsC
       & HsV0 & HsC0 & Hcost).
    unfold bind.
    cbn [load store set_cells cells log logs fst snd stk_val stk_col_ind
           stk_row_ptr opX opY resZ trace CSR.val CSR.col_ind CSR.row_ptr
           CSR.num_rows CSR.num_cols].
    rewrite !peek_in_bounds by (unfold in_bounds; simpl; lia).
    unfold store.
    cbn [load set_cells cells log logs fst snd stk_val stk_col_ind
           stk_row_ptr opX opY resZ trace CSR.val CSR.col_ind CSR.row_ptr
           CSR.num_rows CSR.num_cols].
    exists (wr zv' k (get sv k)), (wr zc' k (get sc k)),
      (t' ++ [Load z_val k; Store Z_val k (get sv k);
              Load z_col_ind k; Store Z_col_ind k (get sc k)]).
    split; [cbn [app]; by rewrite <- !app_assoc|].
    assert (Hsvk : sv !! Z.to_nat k = Some (get sv k))
      by (rewrite lookup_get by lia; by rewrite Z2Nat.id by lia).
    assert (Hsck : sc !! Z.to_nat k = Some (get sc k))
      by (rewrite lookup_get by lia; by rewrite Z2Nat.id by lia).
    replace (Z.to_nat (k + 1)) with (S (Z.to_nat k)) by lia.
    split; [|split; [|split; [|split; [|split; [|split; [|split]]]]]].
    + rewrite !length_wr. split; [done|]. split; [done|].
      replace (S (Z.to_nat k)) with (Z.to_nat (k + 1)) by lia.
      split; apply copy_step; (lia || done).
    + repeat (apply Forall_app; split); [done|..];
        repeat constructor; cbn; lia.
    + each_event; try done; apply load_ok_in; simpl; lia.
    + rewrite stores_to_app, HsV, (take_S_r _ _ _ Hsvk), numbered_snoc.
      rewrite length_take_le by lia. cbn. by rewrite Z2Nat.id by lia.
    + rewrite stores_to_app, HsC, (take_S_r _ _ _ Hsck), numbered_snoc.
      rewrite length_take_le by lia. cbn. by rewrite Z2Nat.id by lia.
    + rewrite stores_to_app, HsV0. reflexivity.
    + rewrite stores_to_app, HsC0. reflexivity.
    + rewrite length_app. cbn [length]. lia.
Qed.

(** The loop that copies the row pointers. *)
Lemma copy_ptr_spec nnz sv sc sr zv zc zr t :
  0 <= rows + 1 <= Z.of_nat (length sr) ->
  Z.of_nat (length zr) = rows + 1 ->
  exists t',
    for_each 0 (rows + 1)
      (fun i (_ : unit) =>
         p <- load junk z_row_ptr i ;; store Z_row_ptr i p) tt
      (mkmem X Y sv sc sr (CSR.mk zv zc zr rows cols) t) =
    (tt, mkmem X Y sv sc sr
           (CSR.mk zv zc (take (Z.to_nat (rows + 1)) sr) rows cols)
           (t ++ t')) /\
    Forall (event_ok rows cols nnz) t' /\
    Forall (load_ok X Y) t' /\
    (forall a, a <> Z_row_ptr -> stores_to a t' = []) /\
    Z.of_nat (length t') <= 2 * (rows + 1).
Proof.
  intros Hsr Hzr. unfold for_each.
  cut (exists zr' t',
          for_loop 0 (rows + 1)
            (fun i (sm : unit * memory) =>
               (p <- load junk z_row_ptr i ;; store Z_row_ptr i p) (snd sm))
            (tt, mkmem X Y sv sc sr (CSR.mk zv zc zr rows cols) t) =
          (tt, mkmem X Y sv sc sr (CSR.mk zv zc zr' rows cols) (t ++ t')) /\
          (Z.of_nat (length zr') = rows + 1 /\
           take (Z.to_nat (rows + 1)) zr' = take (Z.to_nat (rows + 1)) sr) /\
          Forall (event_ok rows cols nnz) t' /\
          Forall (load_ok X Y) t' /\
          (forall a, a <> Z_row_ptr -> stores_to a t' = []) /\
          Z.of_nat (length t') <= 2 * (rows + 1)).
  { intros (zr' & t' & -> & (Hlr & Hr) & Hok).
    exists t'. split; [|done].
    rewrite <- Hr. rewrite !take_ge by lia. reflexivity. }
  apply (for_loop_inv
           (fun k sm =>
              exists zr' t',
                sm = (tt, mkmem X Y sv sc sr (CSR.mk zv zc zr' rows cols)
                            (t ++ t')) /\
                (Z.of_nat (length zr') = rows + 1 /\
                 take (Z.to_nat k) zr' = take (Z.to_nat k) sr) /\
                Forall (event_ok rows cols nnz) t' /\
                Forall (load_ok X Y) t' /\
                (forall a, a <> Z_row_ptr -> stores_to a t' = []) /\
                Z.of_nat (length t') <= 2 * k)).
  - lia.
  - exists zr, []. rewrite app_nil_r. repeat split; auto. simpl. lia.
  - intros k sm Hk (zr' & t' & -> & (Hlr & Hr) & Hok & Hld & Hst & Hcost).
    unfold bind.
    cbn [load store set_cells cells log logs fst snd stk_val stk_col_ind
           stk_row_ptr opX opY resZ trace CSR.val CSR.col_ind CSR.row_ptr
           CSR.num_rows CSR.num_cols].
    rewrite !peek_in_bounds by (unfold in_bounds; simpl; lia).
    unfold store.
    cbn [load set_cells cells log logs fst snd stk_val stk_col_ind
           stk_row_ptr opX opY resZ trace CSR.val CSR.col_ind CSR.row_ptr
           CSR.num_rows CSR.num_cols].
    exists (wr zr' k (get sr k)),
      (t' ++ [Load z_row_ptr k; Store Z_row_ptr k (get sr k)]).
    split; [cbn [app]; by rewrite <- !app_assoc|].
    split; [|split; [|split; [|split]]].
    + rewrite !length_wr. split; [done|]. apply copy_step; (lia || done).
    + repeat (apply Forall_app; split); [done|..];
        repeat constructor; cbn; lia.
    + each_event; try done; apply load_ok_in; simpl; lia.
    + intros a Ha. rewrite stores_to_app, (Hst a Ha). cbn.
      by rewrite decide_False by (by intros <-).
    + rewrite length_app. cbn [length]. lia.
Qed.

Lemma length_fresh a n : 0 <= n -> Z.of_nat (length (fresh junk a n)) = n.
Proof. intros. unfold fresh. rewrite length_fmap, length_seqZ. lia. Qed.

Variables (stack_cells : Z) (grants : nat -> Z -> bool).
Hypothesis Hfit : stack_holds stack_cells rows cols.

(** [init_CSR_matrix]: the whole matrix, or an exit at the first refusal
    of [malloc], with the arrays allocated until then. *)
Lemma init_CSR_matrix_spec num_val num_rows num_cols x y sv sc sr z t :
  (all_granted grants num_val num_rows = true /\
   init_CSR_matrix junk grants num_val num_rows num_cols
     (mkmem x y sv sc sr z t) =
   (true,
    mkmem x y sv sc sr
      (CSR.mk (fresh junk Z_val num_val) (fresh junk Z_col_ind num_val)
         (fresh junk Z_row_ptr (num_rows + 1)) num_rows num_cols)
      (t ++ [Alloc Z_val num_val; Alloc Z_col_ind num_val;
             Alloc Z_row_ptr (num_rows + 1)]))) \/
  (all_granted grants num_val num_rows = false /\
   exists z' t',
     init_CSR_matrix junk grants num_val num_rows num_cols
       (mkmem x y sv sc sr z t) =
     (false,
      mkmem x y sv sc sr z'
        (t ++ t' ++ [Stderr "Malloc"; Exit EXIT_FAILURE])) /\
     t' `prefix_of` [Alloc Z_val num_val; Alloc Z_col_ind num_val]).
Proof.
  unfold all_granted, init_CSR_matrix, Malloc_array, Malloc, declare,
    set_dims, bind, ret.
  destruct z as [zv zc zr zrows zcols].
  destruct (grants 0%nat 5); cbn [fst snd andb log logs set_cells];
    [|right; split; [done|]; eexists _, []; split;
      [by rewrite <- !app_assoc|by apply prefix_nil]].
  destruct (grants 1%nat num_val); cbn [fst snd andb log logs set_cells];
    [|right; split; [done|]; eexists _, []; split;
      [by rewrite <- !app_assoc|by apply prefix_nil]].
  destruct (grants 2%nat num_val); cbn [fst snd andb log logs set_cells];
    [|right; split; [done|]; eexists _, [Alloc Z_val num_val]; split;
      [by rewrite <- !app_assoc|by eexists]].
  destruct (grants 3%nat (num_rows + 1));
    cbn [fst snd andb log logs set_cells CSR.val CSR.col_ind CSR.row_ptr].
  - left. split; [done|]. by rewrite <- !app_assoc.
  - right. split; [done|].
    eexists _, [Alloc Z_val num_val; Alloc Z_col_ind num_val].
    split; [by rewrite <- !app_assoc|done].
Qed.

(** What a call does when the stack holds the three arrays: the loops
    fill the stack buffers with the entries of [product X Y]; then
    [malloc] fails and the process exits, or the entries are copied and the
    matrix is returned. *)
Lemma run_spec :
  let nnz := Z.of_nat (length (cells_before X Y rows)) in
  exists sv sc sr t,
    stack_inv X Y (cells_before X Y rows) sv sc /\
    ptr_inv X Y rows sr /\
    (forall n, Forall (event_ok rows cols n) t) /\
    (forall i j, 0 <= i < rows -> 0 <= j < cols -> cursor_read X Y i j t) /\
    Forall (load_ok X Y) t /\
    emits X Y [] (cells_before X Y rows) t /\
    ((all_granted grants nnz rows = true /\
      exists t',
        run junk stack_cells grants X Y =
          (Returned (product X Y),
           mkmem X Y sv sc sr (product X Y) (t ++ t')) /\
        Forall (event_ok rows cols nnz) t' /\
        Forall (load_ok X Y) t' /\
        stores_to Z_val t' = numbered (CSR.val (product X Y)) /\
        stores_to Z_col_ind t' = numbered (CSR.col_ind (product X Y)) /\
        stores_to z_val t' = [] /\ stores_to z_col_ind t' = [] /\
        Z.of_nat (length (t ++ t')) <= cost_bound X Y) \/
     (all_granted grants nnz rows = false /\
      exists z t',
        run junk stack_cells grants X Y =
          (Exited EXIT_FAILURE,
           mkmem X Y sv sc sr z
             (t ++ t' ++ [Stderr "Malloc"; Exit EXIT_FAILURE])) /\
        t' `prefix_of` [Alloc Z_val nnz; Alloc Z_col_ind nnz] /\
        Z.of_nat (length (t ++ t' ++ [Stderr "Malloc"; Exit EXIT_FAILURE]))
        <= cost_bound X Y)).
Proof.
  intros nnz.
  pose proof rows_nonneg as Hr. pose proof cols_nonneg as Hc.
  pose proof Hfit as (Hsize & Hptrs & Hroom).
  unfold run, sparse_matrix_multiply, start. cbn [opX opY].
  rewrite decide_False by (intros Hne; by apply Hne).
  rewrite decide_True by exact Hfit.
  unfold bind, declare, store.
  cbn [set_cells cells log logs fst snd stk_val stk_col_ind
         stk_row_ptr opX opY resZ trace].
  edestruct (row_loop_spec (fresh junk z_val (rows * cols))
               (fresh junk z_col_ind (rows * cols))
               (wr (fresh junk z_row_ptr (rows + 1)) 0 0))
    as (sv & sc & sr & t & -> & Hinv & Hptr & Hok & Hcur & Hld & Hem & Hcost).
  { split; [apply length_fresh; lia|]. split; [apply length_fresh; lia|].
    done. }
  { split; [rewrite length_wr; apply length_fresh; lia|].
    intros i' Hi'. assert (i' = 0) as -> by lia.
    rewrite get_wr_eq; [done|]. unfold in_bounds.
    rewrite length_fresh by lia. lia. }
  cbn [fst snd]. fold nnz.
  set (t0 := [Alloc z_val (rows * cols); Alloc z_col_ind (rows * cols);
              Alloc z_row_ptr (rows + 1); Store z_row_ptr 0 0]).
  exists sv, sc, sr, (t0 ++ t).
  split; [exact Hinv|]. split; [exact Hptr|].
  assert (Hnnz : nnz <= rows * cols).
  { pose proof (cells_before_length X Y rows Hr Hc). unfold nnz. lia. }
  split.
  { intros n. apply Forall_app. split; [|by apply Hok].
    unfold t0. repeat constructor; cbn; lia. }
  split.
  { intros i j Hi' Hj' Hne. apply elem_of_app. right.
    exact (Hcur i j Hi' Hj' Hne). }
  split.
  { apply Forall_app. split; [|done]. unfold t0. by repeat constructor. }
  split.
  { change [] with ([] ++ [] : list (Z * Z)).
    apply (emits_trans X Y [] [] _ t0 t); [by apply emits_other|done]. }
  destruct Hinv as (Hlv & Hlc & Hv & Hcc). destruct Hptr as (Hlr & Hptr).
  edestruct (init_CSR_matrix_spec nnz rows cols X Y sv sc sr
               (CSR.mk [] [] [] 0 0))
    as [[Hg ->]|(Hg & z' & t' & -> & Hpre)]; cbn [fst snd]; [left|right];
    (split; [exact Hg|]).
  - edestruct (copy_entries_spec nnz sv sc sr (fresh junk Z_val nnz)
                 (fresh junk Z_col_ind nnz) (fresh junk Z_row_ptr (rows + 1)))
      as (t1 & -> & Hok1 & Hld1 & HsV & HsC & HsV0 & HsC0 & Hcost1);
      [lia|lia|apply length_fresh; lia|apply length_fresh; lia|lia|].
    cbn [fst snd].
    edestruct (copy_ptr_spec nnz sv sc sr) as (t2 & -> & Hok2 & Hld2 & Hst2
                                                & Hcost2);
      [lia|apply length_fresh; lia|].
    cbn [fst snd resZ].
    assert (Hprod : CSR.mk (take (Z.to_nat nnz) sv) (take (Z.to_nat nnz) sc)
                      (take (Z.to_nat (rows + 1)) sr) rows cols = product X Y).
    { unfold product, nnz. rewrite Nat2Z.id, Hv, Hcc.
      rewrite take_ge by lia.
      rewrite <- (ptr_inv_all sr); [reflexivity|]. by split. }
    rewrite Hprod.
    exists ([Alloc Z_val nnz; Alloc Z_col_ind nnz;
             Alloc Z_row_ptr (rows + 1)] ++ t1 ++ t2).
    split; [unfold t0; cbn [app]; by rewrite <- !app_assoc|].
    assert (Hval : CSR.val (product X Y) = take (Z.to_nat nnz) sv)
      by (by rewrite <- Hprod).
    assert (Hind : CSR.col_ind (product X Y) = take (Z.to_nat nnz) sc)
      by (by rewrite <- Hprod).
    split; [|split; [|split; [|split; [|split; [|split]]]]].
    + each_event; try done; cbn; lia.
    + each_event; done.
    + rewrite !stores_to_app, HsV, (Hst2 Z_val) by done.
      rewrite Hval. cbn. by rewrite app_nil_r.
    + rewrite !stores_to_app, HsC, (Hst2 Z_col_ind) by done.
      rewrite Hind. cbn. by rewrite app_nil_r.
    + rewrite !stores_to_app, HsV0, (Hst2 z_val) by done. reflexivity.
    + rewrite !stores_to_app, HsC0, (Hst2 z_col_ind) by done. reflexivity.
    + rewrite !length_app. unfold t0, cost_bound. cbn [length]. nia.
  - exists z', t'. split; [reflexivity|].
    split; [exact Hpre|].
    apply prefix_length in Hpre. cbn [length] in Hpre.
    rewrite !length_app. unfold t0, cost_bound. cbn [length]. nia.
Qed.

End Multiply.

End Verification.

(** ** The sparse product against the dense one *)

Lemma tabulate_ext r c f g :
  (forall i j, 0 <= i < r -> 0 <= j < c -> f i j = g i j) ->
  tabulate r c f = tabulate r c g.
Proof.
  intros Hfg. unfold tabulate.
  apply list_fmap_ext. intros n i Hi%lookup_seqZ.
  apply list_fmap_ext. intros k j Hj%lookup_seqZ.
  apply Hfg; lia.
Qed.



(** * The properties of the specification *)

(** No store goes to a buffer that has no cell. *)
Lemma stores_to_outside rows cols a t :
  size_of rows cols 0 a = 0 ->
  Forall (event_ok rows cols 0) t -> stores_to a t = [].
Proof.
  intros Hs. induction 1 as [|e t He _ IH]; [done|].
  destruct e as [b k|b k v|b n|msg|status]; try exact IH; try done.
  cbn. case_decide as Hb; [|exact IH].
  subst b. cbn in He. rewrite Hs in He. lia.
Qed.

(** What [init_CSR_matrix] leaves in the trace when [malloc] fails. *)
Lemma prefix_allocs n (t : list event) :
  t `prefix_of` [Alloc Z_val n; Alloc Z_col_ind n] ->
  t = [] \/ t = [Alloc Z_val n] \/ t = [Alloc Z_val n; Alloc Z_col_ind n].
Proof.
  intros [k Hk].
  destruct t as [|e1 [|e2 [|e3 t]]]; simplify_eq/=; auto.
Qed.

(** A summary of what a call on well-formed operands does when the stack
    holds the three arrays: what the loops leave in the stack buffers and in
    the trace, and then one of two ends. *)
Lemma run_summary junk stack_cells grants X Y :
  CSR_wf X -> CCS_wf Y -> CSR.num_cols X = CCS.num_rows Y ->
  stack_holds stack_cells (CSR.num_rows X) (CCS.num_cols Y) ->
  let P := product X Y in
  let nnz := Z.of_nat (length (CSR.val P)) in
  let ok := event_ok (CSR.num_rows X) (CCS.num_cols Y) nnz in
  exists sv sc sr t,
    Z.of_nat (length sv) = CSR.num_rows X * CCS.num_cols Y /\
    Z.of_nat (length sc) = CSR.num_rows X * CCS.num_cols Y /\
    take (length (CSR.val P)) sv = CSR.val P /\
    take (length (CSR.val P)) sc = CSR.col_ind P /\
    Forall ok t /\
    (forall i j, 0 <= i < CSR.num_rows X -> 0 <= j < CCS.num_cols Y ->
       get (CSR.row_ptr X) i < get (CSR.row_ptr X) (i + 1) ->
       Load Y_row_ind (get (CCS.col_ptr Y) j) ∈ t) /\
    Forall (load_ok X Y) t /\
    stores_to z_val t = numbered (CSR.val P) /\
    stores_to z_col_ind t = numbered (CSR.col_ind P) /\
    stores_to Z_val t = [] /\
    stores_to Z_col_ind t = [] /\
    ((all_granted grants nnz (CSR.num_rows X) = true /\
      exists t',
        run junk stack_cells grants X Y =
          (Returned P, mkmem X Y sv sc sr P (t ++ t')) /\
        Forall ok t' /\ Forall (load_ok X Y) t' /\
        stores_to Z_val t' = numbered (CSR.val P) /\
        stores_to Z_col_ind t' = numbered (CSR.col_ind P) /\
        stores_to z_val t' = [] /\ stores_to z_col_ind t' = [] /\
        Z.of_nat (length (t ++ t')) <= cost_bound X Y) \/
     (all_granted grants nnz (CSR.num_rows X) = false /\
      exists z t',
        run junk stack_cells grants X Y =
          (Exited EXIT_FAILURE,
           mkmem X Y sv sc sr z
             (t ++ t' ++ [Stderr "Malloc"; Exit EXIT_FAILURE])) /\
        t' `prefix_of` [Alloc Z_val nnz; Alloc Z_col_ind nnz] /\
        Z.of_nat (length (t ++ t' ++ [Stderr "Malloc"; Exit EXIT_FAILURE]))
        <= cost_bound X Y)).
Proof.
  intros HX HY Hdim Hfit P nnz ok.
  destruct (run_spec junk X Y HX HY Hdim stack_cells grants Hfit)
    as (sv & sc & sr & t & (Hlv & Hlc & Hv & Hc) & _ & Hok & Hcur & Hld
        & [Hev Hec] & Hend).
  assert (Hnnz : nnz = Z.of_nat (length (cells_before X Y (CSR.num_rows X)))).
  { unfold nnz, P, product. cbn [CSR.val]. by rewrite length_fmap. }
  rewrite <- Hnnz in Hend.
  assert (Hlen : length (CSR.val (product X Y)) =
                 length (cells_before X Y (CSR.num_rows X)))
    by (unfold product; cbn [CSR.val]; by rewrite length_fmap).
  exists sv, sc, sr, t. unfold P. rewrite Hlen.
  split; [exact Hlv|]. split; [exact Hlc|]. split; [exact Hv|].
  split; [exact Hc|].
  split; [apply Hok|]. split; [exact Hcur|]. split; [exact Hld|].
  split; [exact Hev|]. split; [exact Hec|].
  split; [exact (stores_to_outside _ _ Z_val t eq_refl (Hok 0))|].
  split; [exact (stores_to_outside _ _ Z_col_ind t eq_refl (Hok 0))|].
  exact Hend.
Qed.

(** The two ends of a call. *)
Lemma run_outcome junk stack_cells grants X Y :
  CSR_wf X -> CCS_wf Y -> CSR.num_cols X = CCS.num_rows Y ->
  stack_holds stack_cells (CSR.num_rows X) (CCS.num_cols Y) ->
  exits_with "Malloc" (run junk stack_cells grants X Y) \/
  exists m, run junk stack_cells grants X Y = (Returned (product X Y), m).
Proof.
  intros HX HY Hdim Hfit.
  destruct (run_summary junk stack_cells grants X Y HX HY Hdim Hfit)
    as (sv & sc & sr & t & _ & _ & _ & _ & _ & _ & _ & _ & _ & _ & _
        & [(_ & t' & -> & _)|(_ & z & t' & -> & _)]).
  - right. eauto.
  - left. split; [done|]. exists (t ++ t'). cbn [snd trace].
    by rewrite <- app_assoc.
Qed.

(** The call where memory is no concern returns the product. *)
Lemma call_spec junk X Y :
  CSR_wf X -> CCS_wf Y -> CSR.num_cols X = CCS.num_rows Y ->
  stack_holds INT_MAX (CSR.num_rows X) (CCS.num_cols Y) ->
  exists m,
    call junk X Y = (Returned (product X Y), m) /\
    (forall i j, 0 <= i < CSR.num_rows X -> 0 <= j < CCS.num_cols Y ->
       get (CSR.row_ptr X) i < get (CSR.row_ptr X) (i + 1) ->
       Load Y_row_ind (get (CCS.col_ptr Y) j) ∈ trace m).
Proof.
  intros HX HY Hdim Hfit. unfold call.
  destruct (run_summary junk INT_MAX (fun _ _ => true) X Y HX HY Hdim Hfit)
    as (sv & sc & sr & t & _ & _ & _ & _ & _ & Hcur & _ & _ & _ & _ & _
        & [(_ & t' & -> & _)|(Hg & _)]); [|discriminate Hg].
  eexists. split; [reflexivity|]. intros i j Hi Hj Hne. cbn [trace].
  apply elem_of_app. left. exact (Hcur i j Hi Hj Hne).
Qed.

(** The 1100 x 1100 operands on a stack of 8 MiB: the two larger arrays
    alone take 2420000 cells, and nothing is known of the run. *)
Lemma wide_operands :
  CSR_wf wide_X /\ CCS_wf wide_Y /\
  CSR.num_cols wide_X = CCS.num_rows wide_Y.
Proof.
  split; [apply (bool_decide_unpack _); vm_compute; exact I|].
  split; [apply (bool_decide_unpack _); vm_compute; exact I|].
  reflexivity.
Qed.

Lemma wide_run junk grants :
  run junk stack_8MiB grants wide_X wide_Y =
  (Undefined, start wide_X wide_Y).
Proof.
  unfold run, sparse_matrix_multiply.
  cbn [start opX opY wide_X wide_Y CSR.num_cols CSR.num_rows CCS.num_rows
         CCS.num_cols].
  rewrite decide_False by (intros Hne; by apply Hne).
  rewrite decide_False; [reflexivity|].
  unfold stack_holds, stack_8MiB. lia.
Qed.

(** The operands of [main] when [malloc] finds nothing. *)
Lemma main_without_memory junk :
  CSR_wf main_X /\ CCS_wf main_Y /\
  CSR.num_cols main_X = CCS.num_rows main_Y /\
  stack_holds stack_8MiB (CSR.num_rows main_X) (CCS.num_cols main_Y) /\
  fst (run junk stack_8MiB (fun _ _ => false) main_X main_Y) =
    Exited EXIT_FAILURE.
Proof.
  assert (HX : CSR_wf main_X)
    by (apply (bool_decide_unpack _); vm_compute; exact I).
  assert (HY : CCS_wf main_Y)
    by (apply (bool_decide_unpack _); vm_compute; exact I).
  assert (Hfit : stack_holds stack_8MiB (CSR.num_rows main_X)
                   (CCS.num_cols main_Y))
    by (apply (bool_decide_unpack _); vm_compute; exact I).
  split; [exact HX|]. split; [exact HY|]. split; [reflexivity|].
  split; [exact Hfit|].
  destruct (run_summary junk stack_8MiB (fun _ _ => false) main_X main_Y
              HX HY eq_refl Hfit)
    as (sv & sc & sr & t & _ & _ & _ & _ & _ & _ & _ & _ & _ & _ & _
        & [(Hg & _)|(_ & z & t' & -> & _)]); [discriminate Hg|reflexivity].
Qed.

(** ** C1 *)




(** ** C2 *)




(** ** C3 *)

(** On well-formed operands, for every row [i] of [X] that has an entry and
    every column [j] of [Y], the call reads [Y->row_ind] at the start of the
    column slice, be the slice empty or not. *)
Lemma cursor_reads_slice_start junk X Y i j :
  CSR_wf X -> CCS_wf Y -> CSR.num_cols X = CCS.num_rows Y ->
  stack_holds INT_MAX (CSR.num_rows X) (CCS.num_cols Y) ->
  0 <= i < CSR.num_rows X -> 0 <= j < CCS.num_cols Y ->
  get (CSR.row_ptr X) i < get (CSR.row_ptr X) (i + 1) ->
  Load Y_row_ind (get (CCS.col_ptr Y) j) ∈ trace (snd (call junk X Y)).
Proof.
  intros HX HY Hdim Hfit Hi Hj Hne.
  destruct (call_spec junk X Y HX HY Hdim Hfit) as (m & -> & Hcur).
  cbn [snd]. by apply (Hcur i j).
Qed.

(** C3 fails on the code: [gap_X] has one entry, the only column of [gap_Y]
    is empty and [gap_Y.row_ind] has no cell at all, yet the call reads
    [gap_Y.row_ind[0]], whatever the environment. *)
Theorem cursor_reads_past_row_ind junk :
  CSR_wf gap_X /\ CCS_wf gap_Y /\
  CSR.num_cols gap_X = CCS.num_rows gap_Y /\
  Load Y_row_ind 0 ∈ trace (snd (call junk gap_X gap_Y)) /\
  ~ in_bounds (CCS.row_ind gap_Y) 0.
Proof.
  assert (HX : CSR_wf gap_X)
    by (apply (bool_decide_unpack _); vm_compute; exact I).
  assert (HY : CCS_wf gap_Y)
    by (apply (bool_decide_unpack _); vm_compute; exact I).
  assert (Hfit : stack_holds INT_MAX (CSR.num_rows gap_X)
                   (CCS.num_cols gap_Y))
    by (apply (bool_decide_unpack _); vm_compute; exact I).
  split; [exact HX|]. split; [exact HY|]. split; [reflexivity|]. split.
  - apply (cursor_reads_slice_start junk gap_X gap_Y 0 0 HX HY);
      [reflexivity|exact Hfit|simpl; lia|simpl; lia|reflexivity].
  - unfold in_bounds. simpl. lia.
Qed.

(** ** C4 *)






(** ** C5 *)




(** ** C6 *)

(** When the dimensions match and the stack holds the three arrays, the
    call ends in one of two ways, whatever the operands hold. *)
Lemma run_matching junk stack_cells grants X Y :
  CSR.num_cols X = CCS.num_rows Y ->
  stack_holds stack_cells (CSR.num_rows X) (CCS.num_cols Y) ->
  exits_with "Malloc" (run junk stack_cells grants X Y) \/
  exists Z m, run junk stack_cells grants X Y = (Returned Z, m).
Proof.
  intros Hdim Hfit.
  destruct (run junk stack_cells grants X Y) as [o m] eqn:Hrun.
  revert Hrun. unfold run, sparse_matrix_multiply.
  cbn [start opX opY].
  rewrite decide_False by (intros Hne; by apply Hne).
  rewrite decide_True by exact Hfit.
  unfold bind at 1 2 3 4 5 6.
  cbn [declare store fst snd].
  match goal with
  | |- context [for_each 0 (CSR.num_rows X) ?body 0 ?m] =>
      destruct (for_each 0 (CSR.num_rows X) body 0 m)
        as [cnt [x y sv sc sr z t]]
  end.
  cbn [fst snd].
  destruct (init_CSR_matrix_spec junk grants cnt (CSR.num_rows X)
              (CCS.num_cols Y) x y sv sc sr z t)
    as [[_ Hi]|(_ & z' & t' & Hi & _)]; rewrite Hi; cbn [fst snd].
  - unfold bind. cbn [fst snd]. intros [= <- <-]. right. eauto.
  - unfold ret. intros [= <- <-]. left. split; [reflexivity|].
    exists (t ++ t'). cbn [snd trace]. by rewrite <- app_assoc.
Qed.

Lemma not_the_mismatch_message :
  Stderr "Malloc" <> Stderr mismatch_message.
Proof. intros [=]. Qed.

(** On the heap: the functions that [matrix_multiply] calls, and its
    loops, exit from [Malloc] or not at all. *)
Lemma heap_bind_exit {A B} (c : Heap.H A) (k : A -> Heap.H B) h :
  exit_is_from_Malloc (c h) ->
  (forall a h', exit_is_from_Malloc (k a h')) ->
  exit_is_from_Malloc (Heap.bind c k h).
Proof.
  intros Hc Hk. unfold Heap.bind.
  destruct (c h) as [a h'|status err|]; [apply Hk| |by intros ? ? [=]].
  intros status' err' [= <- <-]. by apply Hc.
Qed.

Lemma for_loop_keeps {S : Type} (P : S -> Prop) lo hi body (s : S) :
  P s -> (forall i s, P s -> P (body i s)) -> P (for_loop lo hi body s).
Proof.
  intros Hs Hstep. destruct (decide (lo <= hi)) as [Hle|Hgt].
  - apply (for_loop_inv (fun _ => P)); auto.
  - by rewrite for_loop_done by lia.
Qed.

Lemma heap_for_each_exit lo hi (body : Z -> Heap.H unit) h :
  (forall i h', exit_is_from_Malloc (body i h')) ->
  exit_is_from_Malloc (Heap.for_each lo hi body h).
Proof.
  intros Hb. unfold Heap.for_each.
  apply (for_loop_keeps exit_is_from_Malloc); [by intros ? ? [=]|].
  intros i [[] h'|status err|] Hr; [apply Hb|exact Hr|exact Hr].
Qed.

Lemma heap_for_state_exit {S : Type} lo hi (body : Z -> S -> Heap.H S) s h :
  (forall i s' h', exit_is_from_Malloc (body i s' h')) ->
  exit_is_from_Malloc (Heap.for_state lo hi body s h).
Proof.
  intros Hb. unfold Heap.for_state.
  apply (for_loop_keeps exit_is_from_Malloc); [by intros ? ? [=]|].
  intros i [s' h'|status err|] Hr; [apply Hb|exact Hr|exact Hr].
Qed.

Lemma heap_Malloc_exit grants n h :
  exit_is_from_Malloc (Heap.Malloc grants n h).
Proof.
  unfold Heap.Malloc. destruct (grants h n); [by intros ? ? [=]|].
  by intros ? ? [= <- <-].
Qed.

Lemma heap_load_exit b i h : exit_is_from_Malloc (Heap.load b i h).
Proof. unfold Heap.load. repeat case_match; by intros ? ? [=]. Qed.

Lemma heap_store_exit b i c h : exit_is_from_Malloc (Heap.store b i c h).
Proof. unfold Heap.store. repeat case_match; by intros ? ? [=]. Qed.

Lemma heap_load_ptr_exit b i h : exit_is_from_Malloc (Heap.load_ptr b i h).
Proof.
  apply heap_bind_exit; [apply heap_load_exit|].
  intros [] h'; by intros ? ? [=].
Qed.

Lemma heap_load2_exit R i j h : exit_is_from_Malloc (Heap.load2 R i j h).
Proof.
  apply heap_bind_exit; [apply heap_load_ptr_exit|].
  intros p h'. apply heap_bind_exit; [apply heap_load_exit|].
  intros [] h''; by intros ? ? [=].
Qed.

Lemma heap_store2_exit R i j v h :
  exit_is_from_Malloc (Heap.store2 R i j v h).
Proof.
  apply heap_bind_exit; [apply heap_load_ptr_exit|].
  intros p h'. apply heap_store_exit.
Qed.

Lemma heap_int_result_exit z h : exit_is_from_Malloc (Heap.int_result z h).
Proof. unfold Heap.int_result. case_decide; by intros ? ? [=]. Qed.

Lemma heap_init_2d_array_exit grants rows cols h :
  exit_is_from_Malloc (Heap.init_2d_array grants rows cols h).
Proof.
  apply heap_bind_exit; [apply heap_Malloc_exit|].
  intros R h'. apply heap_bind_exit; [|by intros ? ? ? ? [=]].
  apply heap_for_each_exit. intros i h''.
  apply heap_bind_exit; [apply heap_Malloc_exit|].
  intros p h3. apply heap_store_exit.
Qed.

Lemma heap_matrix_multiply_exit grants X Y x_rows x_cols y_cols h :
  exit_is_from_Malloc
    (Heap.matrix_multiply grants X Y x_rows x_cols x_cols y_cols h).
Proof.
  unfold Heap.matrix_multiply.
  rewrite decide_False by (intros Hne; by apply Hne).
  apply heap_bind_exit; [apply heap_init_2d_array_exit|].
  intros Z h1. apply heap_bind_exit; [|by intros ? ? ? ? [=]].
  apply heap_for_each_exit. intros i h2.
  apply heap_for_each_exit. intros j h3.
  apply heap_bind_exit; [|intros; apply heap_store2_exit].
  apply heap_for_state_exit. intros k d h4.
  apply heap_bind_exit; [apply heap_load2_exit|].
  intros a h5. apply heap_bind_exit; [apply heap_load2_exit|].
  intros b h6. apply heap_bind_exit; [apply heap_int_result_exit|].
  intros p h7. apply heap_int_result_exit.
Qed.

(** C6: whatever the operands, the call whose dimensions differ prints the
    message of the dimension test and exits with the failure status, the
    memory left as it was, without a load, a store or an allocation.  The
    call whose dimensions match has undefined behaviour (where the stack
    does not hold its three arrays), exits from [Malloc], with another
    message, or returns; so that a call whose behaviour is defined ends
    with the message of the test exactly when the dimensions differ.  The
    dense collaborator makes the same test first: it exits with the failure
    status when [x_cols] differs from [y_rows]; run on the heap it then
    ends with the message of the test, having allocated nothing, and
    otherwise its only exit is from [Malloc]. *)
Theorem dimension_mismatch_detected junk stack_cells grants junk2 heap_grants
    X Y A B DX DY xr xc yr yc h :
  let r := run junk stack_cells grants X Y in
  let d := Heap.matrix_multiply heap_grants DX DY xr xc yr yc h in
  (CSR.num_cols X <> CCS.num_rows Y ->
   r = (Exited EXIT_FAILURE,
        logs [Stderr mismatch_message; Exit EXIT_FAILURE] (start X Y))) /\
  (CSR.num_cols X = CCS.num_rows Y ->
   fst r = Undefined \/ exits_with "Malloc" r \/
   exists Z m, r = (Returned Z, m)) /\
  (fst r <> Undefined ->
   (exits_with mismatch_message r <-> CSR.num_cols X <> CCS.num_rows Y)) /\
  (xc <> yr ->
   matrix_multiply junk2 A B xr xc yr yc = Dense_exited EXIT_FAILURE) /\
  (xc <> yr -> d = Heap.Exited EXIT_FAILURE [mismatch_message]) /\
  (xc = yr -> exit_is_from_Malloc d) /\
  (d <> Heap.Fault ->
   (d = Heap.Exited EXIT_FAILURE [mismatch_message] <-> xc <> yr)).
Proof.
  intros r d.
  assert (Hexit : CSR.num_cols X <> CCS.num_rows Y ->
            r = (Exited EXIT_FAILURE,
                 logs [Stderr mismatch_message; Exit EXIT_FAILURE]
                   (start X Y))).
  { intros Hne. unfold r, run, sparse_matrix_multiply, start. cbn [opX opY].
    rewrite decide_True by done. reflexivity. }
  assert (Hmatch : CSR.num_cols X = CCS.num_rows Y ->
            fst r = Undefined \/ exits_with "Malloc" r \/
            exists Z m, r = (Returned Z, m)).
  { intros Heq.
    destruct (decide (stack_holds stack_cells (CSR.num_rows X)
                        (CCS.num_cols Y))) as [Hfit|Hfit].
    - right. apply (run_matching junk stack_cells grants X Y Heq Hfit).
    - left. unfold r, run, sparse_matrix_multiply. cbn [start opX opY].
      rewrite decide_False by (intros Hne; by apply Hne).
      by rewrite decide_False. }
  assert (Hheap : xc <> yr ->
            d = Heap.Exited EXIT_FAILURE [mismatch_message]).
  { intros Hne. unfold d, Heap.matrix_multiply. by rewrite decide_True. }
  split; [exact Hexit|]. split; [exact Hmatch|]. split; [|split; [|split]].
  - intros _. split.
    + intros [Hfst [t Ht]] Heq.
      destruct (Hmatch Heq) as [Hun|[[_ [t' Ht']]|(Z & m & Hrun)]].
      * by rewrite Hun in Hfst.
      * rewrite Ht' in Ht.
        change (t' ++ [Stderr "Malloc"; Exit EXIT_FAILURE])
          with (t' ++ [Stderr "Malloc"] ++ [Exit EXIT_FAILURE]) in Ht.
        change (t ++ [Stderr mismatch_message; Exit EXIT_FAILURE])
          with (t ++ [Stderr mismatch_message] ++ [Exit EXIT_FAILURE]) in Ht.
        rewrite !app_assoc in Ht.
        apply app_inj_tail in Ht as [Ht _].
        apply app_inj_tail in Ht as [_ Ht].
        by apply not_the_mismatch_message.
      * by rewrite Hrun in Hfst.
    + intros Hne. rewrite Hexit by done. split; [done|]. by exists [].
  - intros Hne. unfold matrix_multiply. by rewrite decide_True.
  - exact Hheap.
  - split.
    + intros ->. apply heap_matrix_multiply_exit.
    + intros _. split; [|exact Hheap].
      intros Hd Heq. subst yr.
      destruct (heap_matrix_multiply_exit heap_grants DX DY xr xc yc h
                  _ _ Hd) as [_ [=]].
Qed.

(** ** C7 *)




(** ** C8 *)

(** C8, as amended: on the operands of [main] the call returns a matrix
    whose dense form has [6 0 20 8 0 0] as its row 0 (the entry 20 is
    [X[0][3] * Y[3][2] = 4 * 5]); the whole product is given, and it is
    what [print_CSR_matrix] prints for the matrix returned. *)
Theorem main_product junk beyond :
  exists Z m,
    call junk main_X main_Y = (Returned Z, m) /\
    CSR_to_dense Z !! 0%nat = Some [6; 0; 20; 8; 0; 0] /\
    CSR_to_dense Z =
      [[6; 0; 20; 8; 0; 0]; [0; 0; 0; 0; 0; 0]; [0; 0; 0; 0; 18; 0];
       [3; 0; 0; 4; 0; 0]; [0; 0; 0; 0; 0; 0]; [0; 12; 18; 0; 12; 0];
       [22; 0; 0; 0; 0; 10]] /\
    print_CSR_matrix beyond Z = CSR_to_dense Z.
Proof.
  assert (HX : CSR_wf main_X)
    by (apply (bool_decide_unpack _); vm_compute; exact I).
  assert (HY : CCS_wf main_Y)
    by (apply (bool_decide_unpack _); vm_compute; exact I).
  assert (Hfit : stack_holds INT_MAX (CSR.num_rows main_X)
                   (CCS.num_cols main_Y))
    by (apply (bool_decide_unpack _); vm_compute; exact I).
  destruct (call_spec junk main_X main_Y HX HY eq_refl Hfit)
    as (m & Hcall & _).
  exists (product main_X main_Y), m. split; [exact Hcall|].
  split; [vm_compute; reflexivity|]. split; [vm_compute; reflexivity|].
  apply print_CSR_matrix_dense, product_wf; by vm_compute.
Qed.

(** Against C8 as written: row 0 is not [6 0 0 8 0 0], neither in the dense
    form nor in what [print_CSR_matrix] prints. *)
Lemma main_row0_differs :
  exists Z m,
    call no_junk main_X main_Y = (Returned Z, m) /\
    CSR_to_dense Z !! 0%nat <> Some [6; 0; 0; 8; 0; 0] /\
    print_CSR_matrix (fun _ => 0) Z !! 0%nat <> Some [6; 0; 0; 8; 0; 0].
Proof.
  eexists _, _. split; [vm_compute; reflexivity|].
  split; vm_compute; discriminate.
Qed.

(** ** C9 *)

(** C9, as amended: on well-formed operands of matching dimensions, when
    the stack holds the three arrays, the call leaves [X] and [Y] as they
    were.  Up to its end it only loads, allocates buffers of its own, of
    the sizes of [event_ok], and stores inside these buffers: inside none of
    the operands, and never outside the buffer it targets.  It ends by
    returning the matrix, or in [Malloc], which prints and exits when
    [malloc] fails; and which of the two, and the matrix returned, do not
    depend on what the memory held. *)
Theorem operands_unchanged junk stack_cells grants X Y :
  CSR_wf X -> CCS_wf Y -> CSR.num_cols X = CCS.num_rows Y ->
  stack_holds stack_cells (CSR.num_rows X) (CCS.num_cols Y) ->
  let r := run junk stack_cells grants X Y in
  opX (snd r) = X /\
  opY (snd r) = Y /\
  (exists nnz t,
     Forall (event_ok (CSR.num_rows X) (CCS.num_cols Y) nnz) t /\
     (forall a k v, Store a k v ∈ t -> is_operand a = false) /\
     ((exists Z, fst r = Returned Z /\ resZ (snd r) = Z /\
                 nnz = Z.of_nat (length (CSR.val Z)) /\
                 trace (snd r) = t) \/
      (fst r = Exited EXIT_FAILURE /\
       trace (snd r) = t ++ [Stderr "Malloc"; Exit EXIT_FAILURE]))) /\
  (forall junk', fst (run junk' stack_cells grants X Y) = fst r).
Proof.
  intros HX HY Hdim Hfit r.
  set (nnz := Z.of_nat (length (CSR.val (product X Y)))).
  assert (Hown : forall t,
            Forall (event_ok (CSR.num_rows X) (CCS.num_cols Y) nnz) t ->
            forall a k v, Store a k v ∈ t -> is_operand a = false).
  { intros t Ht a k v Hin. rewrite Forall_forall in Ht.
    apply (event_ok_own _ _ _ _ (Ht _ Hin)). }
  destruct (run_summary junk stack_cells grants X Y HX HY Hdim Hfit)
    as (sv & sc & sr & t & _ & _ & _ & _ & Hok & _ & _ & _ & _ & _ & _
        & Hend).
  fold nnz in Hok, Hend.
  assert (Hjunk : forall junk',
            fst (run junk' stack_cells grants X Y) = fst r).
  { intros junk'.
    destruct (run_summary junk' stack_cells grants X Y HX HY Hdim Hfit)
      as (? & ? & ? & ? & _ & _ & _ & _ & _ & _ & _ & _ & _ & _ & _
          & Hend').
    fold nnz in Hend'. unfold r.
    destruct Hend as [(Hg & ? & -> & _)|(Hg & ? & ? & -> & _)],
             Hend' as [(Hg' & ? & -> & _)|(Hg' & ? & ? & -> & _)];
      first [reflexivity | congruence]. }
  destruct Hend as [(_ & t' & Hrun & Hok' & _)|(_ & z & t' & Hrun & Hpre & _)];
    unfold r in *; rewrite Hrun; cbn [fst snd opX opY trace resZ].
  - split; [done|]. split; [done|]. split; [|by rewrite Hrun in Hjunk].
    assert (Hall : Forall (event_ok (CSR.num_rows X) (CCS.num_cols Y) nnz)
                     (t ++ t')) by (by apply Forall_app).
    exists nnz, (t ++ t'). split; [exact Hall|]. split; [by apply Hown|].
    left. by exists (product X Y).
  - split; [done|]. split; [done|]. split; [|by rewrite Hrun in Hjunk].
    assert (Hall : Forall (event_ok (CSR.num_rows X) (CCS.num_cols Y) nnz)
                     (t ++ t')).
    { apply Forall_app. split; [done|].
      destruct (prefix_allocs _ _ Hpre) as [->|[->| ->]];
        by repeat constructor. }
    exists nnz, (t ++ t'). split; [exact Hall|]. split; [by apply Hown|].
    right. split; [done|]. by rewrite <- app_assoc.
Qed.

Lemma operands_unchanged_witness :
  CSR_wf main_X /\ CCS_wf main_Y /\
  CSR.num_cols main_X = CCS.num_rows main_Y /\
  stack_holds stack_8MiB (CSR.num_rows main_X) (CCS.num_cols main_Y) /\
  let r := run no_junk stack_8MiB (fun _ _ => true) main_X main_Y in
  opX (snd r) = main_X /\
  opY (snd r) = main_Y /\
  (exists nnz t,
     Forall (event_ok (CSR.num_rows main_X) (CCS.num_cols main_Y) nnz) t /\
     (forall a k v, Store a k v ∈ t -> is_operand a = false) /\
     ((exists Z, fst r = Returned Z /\ resZ (snd r) = Z /\
                 nnz = Z.of_nat (length (CSR.val Z)) /\
                 trace (snd r) = t) \/
      (fst r = Exited EXIT_FAILURE /\
       trace (snd r) = t ++ [Stderr "Malloc"; Exit EXIT_FAILURE]))) /\
  (forall junk',
     fst (run junk' stack_8MiB (fun _ _ => true) main_X main_Y) = fst r).
Proof.
  assert (HX : CSR_wf main_X)
    by (apply (bool_decide_unpack _); vm_compute; exact I).
  assert (HY : CCS_wf main_Y)
    by (apply (bool_decide_unpack _); vm_compute; exact I).
  assert (Hfit : stack_holds stack_8MiB (CSR.num_rows main_X)
                   (CCS.num_cols main_Y))
    by (apply (bool_decide_unpack _); vm_compute; exact I).
  split; [exact HX|]. split; [exact HY|]. split; [reflexivity|].
  split; [exact Hfit|].
  apply (operands_unchanged no_junk stack_8MiB (fun _ _ => true)
           main_X main_Y HX HY eq_refl Hfit).
Defined.

(** Against C9 as written: for the 1100 x 1100 operands on a stack of
    8 MiB the three arrays overrun the stack, and there is no return after
    which the operands are as they were; and on the operands of [main],
    when [malloc] finds no memory, the call has an effect other than its
    result: the process exits. *)
Lemma effects_unknown_on_small_stack :
  (CSR_wf wide_X /\ CCS_wf wide_Y /\
   CSR.num_cols wide_X = CCS.num_rows wide_Y /\
   forall junk grants,
     ~ stack_holds stack_8MiB (CSR.num_rows wide_X) (CCS.num_cols wide_Y) /\
     ~ exists Z m,
         run junk stack_8MiB grants wide_X wide_Y = (Returned Z, m) /\
         opX m = wide_X /\ opY m = wide_Y) /\
  (CSR_wf main_X /\ CCS_wf main_Y /\
   CSR.num_cols main_X = CCS.num_rows main_Y /\
   stack_holds stack_8MiB (CSR.num_rows main_X) (CCS.num_cols main_Y) /\
   forall junk,
     exits_with "Malloc"
       (run junk stack_8MiB (fun _ _ => false) main_X main_Y)).
Proof.
  split.
  - destruct wide_operands as (HX & HY & Hdim).
    split; [exact HX|]. split; [exact HY|]. split; [exact Hdim|].
    intros junk grants. split.
    + unfold stack_holds, stack_8MiB. cbn. lia.
    + intros (Z & m & Hrun & _). by rewrite wide_run in Hrun.
  - destruct (main_without_memory no_junk) as (HX' & HY' & Hdim' & Hfit' & _).
    split; [exact HX'|]. split; [exact HY'|]. split; [exact Hdim'|].
    split; [exact Hfit'|]. intros junk.
    destruct (run_outcome junk stack_8MiB (fun _ _ => false) main_X main_Y
                HX' HY' Hdim' Hfit') as [Hexit|[m Hrun]]; [exact Hexit|].
    pose proof (main_without_memory junk) as (_ & _ & _ & _ & Hfst).
    by rewrite Hrun in Hfst.
Qed.

(** ** C10 *)




(** * Further properties of the code *)

(** ** sparse_matrix_multiply: where it reads *)

(** X1: on well-formed operands of matching dimensions, when the stack
    holds the three arrays, every load of the call, be it to return or to
    exit in [Malloc], is inside the buffer it reads, with one exception:
    [Y->row_ind] may be read at the cell that follows its last one, and no
    further. *)
Theorem loads_within_buffers junk stack_cells grants X Y :
  CSR_wf X -> CCS_wf Y -> CSR.num_cols X = CCS.num_rows Y ->
  stack_holds stack_cells (CSR.num_rows X) (CCS.num_cols Y) ->
  forall a k, Load a k ∈ trace (snd (run junk stack_cells grants X Y)) ->
    0 <= k < extent X Y a \/
    (a = Y_row_ind /\ k = Z.of_nat (length (CCS.row_ind Y))).
Proof.
  intros HX HY Hdim Hfit a k Hin.
  destruct (run_summary junk stack_cells grants X Y HX HY Hdim Hfit)
    as (sv & sc & sr & t & _ & _ & _ & _ & _ & _ & Hld & _ & _ & _ & _
        & [(_ & t' & Hrun & _ & Hld' & _)|(_ & z & t' & Hrun & Hpre & _)]);
    rewrite Hrun in Hin; cbn [snd trace] in Hin;
    rewrite Forall_forall in Hld.
  - rewrite Forall_forall in Hld'.
    apply elem_of_app in Hin as [Hin|Hin];
      [exact (Hld _ Hin)|exact (Hld' _ Hin)].
  - apply elem_of_app in Hin as [Hin|Hin]; [exact (Hld _ Hin)|].
    exfalso. apply elem_of_app in Hin as [Hin|Hin].
    + destruct (prefix_allocs _ _ Hpre) as [->|[->| ->]];
        repeat (apply elem_of_cons in Hin as [Hin|Hin]; [discriminate|]);
        by apply elem_of_nil in Hin.
    + repeat (apply elem_of_cons in Hin as [Hin|Hin]; [discriminate|]).
      by apply elem_of_nil in Hin.
Qed.

Lemma loads_within_buffers_witness :
  CSR_wf main_X /\ CCS_wf main_Y /\
  CSR.num_cols main_X = CCS.num_rows main_Y /\
  stack_holds stack_8MiB (CSR.num_rows main_X) (CCS.num_cols main_Y) /\
  forall a k,
    Load a k ∈ trace (snd (run no_junk stack_8MiB (fun _ _ => true)
                             main_X main_Y)) ->
    0 <= k < extent main_X main_Y a \/
    (a = Y_row_ind /\ k = Z.of_nat (length (CCS.row_ind main_Y))).
Proof.
  assert (HX : CSR_wf main_X)
    by (apply (bool_decide_unpack _); vm_compute; exact I).
  assert (HY : CCS_wf main_Y)
    by (apply (bool_decide_unpack _); vm_compute; exact I).
  assert (Hfit : stack_holds stack_8MiB (CSR.num_rows main_X)
                   (CCS.num_cols main_Y))
    by (apply (bool_decide_unpack _); vm_compute; exact I).
  split; [exact HX|]. split; [exact HY|]. split; [reflexivity|].
  split; [exact Hfit|].
  apply (loads_within_buffers no_junk stack_8MiB (fun _ _ => true)
           main_X main_Y HX HY eq_refl Hfit).
Defined.

(** ** sparse_matrix_multiply: empty rows and columns *)








(** ** sparse_matrix_multiply: the result does not depend on how the
    operands are stored *)

Lemma filter_ext_in (P Q : Z -> Prop) `{!forall x, Decision (P x)}
  `{!forall x, Decision (Q x)} (l : list Z) :
  (forall x, x ∈ l -> P x <-> Q x) -> filter P l = filter Q l.
Proof.
  induction l as [|x l IH]; intros Hpq; [done|].
  rewrite !filter_cons.
  rewrite IH by (intros y Hy; apply Hpq; by right).
  destruct (decide (P x)) as [Hp|Hp], (decide (Q x)) as [Hq|Hq];
    try done; exfalso; apply (Hpq x) in Hp || apply Hp, (Hpq x);
    try done; by left.
Qed.

Lemma row_cols_ext X Y X' Y' i upto :
  (forall j, 0 <= j < upto -> dot X Y i j = dot X' Y' i j) ->
  row_cols X Y i upto = row_cols X' Y' i upto.
Proof.
  intros Hd. unfold row_cols. apply filter_ext_in.
  intros j Hj%elem_of_seqZ. by rewrite Hd by lia.
Qed.

Lemma cells_before_ext X Y X' Y' n :
  CCS.num_cols Y = CCS.num_cols Y' ->
  (forall i j, 0 <= i < n -> 0 <= j < CCS.num_cols Y ->
     dot X Y i j = dot X' Y' i j) ->
  cells_before X Y n = cells_before X' Y' n.
Proof.
  intros Hc Hd. unfold cells_before. f_equal.
  apply list_fmap_ext. intros k i Hi%lookup_seqZ. rewrite <- Hc.
  f_equal. apply row_cols_ext. intros j Hj. apply Hd; lia.
Qed.

Lemma product_ext X Y X' Y' :
  CSR.num_rows X = CSR.num_rows X' -> CCS.num_cols Y = CCS.num_cols Y' ->
  (forall i j, 0 <= i < CSR.num_rows X -> 0 <= j < CCS.num_cols Y ->
     dot X Y i j = dot X' Y' i j) ->
  product X Y = product X' Y'.
Proof.
  intros Hr Hc Hd. unfold product. rewrite <- Hr, <- Hc.
  rewrite <- (cells_before_ext X Y X' Y') by done.
  f_equal.
  - apply list_fmap_ext. intros k c Hk%list_elem_of_lookup_2.
    destruct (decide (0 <= CSR.num_rows X)) as [Hn|Hn].
    + apply cells_before_elem in Hk as [Hi Hj]; [|done].
      apply row_cols_elem in Hj as [_ Hj]. apply Hd; lia.
    + unfold cells_before in Hk.
      rewrite (seqZ_nil 0 (CSR.num_rows X)) in Hk by lia.
      by apply elem_of_nil in Hk.
  - apply list_fmap_ext. intros k i Hi%lookup_seqZ. do 2 f_equal.
    apply cells_before_ext; [done|]. intros; apply Hd; lia.
Qed.

(** X3: on well-formed operands, when the stack holds the three arrays,
    the outcome of the call, and with it the matrix returned, is determined
    by the dimensions and the dense forms of the operands (and by what
    [malloc] answers): storing the same two matrices differently (with zeros
    stored as entries, say) gives the same [val], [col_ind] and
    [row_ptr]. *)
Theorem result_determined_by_dense_forms junk junk' stack_cells grants
    X Y X' Y' :
  CSR_wf X -> CCS_wf Y -> CSR_wf X' -> CCS_wf Y' ->
  CSR.num_cols X = CCS.num_rows Y ->
  CSR.num_rows X = CSR.num_rows X' -> CSR.num_cols X = CSR.num_cols X' ->
  CCS.num_rows Y = CCS.num_rows Y' -> CCS.num_cols Y = CCS.num_cols Y' ->
  CSR_to_dense X = CSR_to_dense X' ->
  CCS_to_dense Y = CCS_to_dense Y' ->
  stack_holds stack_cells (CSR.num_rows X) (CCS.num_cols Y) ->
  fst (run junk stack_cells grants X Y) =
  fst (run junk' stack_cells grants X' Y') /\
  ((exists Z, fst (run junk stack_cells grants X Y) = Returned Z) \/
   exits_with "Malloc" (run junk stack_cells grants X Y)).
Proof.
  intros HX HY HX' HY' Hdim Hxr Hxc Hyr Hyc HdX HdY Hfit.
  assert (Hfit' : stack_holds stack_cells (CSR.num_rows X') (CCS.num_cols Y'))
    by (by rewrite <- Hxr, <- Hyc).
  assert (Hprod : product X Y = product X' Y');
    [|split;
      [destruct (run_summary junk stack_cells grants X Y HX HY Hdim Hfit)
         as (? & ? & ? & ? & _ & _ & _ & _ & _ & _ & _ & _ & _ & _ & _
             & Hend);
       destruct (run_summary junk' stack_cells grants X' Y' HX' HY'
                   ltac:(lia) Hfit')
         as (? & ? & ? & ? & _ & _ & _ & _ & _ & _ & _ & _ & _ & _ & _
             & Hend');
       rewrite <- Hprod, <- Hxr in Hend';
       destruct Hend as [(Hg & ? & -> & _)|(Hg & ? & ? & -> & _)],
                Hend' as [(Hg' & ? & -> & _)|(Hg' & ? & ? & -> & _)];
       first [reflexivity | congruence]
      |destruct (run_outcome junk stack_cells grants X Y HX HY Hdim Hfit)
         as [Hexit|[m Hrun]]; [by right|left; rewrite Hrun; eauto]]].
  apply product_ext; [done|done|].
  intros i j Hi Hj. unfold dot, Zsum. rewrite <- Hxc. f_equal.
  apply sum_from_ext. intros k Hk.
  pose proof HX as (_ & Hk0 & _).
  assert (HgX : CSR_get X i k = CSR_get X' i k).
  { rewrite <- (rd2_tabulate 0 (CSR.num_rows X) (CSR.num_cols X) (CSR_get X))
      by lia.
    rewrite <- (rd2_tabulate 0 (CSR.num_rows X') (CSR.num_cols X')
                  (CSR_get X') i k) by lia.
    fold (CSR_to_dense X) (CSR_to_dense X'). by rewrite HdX. }
  assert (HgY : CCS_get Y k j = CCS_get Y' k j).
  { rewrite <- (rd2_tabulate 0 (CCS.num_rows Y) (CCS.num_cols Y) (CCS_get Y))
      by lia.
    rewrite <- (rd2_tabulate 0 (CCS.num_rows Y') (CCS.num_cols Y')
                  (CCS_get Y') k j) by lia.
    fold (CCS_to_dense Y) (CCS_to_dense Y'). by rewrite HdY. }
  by rewrite HgX, HgY.
Qed.

Lemma result_determined_by_dense_forms_witness :
  CSR_wf main_X /\ CCS_wf main_Y /\ CSR_wf padded_X /\ CCS_wf padded_Y /\
  main_X <> padded_X /\ main_Y <> padded_Y /\
  stack_holds stack_8MiB (CSR.num_rows main_X) (CCS.num_cols main_Y) /\
  fst (run no_junk stack_8MiB (fun _ _ => true) main_X main_Y) =
  fst (run no_junk stack_8MiB (fun _ _ => true) padded_X padded_Y) /\
  ((exists Z,
      fst (run no_junk stack_8MiB (fun _ _ => true) main_X main_Y) =
      Returned Z) \/
   exits_with "Malloc"
     (run no_junk stack_8MiB (fun _ _ => true) main_X main_Y)).
Proof.
  assert (Hfit : stack_holds stack_8MiB (CSR.num_rows main_X)
                   (CCS.num_cols main_Y))
    by (apply (bool_decide_unpack _); vm_compute; exact I).
  assert (HX : CSR_wf main_X)
    by (apply (bool_decide_unpack _); vm_compute; exact I).
  assert (HY : CCS_wf main_Y)
    by (apply (bool_decide_unpack _); vm_compute; exact I).
  assert (HX' : CSR_wf padded_X)
    by (apply (bool_decide_unpack _); vm_compute; exact I).
  assert (HY' : CCS_wf padded_Y)
    by (apply (bool_decide_unpack _); vm_compute; exact I).
  split; [exact HX|]. split; [exact HY|].
  split; [exact HX'|]. split; [exact HY'|].
  split; [discriminate|]. split; [discriminate|]. split; [exact Hfit|].
  apply (result_determined_by_dense_forms no_junk no_junk stack_8MiB
           (fun _ _ => true) main_X main_Y padded_X padded_Y HX HY HX' HY');
    first [by vm_compute | apply (bool_decide_unpack _); vm_compute; exact I].
Defined.

(** ** print_CSR_matrix and print_CCS_matrix *)

(** X4: for a well-formed matrix [print_CSR_matrix] prints [num_rows] lines
    of [num_cols] integers: on line [i], at the column of each entry stored
    for row [i], the value of that entry, and 0 at the columns for which row
    [i] stores nothing; this whatever lies beyond the buffers. *)
Theorem print_CSR_matrix_prints_entries beyond R :
  CSR_wf R ->
  let out := print_CSR_matrix beyond R in
  shape out (CSR.num_rows R) (CSR.num_cols R) /\
  (forall i p, 0 <= i < CSR.num_rows R ->
     get (CSR.row_ptr R) i <= p < get (CSR.row_ptr R) (i + 1) ->
     0 <= get (CSR.col_ind R) p < CSR.num_cols R /\
     rd2 0 out i (get (CSR.col_ind R) p) = get (CSR.val R) p) /\
  (forall i j, 0 <= i < CSR.num_rows R -> 0 <= j < CSR.num_cols R ->
     (forall p, get (CSR.row_ptr R) i <= p < get (CSR.row_ptr R) (i + 1) ->
        get (CSR.col_ind R) p <> j) ->
     rd2 0 out i j = 0).
Proof.
  intros HR out. unfold out. rewrite print_CSR_matrix_dense by done.
  pose proof HR as (Hr & Hc & _). unfold CSR_to_dense.
  split; [by apply shape_tabulate|]. split.
  - intros i p Hi Hp.
    pose proof (wf_slice HR i Hi) as Hs. pose proof Hs as (? & ? & _).
    assert (Hrange : 0 <= get (CSR.col_ind R) p < CSR.num_cols R).
    { apply (wf_ind_range HR). rewrite <- (wf_length_ind HR). lia. }
    split; [done|]. rewrite rd2_tabulate by done.
    by apply (slice_get_found _ _ _ _ _ p).
  - intros i j Hi Hj Hnone. rewrite rd2_tabulate by done.
    by apply slice_get_none.
Qed.

Lemma print_CSR_matrix_prints_entries_witness :
  CSR_wf main_X /\
  let out := print_CSR_matrix (fun _ => 7) main_X in
  shape out (CSR.num_rows main_X) (CSR.num_cols main_X) /\
  (forall i p, 0 <= i < CSR.num_rows main_X ->
     get (CSR.row_ptr main_X) i <= p < get (CSR.row_ptr main_X) (i + 1) ->
     0 <= get (CSR.col_ind main_X) p < CSR.num_cols main_X /\
     rd2 0 out i (get (CSR.col_ind main_X) p) = get (CSR.val main_X) p) /\
  (forall i j, 0 <= i < CSR.num_rows main_X -> 0 <= j < CSR.num_cols main_X ->
     (forall p,
        get (CSR.row_ptr main_X) i <= p < get (CSR.row_ptr main_X) (i + 1) ->
        get (CSR.col_ind main_X) p <> j) ->
     rd2 0 out i j = 0).
Proof.
  assert (HX : CSR_wf main_X)
    by (apply (bool_decide_unpack _); vm_compute; exact I).
  split; [exact HX|].
  exact (print_CSR_matrix_prints_entries (fun _ => 7) main_X HX).
Defined.

(** X5: for a well-formed matrix [print_CCS_matrix] prints [num_rows] lines
    of [num_cols] integers: in column [j], at the row of each entry stored
    for column [j], the value of that entry, and 0 at the rows for which
    column [j] stores nothing. *)
Theorem print_CCS_matrix_prints_entries beyond R :
  CCS_wf R ->
  let out := print_CCS_matrix beyond R in
  shape out (CCS.num_rows R) (CCS.num_cols R) /\
  (forall j p, 0 <= j < CCS.num_cols R ->
     get (CCS.col_ptr R) j <= p < get (CCS.col_ptr R) (j + 1) ->
     0 <= get (CCS.row_ind R) p < CCS.num_rows R /\
     rd2 0 out (get (CCS.row_ind R) p) j = get (CCS.val R) p) /\
  (forall i j, 0 <= i < CCS.num_rows R -> 0 <= j < CCS.num_cols R ->
     (forall p, get (CCS.col_ptr R) j <= p < get (CCS.col_ptr R) (j + 1) ->
        get (CCS.row_ind R) p <> i) ->
     rd2 0 out i j = 0).
Proof.
  intros HR out. unfold out. rewrite print_CCS_matrix_dense by done.
  pose proof HR as (Hc & Hr & _). unfold CCS_to_dense.
  split; [by apply shape_tabulate|]. split.
  - intros j p Hj Hp.
    pose proof (wf_slice HR j Hj) as Hs. pose proof Hs as (? & ? & _).
    assert (Hrange : 0 <= get (CCS.row_ind R) p < CCS.num_rows R).
    { apply (wf_ind_range HR). rewrite <- (wf_length_ind HR). lia. }
    split; [done|]. rewrite rd2_tabulate by done.
    by apply (slice_get_found _ _ _ _ _ p).
  - intros i j Hi Hj Hnone. rewrite rd2_tabulate by done.
    by apply slice_get_none.
Qed.

Lemma print_CCS_matrix_prints_entries_witness :
  CCS_wf main_Y /\
  let out := print_CCS_matrix (fun _ => 7) main_Y in
  shape out (CCS.num_rows main_Y) (CCS.num_cols main_Y) /\
  (forall j p, 0 <= j < CCS.num_cols main_Y ->
     get (CCS.col_ptr main_Y) j <= p < get (CCS.col_ptr main_Y) (j + 1) ->
     0 <= get (CCS.row_ind main_Y) p < CCS.num_rows main_Y /\
     rd2 0 out (get (CCS.row_ind main_Y) p) j = get (CCS.val main_Y) p) /\
  (forall i j, 0 <= i < CCS.num_rows main_Y -> 0 <= j < CCS.num_cols main_Y ->
     (forall p,
        get (CCS.col_ptr main_Y) j <= p < get (CCS.col_ptr main_Y) (j + 1) ->
        get (CCS.row_ind main_Y) p <> i) ->
     rd2 0 out i j = 0).
Proof.
  assert (HY : CCS_wf main_Y)
    by (apply (bool_decide_unpack _); vm_compute; exact I).
  split; [exact HY|].
  exact (print_CCS_matrix_prints_entries (fun _ => 7) main_Y HY).
Defined.

(** ** matrix_multiply *)

Lemma rd2_shape d A r c i j :
  shape A r c -> 0 <= i < r -> 0 <= j < c -> rd2 d A i j = rd2 0 A i j.
Proof.
  intros HA Hi Hj. destruct (shape_row A r c i HA Hi) as (row & Hrow & Hlen).
  unfold rd2. rewrite !decide_True by lia. rewrite Hrow.
  unfold get. rewrite !(rd_in_bounds _ row j) by (unfold in_bounds; lia).
  done.
Qed.

Lemma matrix_multiply_spec junk2 A B r k c :
  shape A r k -> shape B k c -> 0 <= r -> 0 <= k -> 0 <= c ->
  matrix_multiply junk2 A B r k k c =
  Dense_returned (tabulate r c (fun i j => wrap (dense_sum A B k i j))).
Proof.
  intros HA HB Hr Hk Hc.
  unfold matrix_multiply. rewrite decide_False by (intros Hne; by apply Hne).
  cbv zeta. rewrite decide_False by (unfold size_refused; lia).
  f_equal.
  rewrite (fill_spec
             (fun i j =>
                for_loop 0 k
                  (fun l dp =>
                     int_add dp
                       (int_mul (rd2 (junk2 i l) A i l)
                          (rd2 (junk2 l j) B l j))) 0))
    by (done || by apply shape_init_2d_array).
  apply tabulate_ext. intros i j Hi Hj.
  rewrite (dense_dot_spec (fun l => rd2 (junk2 i l) A i l)
             (fun l => rd2 (junk2 l j) B l j)) by done.
  unfold dense_sum, Zsum. f_equal. apply sum_from_ext. intros l Hl.
  by rewrite (rd2_shape _ A r k), (rd2_shape _ B k c) by (done || lia).
Qed.

(** X6: on an [r x k] and a [k x c] array [matrix_multiply] returns an [r x
    c] array whose entry [(i, j)] is the sum over [l] of [X[i][l] * Y[l][j]]
    reduced to an [int]; every cell [malloc] handed out is written, so that
    the array does not depend on what they held. *)
Theorem matrix_multiply_computes_product junk2 A B r k c :
  shape A r k -> shape B k c -> 0 <= r -> 0 <= k -> 0 <= c ->
  exists Z,
    matrix_multiply junk2 A B r k k c = Dense_returned Z /\
    shape Z r c /\
    (forall i j, 0 <= i < r -> 0 <= j < c ->
       rd2 0 Z i j = wrap (dense_sum A B k i j)) /\
    forall junk2', matrix_multiply junk2' A B r k k c = Dense_returned Z.
Proof.
  intros HA HB Hr Hk Hc. eexists.
  split; [by apply matrix_multiply_spec|].
  split; [by apply shape_tabulate|]. split.
  - intros i j Hi Hj. by rewrite rd2_tabulate.
  - intros junk2'. by apply matrix_multiply_spec.
Qed.

Lemma matrix_multiply_computes_product_witness :
  shape small_A 2 3 /\ shape small_B 3 2 /\
  exists Z,
    matrix_multiply (fun _ _ => 9) small_A small_B 2 3 3 2 =
      Dense_returned Z /\
    shape Z 2 2 /\
    (forall i j, 0 <= i < 2 -> 0 <= j < 2 ->
       rd2 0 Z i j = wrap (dense_sum small_A small_B 3 i j)) /\
    forall junk2', matrix_multiply junk2' small_A small_B 2 3 3 2 =
                   Dense_returned Z.
Proof.
  assert (HA : shape small_A 2 3) by (split; [done|repeat constructor]).
  assert (HB : shape small_B 3 2) by (split; [done|repeat constructor]).
  split; [exact HA|]. split; [exact HB|].
  apply (matrix_multiply_computes_product (fun _ _ => 9) small_A small_B
           2 3 2 HA HB); lia.
Defined.

Lemma sum_from_bound f lo n M :
  (forall l, lo <= l < lo + Z.of_nat n -> Z.abs (f l) <= M) ->
  Z.abs (sum_from f lo n) <= Z.of_nat n * M.
Proof.
  revert lo. induction n as [|n IH]; intros lo Hf; [simpl; lia|].
  cbn [sum_from].
  pose proof (Hf lo ltac:(lia)).
  pose proof (IH (lo + 1) ltac:(intros; apply Hf; lia)).
  lia.
Qed.

Lemma dense_sum_bound A B k i j a b :
  0 <= k ->
  (forall l, 0 <= l < k -> Z.abs (rd2 0 A i l) <= a) ->
  (forall l, 0 <= l < k -> Z.abs (rd2 0 B l j) <= b) ->
  Z.abs (dense_sum A B k i j) <= k * (a * b).
Proof.
  intros Hk Ha Hb. unfold dense_sum, Zsum.
  replace k with (Z.of_nat (Z.to_nat (k - 0))) at 2 by lia.
  apply sum_from_bound. intros l Hl.
  specialize (Ha l ltac:(lia)). specialize (Hb l ltac:(lia)).
  rewrite Z.abs_mul. nia.
Qed.

(** X7: when the entries of [X] are at most [a] and those of [Y] at most [b]
    in absolute value, with [k * a * b <= INT_MAX], no entry of the product
    is reduced: [matrix_multiply] returns the sums themselves. *)
Theorem matrix_multiply_exact junk2 A B r k c a b :
  shape A r k -> shape B k c -> 0 <= r -> 0 <= k -> 0 <= c ->
  (forall i l, 0 <= i < r -> 0 <= l < k -> Z.abs (rd2 0 A i l) <= a) ->
  (forall l j, 0 <= l < k -> 0 <= j < c -> Z.abs (rd2 0 B l j) <= b) ->
  k * (a * b) <= INT_MAX ->
  exists Z,
    matrix_multiply junk2 A B r k k c = Dense_returned Z /\
    forall i j, 0 <= i < r -> 0 <= j < c ->
      rd2 0 Z i j = dense_sum A B k i j /\
      Z.abs (rd2 0 Z i j) <= k * (a * b).
Proof.
  intros HA HB Hr Hk Hc Ha Hb Hfit. eexists.
  split; [by apply matrix_multiply_spec|].
  intros i j Hi Hj. rewrite rd2_tabulate by done.
  pose proof (dense_sum_bound A B k i j a b Hk
                ltac:(intros; by apply Ha) ltac:(intros; by apply Hb)) as Hs.
  rewrite wrap_small by (unfold INT_MIN, INT_MAX in *; lia). done.
Qed.

Lemma matrix_multiply_exact_witness :
  shape small_A 2 3 /\ shape small_B 3 2 /\
  3 * (6 * 2) <= INT_MAX /\
  exists Z,
    matrix_multiply (fun _ _ => 9) small_A small_B 2 3 3 2 =
      Dense_returned Z /\
    forall i j, 0 <= i < 2 -> 0 <= j < 2 ->
      rd2 0 Z i j = dense_sum small_A small_B 3 i j /\
      Z.abs (rd2 0 Z i j) <= 3 * (6 * 2).
Proof.
  assert (HA : shape small_A 2 3) by (split; [done|repeat constructor]).
  assert (HB : shape small_B 3 2) by (split; [done|repeat constructor]).
  split; [exact HA|]. split; [exact HB|]. split; [by vm_compute|].
  apply (matrix_multiply_exact (fun _ _ => 9) small_A small_B 2 3 2 6 2
           HA HB); try lia.
  - intros i l Hi Hl.
    assert (i = 0 \/ i = 1) as [-> | ->] by lia;
      assert (l = 0 \/ l = 1 \/ l = 2) as [-> | [-> | ->]] by lia;
      vm_compute; discriminate.
  - intros l j Hl Hj.
    assert (l = 0 \/ l = 1 \/ l = 2) as [-> | [-> | ->]] by lia;
      assert (j = 0 \/ j = 1) as [-> | ->] by lia;
      vm_compute; discriminate.
  - by vm_compute.
Defined.

(** ** matrix_multiply: products of three matrices *)

Lemma wrap_mul_l a c : wrap (wrap a * c) = wrap (a * c).
Proof.
  unfold wrap, int_modulus. f_equal.
  replace (((a + 2 ^ 31) mod 2 ^ 32 - 2 ^ 31) * c + 2 ^ 31)
    with ((a + 2 ^ 31) mod 2 ^ 32 * c + (2 ^ 31 - 2 ^ 31 * c)) by lia.
  rewrite <- Zplus_mod_idemp_l, Zmult_mod_idemp_l, Zplus_mod_idemp_l.
  f_equal. lia.
Qed.

Lemma wrap_mul_r a c : wrap (a * wrap c) = wrap (a * c).
Proof. rewrite (Z.mul_comm a), wrap_mul_l. f_equal. lia. Qed.

(** Reducing the terms of a sum does not change the reduced sum. *)
Lemma wrap_sum_from f g lo n :
  (forall k, lo <= k < lo + Z.of_nat n -> wrap (f k) = wrap (g k)) ->
  wrap (sum_from f lo n) = wrap (sum_from g lo n).
Proof.
  revert lo. induction n as [|n IH]; intros lo Hfg; [done|].
  cbn [sum_from].
  rewrite <- wrap_add_l, <- wrap_add_r.
  rewrite (Hfg lo) by lia. rewrite (IH (lo + 1)) by (intros; apply Hfg; lia).
  by rewrite wrap_add_l, wrap_add_r.
Qed.

Lemma sum_from_mul_r f c lo n :
  sum_from f lo n * c = sum_from (fun k => f k * c) lo n.
Proof.
  revert lo. induction n as [|n IH]; intros lo; simpl; [done|].
  rewrite <- IH. lia.
Qed.

Lemma sum_from_mul_l f c lo n :
  c * sum_from f lo n = sum_from (fun k => c * f k) lo n.
Proof.
  revert lo. induction n as [|n IH]; intros lo; simpl; [lia|].
  rewrite <- IH. lia.
Qed.

Lemma sum_from_swap (f : Z -> Z -> Z) lo1 n1 lo2 n2 :
  sum_from (fun j => sum_from (fun k => f j k) lo2 n2) lo1 n1 =
  sum_from (fun k => sum_from (fun j => f j k) lo1 n1) lo2 n2.
Proof.
  revert lo1. induction n1 as [|n1 IH]; intros lo1.
  - simpl. symmetry. by apply sum_from_zero.
  - cbn [sum_from]. rewrite IH. by rewrite <- sum_from_add.
Qed.

(** The product of three matrices, as an integer. *)
Lemma triple_sum_left A B C k m i l :
  0 <= k -> 0 <= m ->
  wrap (Zsum (fun j => wrap (dense_sum A B k i j) * rd2 0 C j l) 0 m) =
  wrap (Zsum (fun j =>
          Zsum (fun x => rd2 0 A i x * rd2 0 B x j * rd2 0 C j l) 0 k) 0 m).
Proof.
  intros Hk Hm. unfold Zsum. apply wrap_sum_from. intros j Hj.
  rewrite wrap_mul_l. f_equal. unfold dense_sum, Zsum.
  by rewrite sum_from_mul_r.
Qed.

Lemma triple_sum_right A B C k m i l :
  0 <= k -> 0 <= m ->
  wrap (Zsum (fun x => rd2 0 A i x * wrap (dense_sum B C m x l)) 0 k) =
  wrap (Zsum (fun j =>
          Zsum (fun x => rd2 0 A i x * rd2 0 B x j * rd2 0 C j l) 0 k) 0 m).
Proof.
  intros Hk Hm. unfold Zsum.
  rewrite (sum_from_swap
             (fun j x => rd2 0 A i x * rd2 0 B x j * rd2 0 C j l)).
  apply wrap_sum_from. intros x Hx.
  rewrite wrap_mul_r. f_equal. unfold dense_sum, Zsum.
  rewrite sum_from_mul_l. apply sum_from_ext. intros j Hj. lia.
Qed.

(** X8: [matrix_multiply] is associative, overflow or not: for arrays of
    sizes [r x k], [k x m] and [m x c], multiplying the product of the first
    two by the third returns the same array as multiplying the first by the
    product of the other two. *)
Theorem matrix_multiply_associative junk2 A B C r k m c :
  shape A r k -> shape B k m -> shape C m c ->
  0 <= r -> 0 <= k -> 0 <= m -> 0 <= c ->
  exists AB BC Z,
    matrix_multiply junk2 A B r k k m = Dense_returned AB /\
    matrix_multiply junk2 B C k m m c = Dense_returned BC /\
    matrix_multiply junk2 AB C r m m c = Dense_returned Z /\
    matrix_multiply junk2 A BC r k k c = Dense_returned Z.
Proof.
  intros HA HB HC Hr Hk Hm Hc.
  eexists _, _, _.
  split; [by apply matrix_multiply_spec|].
  split; [by apply matrix_multiply_spec|].
  split; [apply matrix_multiply_spec; try done; by apply shape_tabulate|].
  rewrite matrix_multiply_spec; try done; [|by apply shape_tabulate].
  f_equal. apply tabulate_ext. intros i l Hi Hl.
  transitivity
    (wrap (Zsum (fun j =>
             Zsum (fun x => rd2 0 A i x * rd2 0 B x j * rd2 0 C j l) 0 k)
             0 m)).
  - rewrite <- (triple_sum_right A B C k m i l) by done.
    unfold dense_sum at 1, Zsum at 1. f_equal. apply sum_from_ext.
    intros x Hx. by rewrite rd2_tabulate by lia.
  - rewrite <- (triple_sum_left A B C k m i l) by done.
    unfold dense_sum at 2, Zsum at 2. f_equal. apply sum_from_ext.
    intros j Hj. by rewrite rd2_tabulate by lia.
Qed.

Lemma matrix_multiply_associative_witness :
  shape small_A 2 3 /\ shape small_B 3 2 /\ shape small_C 2 2 /\
  exists AB BC Z,
    matrix_multiply (fun _ _ => 9) small_A small_B 2 3 3 2 =
      Dense_returned AB /\
    matrix_multiply (fun _ _ => 9) small_B small_C 3 2 2 2 =
      Dense_returned BC /\
    matrix_multiply (fun _ _ => 9) AB small_C 2 2 2 2 = Dense_returned Z /\
    matrix_multiply (fun _ _ => 9) small_A BC 2 3 3 2 = Dense_returned Z.
Proof.
  assert (HA : shape small_A 2 3) by (split; [done|repeat constructor]).
  assert (HB : shape small_B 3 2) by (split; [done|repeat constructor]).
  assert (HC : shape small_C 2 2) by (split; [done|repeat constructor]).
  split; [exact HA|]. split; [exact HB|]. split; [exact HC|].
  apply (matrix_multiply_associative (fun _ _ => 9) small_A small_B small_C
           2 3 2 2 HA HB HC); lia.
Defined.

(** ** fill_rand_2d_array and print_matrix *)

Lemma for_loop_snoc {S : Type} (lo hi : Z) (body : Z -> S -> S) (s : S) :
  lo <= hi ->
  for_loop lo (hi + 1) body s = body hi (for_loop lo hi body s).
Proof.
  intros Hle. remember (Z.to_nat (hi - lo)) as n eqn:Hn.
  revert lo s Hle Hn. induction n as [|n IH]; intros lo s Hle Hn.
  - assert (lo = hi) as -> by lia.
    rewrite for_loop_eqn, decide_True by lia.
    by rewrite !for_loop_done by lia.
  - rewrite for_loop_eqn, decide_True by lia.
    rewrite IH by lia.
    by rewrite (for_loop_eqn lo hi), decide_True by lia.
Qed.

Section FillRand.

Variable rand : nat -> Z.
Variables (r c upper : Z) (calls : nat).
Hypothesis Hr : 0 <= r.
Hypothesis Hc : 0 <= c.

(** The value stored at [(i, j)]: calls of [rand] are made row by row. *)
Let drawn (i j : Z) : Z :=
  Z.rem (rand (calls + Z.to_nat (i * c + j))%nat) upper.

Lemma fill_rand_unfold R :
  fill_rand_2d_array rand R r c upper calls =
  (for_loop 0 r
     (fun i A => for_loop 0 c (fun j A => wr2 A i j (drawn i j)) A) R,
   (calls + Z.to_nat (r * c))%nat).
Proof.
  unfold fill_rand_2d_array.
  apply (for_loop_inv
           (fun i s =>
              s = (for_loop 0 i
                     (fun i A =>
                        for_loop 0 c (fun j A => wr2 A i j (drawn i j)) A) R,
                   (calls + Z.to_nat (i * c))%nat))).
  - done.
  - rewrite for_loop_done by lia. f_equal. simpl. lia.
  - intros i s Hi ->. rewrite for_loop_snoc by lia.
    set (A := for_loop 0 i _ R).
    replace (Z.to_nat ((i + 1) * c)) with (Z.to_nat (i * c + c))
      by (f_equal; lia).
    apply (for_loop_inv
             (fun j s =>
                s = (for_loop 0 j (fun j A => wr2 A i j (drawn i j)) A,
                     (calls + Z.to_nat (i * c + j))%nat))).
    + done.
    + rewrite for_loop_done by lia. do 3 f_equal. lia.
    + intros j s Hj ->. rewrite for_loop_snoc by lia. cbn [fst snd].
      unfold drawn. f_equal. nia.
Qed.

Lemma fill_rand_spec R :
  shape R r c ->
  fill_rand_2d_array rand R r c upper calls =
  (tabulate r c drawn, (calls + Z.to_nat (r * c))%nat).
Proof.
  intros HR. rewrite fill_rand_unfold. f_equal. by apply fill_spec.
Qed.

End FillRand.

Lemma fill_rand_range rand R r c upper calls :
  shape R r c -> 0 <= r -> 0 <= c -> upper <> 0 ->
  (forall n, 0 <= rand n) ->
  let filled := fill_rand_2d_array rand R r c upper calls in
  shape (fst filled) r c /\
  snd filled = (calls + Z.to_nat (r * c))%nat /\
  forall i j, 0 <= i < r -> 0 <= j < c ->
    rd2 0 (fst filled) i j =
      Z.rem (rand (calls + Z.to_nat (i * c + j))%nat) upper /\
    0 <= rd2 0 (fst filled) i j < Z.abs upper.
Proof.
  intros HR Hr Hc Hu Hrand filled. unfold filled.
  rewrite fill_rand_spec by done. cbn [fst snd].
  split; [by apply shape_tabulate|]. split; [done|].
  intros i j Hi Hj. rewrite rd2_tabulate by done. split; [done|].
  pose proof (Z.rem_bound_pos_pos (rand (calls + Z.to_nat (i * c + j))%nat)
                (Z.abs upper) ltac:(lia) ltac:(apply Hrand)) as Hb.
  rewrite Z.rem_abs_r in Hb by done. exact Hb.
Qed.

(** X9: if [rand] never returns a negative number and [upper] is not 0, then
    [fill_rand_2d_array] on an [r x c] array calls [rand] [r * c] times and
    leaves an [r x c] array whose entry [(i, j)] is the result of call
    number [i * c + j] modulo [upper], a number from 0 to [|upper| - 1]. *)
Theorem fill_rand_2d_array_range rand R r c upper calls :
  shape R r c -> 0 <= r -> 0 <= c -> upper <> 0 ->
  (forall n, 0 <= rand n) ->
  let filled := fill_rand_2d_array rand R r c upper calls in
  shape (fst filled) r c /\
  snd filled = (calls + Z.to_nat (r * c))%nat /\
  forall i j, 0 <= i < r -> 0 <= j < c ->
    rd2 0 (fst filled) i j =
      Z.rem (rand (calls + Z.to_nat (i * c + j))%nat) upper /\
    0 <= rd2 0 (fst filled) i j < Z.abs upper.
Proof.
  intros HR Hr Hc Hu Hrand filled. unfold filled.
  rewrite fill_rand_spec by done. cbn [fst snd].
  split; [by apply shape_tabulate|]. split; [done|].
  intros i j Hi Hj. rewrite rd2_tabulate by done. split; [done|].
  pose proof (Z.rem_bound_pos_pos (rand (calls + Z.to_nat (i * c + j))%nat)
                (Z.abs upper) ltac:(lia) ltac:(apply Hrand)) as Hb.
  rewrite Z.rem_abs_r in Hb by done. exact Hb.
Qed.

Lemma fill_rand_2d_array_range_witness :
  shape small_A 2 3 /\
  let filled :=
    fill_rand_2d_array (fun n => Z.of_nat (7 * n)%nat) small_A 2 3 10 0 in
  shape (fst filled) 2 3 /\
  snd filled = (0 + Z.to_nat (2 * 3))%nat /\
  forall i j, 0 <= i < 2 -> 0 <= j < 3 ->
    rd2 0 (fst filled) i j =
      Z.rem (Z.of_nat (7 * (0 + Z.to_nat (i * 3 + j)))%nat) 10 /\
    0 <= rd2 0 (fst filled) i j < Z.abs 10.
Proof.
  assert (HA : shape small_A 2 3) by (split; [done|repeat constructor]).
  split; [exact HA|].
  apply (fill_rand_2d_array_range (fun n => Z.of_nat (7 * n)%nat) small_A
           2 3 10 0 HA); lia.
Defined.

(** A loop whose body may fail: it goes on as the loop of the results
    while every turn succeeds, and one turn that fails is the end. *)
Lemma for_loop_some {S : Type} lo hi (body : Z -> S -> option S)
    (g : Z -> S -> S) (s : S) :
  lo <= hi ->
  (forall i s, lo <= i < hi -> body i s = Some (g i s)) ->
  for_loop lo hi
    (fun i o => match o with Some s => body i s | None => None end)
    (Some s) =
  Some (for_loop lo hi g s).
Proof.
  intros Hle Hb.
  apply (for_loop_inv
           (fun i o => o = Some (for_loop lo i g s))); [done| |].
  - by rewrite for_loop_done by lia.
  - intros i o Hi ->. rewrite Hb by done.
    by rewrite for_loop_snoc by lia.
Qed.

Lemma for_loop_none {S : Type} lo hi (body : Z -> S -> option S) k o :
  lo <= k < hi ->
  (forall s, body k s = None) ->
  for_loop lo hi
    (fun i o => match o with Some s => body i s | None => None end) o =
  None.
Proof.
  intros Hk Hb.
  assert (Hinv : (fun i (o' : option S) => k < i -> o' = None) hi
                   (for_loop lo hi
                      (fun i o =>
                         match o with Some s => body i s | None => None end)
                      o));
    [|apply Hinv; lia].
  apply for_loop_inv; [lia|lia|].
  intros i o' Hi Ho Hlt.
  destruct (decide (i = k)) as [->|Hne].
  - destruct o'; [apply Hb|done].
  - by rewrite Ho by lia.
Qed.

Lemma cell2_shape R r c i j :
  shape R r c -> 0 <= i < r -> 0 <= j < c ->
  cell2 R i j = Some (rd2 0 R i j).
Proof.
  intros HR Hi Hj.
  destruct (shape_row R r c i HR Hi) as (row & Hrow & Hlen).
  destruct (lookup_lt_is_Some_2 row (Z.to_nat j) ltac:(lia)) as [v Hv].
  unfold cell2. rewrite decide_True by lia. rewrite Hrow, Hv.
  unfold rd2. rewrite decide_True by lia. rewrite Hrow.
  unfold rd. rewrite decide_True by lia. by rewrite Hv.
Qed.

(** What [print_matrix] prints when the array has every cell that is
    read. *)
Lemma print_matrix_cells R r c (f : Z -> Z -> Z) :
  0 <= r -> 0 <= c ->
  (forall i j, 0 <= i < r -> 0 <= j < c -> cell2 R i j = Some (f i j)) ->
  print_matrix R r c = Some (tabulate r c f).
Proof.
  intros Hr Hc Hf. unfold print_matrix.
  rewrite (for_loop_some 0 r
             (fun i out =>
                match print_line R i c with
                | Some line => Some (out ++ [line])
                | None => None
                end)
             (fun i out => out ++ [f i <$> seqZ 0 c])); [|done|].
  - f_equal. by apply for_loop_collect.
  - intros i out Hi. unfold print_line.
    rewrite (for_loop_some 0 c
               (fun j line =>
                  match cell2 R i j with
                  | Some v => Some (line ++ [v])
                  | None => None
                  end)
               (fun j line => line ++ [f i j])); [|done|].
    + by rewrite (for_loop_collect _ (f i)).
    + intros j line Hj. by rewrite Hf.
Qed.

Lemma print_matrix_spec R r c :
  0 <= r -> 0 <= c -> shape R r c -> print_matrix R r c = Some R.
Proof.
  intros Hr Hc HR.
  rewrite (print_matrix_cells R r c (rd2 0 R)) by
    (done || intros; by apply (cell2_shape R r c)).
  f_equal.
  apply (shape_ext _ _ r c); [by apply (shape_tabulate r c (rd2 0 R))|done|].
  intros i j Hi Hj. by apply (rd2_tabulate 0 r c (rd2 0 R)).
Qed.

(** X10: when the array has every cell [R[i][j]] with [i < r_rows] and
    [j < r_cols], [print_matrix] prints [r_rows] lines of [r_cols]
    integers, line [i] holding [R[i][0]], [R[i][1]], ... in this order; for
    an [r_rows x r_cols] array these are its rows.  When one of these cells
    is missing, the function reads outside the array. *)
Theorem print_matrix_prints_rows R r c :
  0 <= r -> 0 <= c ->
  ((forall i j, 0 <= i < r -> 0 <= j < c -> is_Some (cell2 R i j)) ->
   exists out,
     print_matrix R r c = Some out /\ shape out r c /\
     forall i j, 0 <= i < r -> 0 <= j < c ->
       cell2 R i j = Some (rd2 0 out i j)) /\
  (shape R r c -> print_matrix R r c = Some R) /\
  (forall i j, 0 <= i < r -> 0 <= j < c -> cell2 R i j = None ->
     print_matrix R r c = None).
Proof.
  intros Hr Hc. split; [|split; [by apply print_matrix_spec|]].
  - intros Hall.
    exists (tabulate r c (fun i j => default 0 (cell2 R i j))).
    split; [|split; [by apply shape_tabulate|]].
    + apply print_matrix_cells; [done|done|].
      intros i j Hi Hj. by destruct (Hall i j Hi Hj) as [v ->].
    + intros i j Hi Hj. rewrite rd2_tabulate by done.
      by destruct (Hall i j Hi Hj) as [v ->].
  - intros i j Hi Hj Hnone. unfold print_matrix.
    apply (for_loop_none 0 r _ i); [done|].
    intros out. unfold print_line.
    rewrite (for_loop_none 0 c
               (fun j line =>
                  match cell2 R i j with
                  | Some v => Some (line ++ [v])
                  | None => None
                  end) j); [done|done|].
    intros line. by rewrite Hnone.
Qed.

Lemma print_matrix_prints_rows_witness :
  0 <= 2 /\ 0 <= 3 /\
  ((forall i j, 0 <= i < 2 -> 0 <= j < 3 -> is_Some (cell2 small_A i j)) ->
   exists out,
     print_matrix small_A 2 3 = Some out /\ shape out 2 3 /\
     forall i j, 0 <= i < 2 -> 0 <= j < 3 ->
       cell2 small_A i j = Some (rd2 0 out i j)) /\
  (shape small_A 2 3 -> print_matrix small_A 2 3 = Some small_A) /\
  (forall i j, 0 <= i < 2 -> 0 <= j < 3 -> cell2 small_A i j = None ->
     print_matrix small_A 2 3 = None).
Proof.
  split; [lia|]. split; [lia|].
  apply (print_matrix_prints_rows small_A 2 3); lia.
Defined.

(** ** The dense program as a whole *)

(** X11: what [main] of the dense program does, for any dimensions: two
    arrays are allocated and filled with numbers below [upper], multiplied
    and printed. If [rand] never returns a negative number and [x_cols *
    (upper - 1)^2 <= INT_MAX], then the product is returned (the process
    does not exit), no entry of it is reduced, and what is printed for it is
    the exact product of what is printed for the operands. *)
Theorem random_product_is_exact junk2 rand x_rows x_cols y_cols upper :
  0 <= x_rows -> 0 <= x_cols -> 0 <= y_cols -> 0 < upper ->
  (forall n, 0 <= rand n) ->
  x_cols * ((upper - 1) * (upper - 1)) <= INT_MAX ->
  let X := fill_rand_2d_array rand (init_2d_array junk2 x_rows x_cols)
             x_rows x_cols upper 0 in
  let Y := fill_rand_2d_array rand (init_2d_array junk2 x_cols y_cols)
             x_cols y_cols upper (snd X) in
  exists Z,
    matrix_multiply junk2 (fst X) (fst Y) x_rows x_cols x_cols y_cols =
      Dense_returned Z /\
    print_matrix (fst X) x_rows x_cols = Some (fst X) /\
    print_matrix (fst Y) x_cols y_cols = Some (fst Y) /\
    print_matrix Z x_rows y_cols = Some Z /\
    forall i j, 0 <= i < x_rows -> 0 <= j < y_cols ->
      rd2 0 Z i j = dense_sum (fst X) (fst Y) x_cols i j /\
      0 <= rd2 0 Z i j <= x_cols * ((upper - 1) * (upper - 1)).
Proof.
  intros Hr Hk Hc Hu Hrand Hfit X Y.
  destruct (fill_rand_range rand (init_2d_array junk2 x_rows x_cols)
              x_rows x_cols upper 0) as (HX & _ & HXv);
    [by apply shape_init_2d_array|done|done|lia|done|].
  destruct (fill_rand_range rand (init_2d_array junk2 x_cols y_cols)
              x_cols y_cols upper (snd X)) as (HY & _ & HYv);
    [by apply shape_init_2d_array|done|done|lia|done|].
  fold X in HX, HXv. fold Y in HY, HYv.
  eexists. split; [by apply matrix_multiply_spec|].
  split; [by apply print_matrix_spec|].
  split; [by apply print_matrix_spec|].
  split; [apply print_matrix_spec; [done|done|by apply shape_tabulate]|].
  intros i j Hi Hj. rewrite rd2_tabulate by done.
  assert (Hs : 0 <= dense_sum (fst X) (fst Y) x_cols i j
               <= x_cols * ((upper - 1) * (upper - 1))).
  { split.
    - unfold dense_sum, Zsum.
      enough (forall n lo, 0 <= lo -> lo + Z.of_nat n <= x_cols ->
                0 <= sum_from (fun l => rd2 0 (fst X) i l * rd2 0 (fst Y) l j)
                       lo n) as H by (apply H; lia).
      induction n as [|n IH]; intros lo Hlo Hhi; [simpl; lia|].
      cbn [sum_from]. specialize (IH (lo + 1) ltac:(lia) ltac:(lia)).
      destruct (HXv i lo ltac:(lia) ltac:(lia)) as [_ ?].
      destruct (HYv lo j ltac:(lia) ltac:(lia)) as [_ ?]. nia.
    - pose proof (dense_sum_bound (fst X) (fst Y) x_cols i j
                    (upper - 1) (upper - 1) Hk) as Hb.
      rewrite Z.abs_le in Hb. apply Hb.
      + intros l Hl. destruct (HXv i l ltac:(lia) ltac:(lia)) as [_ ?]. lia.
      + intros l Hl. destruct (HYv l j ltac:(lia) ltac:(lia)) as [_ ?]. lia. }
  rewrite wrap_small by (unfold INT_MIN, INT_MAX in *; lia). done.
Qed.

(** The dimensions and the bound of [main]: a 4x5 array times a 5x3 one,
    entries below 10. *)
Lemma random_product_is_exact_witness :
  5 * ((10 - 1) * (10 - 1)) <= INT_MAX /\
  let rand := fun n => Z.of_nat (7 * n)%nat in
  let junk2 := fun _ _ => 9 in
  let X := fill_rand_2d_array rand (init_2d_array junk2 4 5) 4 5 10 0 in
  let Y := fill_rand_2d_array rand (init_2d_array junk2 5 3) 5 3 10 (snd X) in
  exists Z,
    matrix_multiply junk2 (fst X) (fst Y) 4 5 5 3 = Dense_returned Z /\
    print_matrix (fst X) 4 5 = Some (fst X) /\
    print_matrix (fst Y) 5 3 = Some (fst Y) /\
    print_matrix Z 4 3 = Some Z /\
    forall i j, 0 <= i < 4 -> 0 <= j < 3 ->
      rd2 0 Z i j = dense_sum (fst X) (fst Y) 5 i j /\
      0 <= rd2 0 Z i j <= 5 * ((10 - 1) * (10 - 1)).
Proof.
  split; [by vm_compute|].
  apply (random_product_is_exact (fun _ _ => 9) (fun n => Z.of_nat (7 * n)%nat)
           4 5 3 10); try lia.
  by vm_compute.
Defined.

(** ** The loads of print_CSR_matrix and print_CCS_matrix *)

Lemma column_scan_traced_eqn junk cur_row cur_col cur_ptr val m :
  Traced.column_scan junk cur_row cur_col cur_ptr val m =
  let t := Traced.scan_test junk cur_row cur_col cur_ptr m in
  if fst t then
    let b := Traced.scan_body junk cur_row cur_ptr val (snd t) in
    Traced.column_scan junk cur_row cur_col (cur_ptr + 1) (fst b) (snd b)
  else (val, snd t).
Proof.
  rewrite Traced.column_scan_equation_1. unfold inspect. simpl.
  destruct (Traced.scan_test junk cur_row cur_col cur_ptr m) as [[] m1];
    simpl; [|reflexivity].
  destruct (Traced.scan_body junk cur_row cur_ptr val m1); reflexivity.
Qed.

Section TracedCSR.

Variable junk : array -> Z -> Z.
Variable X : CSR_Matrix.
Hypothesis HX : CSR_wf X.

Let nnz : Z := Z.of_nat (length (CSR.val X)).

(** The loads that [print_CSR_matrix] may do. *)
Let ok (e : event) : Prop :=
  match e with
  | Load X_val k => in_bounds (CSR.val X) k
  | Load X_col_ind k => 0 <= k <= nnz
  | Load X_row_ptr k => in_bounds (CSR.row_ptr X) k
  | _ => False
  end.

Section Line.

Variable i : Z.
Hypothesis Hi : 0 <= i < CSR.num_rows X.

Let lo := get (CSR.row_ptr X) i.
Let hi := get (CSR.row_ptr X) (i + 1).

Lemma print_CSR_cell_spec c ptr line m :
  opX m = X -> 0 <= c < CSR.num_cols X ->
  lo <= ptr <= hi ->
  (forall p, lo <= p < ptr -> get (CSR.col_ind X) p < c) ->
  (ptr < hi -> c <= get (CSR.col_ind X) ptr) ->
  exists ptr' t,
    Traced.print_CSR_cell junk i c (ptr, line) m =
      ((ptr', line ++ [CSR_get X i c]), logs (Load X_col_ind ptr :: t) m) /\
    Forall ok (Load X_col_ind ptr :: t) /\
    lo <= ptr' <= hi /\
    (forall p, lo <= p < ptr' -> get (CSR.col_ind X) p < c + 1) /\
    (ptr' < hi -> c + 1 <= get (CSR.col_ind X) ptr').
Proof.
  intros HmX Hc Hptr Hbelow Hnext.
  pose proof (wf_slice HX i Hi) as Hs.
  pose proof Hs as (Hlo & Hhi & Hinc).
  pose proof (wf_length_ind HX) as Hlen.
  fold lo hi in Hs, Hlo, Hhi, Hinc.
  assert (Hend : peek junk X_row_ptr (i + 1) m = hi).
  { rewrite peek_in_bounds; simpl; rewrite HmX; [done|].
    apply (wf_ptr_in_bounds HX). lia. }
  assert (Hokp : ok (Load X_row_ptr (i + 1))).
  { simpl. apply (wf_ptr_in_bounds HX). lia. }
  assert (Hokc : ok (Load X_col_ind ptr)) by (simpl; unfold nnz; lia).
  unfold Traced.print_CSR_cell, bind, load, ret, log. cbn [fst snd].
  destruct (decide (ptr < hi)) as [Hlt|Hge].
  - assert (Hci : peek junk X_col_ind ptr m = get (CSR.col_ind X) ptr).
    { rewrite peek_in_bounds; simpl; rewrite HmX; [done|].
      unfold in_bounds. lia. }
    assert (Hvi : peek junk X_val ptr m = get (CSR.val X) ptr).
    { rewrite peek_in_bounds; simpl; rewrite HmX; [done|].
      unfold in_bounds. lia. }
    rewrite Hci. destruct (decide (c = get (CSR.col_ind X) ptr)) as [Hm|Hm].
    + rewrite peek_logs, Hend, decide_True by lia.
      rewrite !peek_logs, !logs_logs, Hvi.
      assert (CSR_get X i c = get (CSR.val X) ptr) as ->.
      { apply (slice_get_found _ _ _ _ _ ptr); [exact Hs|lia|done]. }
      exists (ptr + 1). eexists. split; [|split; [|split; [|split]]].
      * reflexivity.
      * each_event; try done. simpl. unfold in_bounds. lia.
      * lia.
      * intros p Hp. destruct (decide (p = ptr)) as [->|]; [lia|].
        specialize (Hbelow p ltac:(lia)). lia.
      * intros Hlt'.
        specialize (Hinc ptr (ptr + 1) ltac:(lia) ltac:(lia) Hlt'). lia.
    + assert (CSR_get X i c = 0) as ->.
      { apply slice_get_none. fold lo hi.
        intros q Hq Heq. destruct (decide (q < ptr)) as [Hqp|Hqp].
        { specialize (Hbelow q ltac:(lia)). lia. }
        specialize (Hnext Hlt).
        destruct (decide (q = ptr)) as [->|]; [done|].
        specialize (Hinc ptr q ltac:(lia) ltac:(lia) ltac:(lia)). lia. }
      exists ptr, []. split; [|split; [|split; [|split]]].
      * reflexivity.
      * each_event; done.
      * lia.
      * intros p Hp. specialize (Hbelow p Hp). lia.
      * intros _. specialize (Hnext Hlt). lia.
  - assert (Hzero : CSR_get X i c = 0).
    { apply slice_get_none. fold lo hi. intros q Hq Heq.
      specialize (Hbelow q ltac:(lia)). lia. }
    rewrite Hzero.
    destruct (decide (c = peek junk X_col_ind ptr m));
      [rewrite peek_logs, Hend, decide_False by lia|];
      rewrite ?logs_logs;
      exists ptr; eexists; (split; [reflexivity|]);
      (split; [each_event; done|]);
      (split; [lia|]); (split; [|intros; lia]);
      intros p Hp; specialize (Hbelow p Hp); lia.
Qed.

(** No entry of row [i] lies in the last column. *)
Let short_row : Prop :=
  0 < CSR.num_cols X /\
  forall p, lo <= p < hi -> get (CSR.col_ind X) p < CSR.num_cols X - 1.

Lemma print_CSR_line_spec out m :
  opX m = X ->
  exists t,
    Traced.print_CSR_line junk i out m =
      (out ++ [CSR_get X i <$> seqZ 0 (CSR.num_cols X)], logs t m) /\
    Forall ok t /\
    (short_row -> Load X_col_ind hi ∈ t).
Proof.
  intros HmX.
  pose proof (wf_slice HX i Hi) as Hs.
  pose proof Hs as (Hlo & Hhi & Hinc).
  pose proof HX as (_ & Hcols & _).
  fold lo hi in Hs, Hlo, Hhi, Hinc.
  unfold Traced.print_CSR_line, bind, load, ret, log, for_each.
  cbn [fst snd]. rewrite HmX.
  assert (peek junk X_row_ptr i m = lo) as ->.
  { rewrite peek_in_bounds; simpl; rewrite HmX; [done|].
    apply (wf_ptr_in_bounds HX). lia. }
  assert (Hokp : ok (Load X_row_ptr i)).
  { simpl. apply (wf_ptr_in_bounds HX). lia. }
  cut (exists ptr t,
         for_loop 0 (CSR.num_cols X)
           (fun c (sm : (Z * list Z) * memory) =>
              Traced.print_CSR_cell junk i c (fst sm) (snd sm))
           ((lo, []), logs [Load X_row_ptr i] m) =
         ((ptr, CSR_get X i <$> seqZ 0 (CSR.num_cols X)),
          logs ([Load X_row_ptr i] ++ t) m) /\
         Forall ok t /\
         lo <= ptr <= hi /\
         (forall p, lo <= p < ptr ->
            get (CSR.col_ind X) p < CSR.num_cols X) /\
         (ptr < hi -> CSR.num_cols X <= get (CSR.col_ind X) ptr) /\
         (CSR.num_cols X = CSR.num_cols X -> short_row ->
          Load X_col_ind hi ∈ t)).
  { intros (ptr & t & -> & Hok & _ & _ & _ & Hlast). cbn [fst snd].
    eexists. split; [reflexivity|]. split; [by each_event|].
    intros Hshort. apply elem_of_app. right. by apply Hlast. }
  apply (for_loop_inv
           (fun c (sm : (Z * list Z) * memory) =>
              exists ptr t,
                sm = ((ptr, CSR_get X i <$> seqZ 0 c),
                      logs ([Load X_row_ptr i] ++ t) m) /\
                Forall ok t /\
                lo <= ptr <= hi /\
                (forall p, lo <= p < ptr -> get (CSR.col_ind X) p < c) /\
                (ptr < hi -> c <= get (CSR.col_ind X) ptr) /\
                (c = CSR.num_cols X -> short_row ->
                 Load X_col_ind hi ∈ t))).
  - done.
  - exists lo, []. split; [done|]. split; [done|]. split; [lia|].
    split; [intros; lia|]. split.
    + intros Hlt. pose proof (wf_length_ind HX) as Hlen.
      pose proof (wf_ind_range HX lo ltac:(lia)). lia.
    + intros Heq [? _]. lia.
  - intros c sm Hc (ptr & t & -> & Hok & Hptr & Hbelow & Hnext & _).
    cbn [fst snd].
    destruct (print_CSR_cell_spec c ptr (CSR_get X i <$> seqZ 0 c)
                (logs ([Load X_row_ptr i] ++ t) m))
      as (ptr' & t' & -> & Hok' & Hptr' & Hbelow' & Hnext');
      [by rewrite opX_logs|lia|done|done|done|].
    exists ptr', (t ++ Load X_col_ind ptr :: t').
    rewrite logs_logs, <- app_assoc, seqZ_snoc, fmap_app by lia.
    split; [done|]. split; [by apply Forall_app|]. split; [done|].
    split; [done|]. split; [done|].
    intros Hlast [_ Hshort]. apply elem_of_app. right.
    assert (ptr = hi) as ->; [|by left].
    destruct (decide (ptr < hi)) as [Hlt|]; [|lia].
    specialize (Hnext Hlt). specialize (Hshort ptr ltac:(lia)). lia.
Qed.

End Line.

Lemma print_CSR_matrix_spec m :
  opX m = X ->
  exists t,
    Traced.print_CSR_matrix junk m = (CSR_to_dense X, logs t m) /\
    Forall ok t /\
    forall i, 0 <= i < CSR.num_rows X -> 0 < CSR.num_cols X ->
      (forall p,
         get (CSR.row_ptr X) i <= p < get (CSR.row_ptr X) (i + 1) ->
         get (CSR.col_ind X) p < CSR.num_cols X - 1) ->
      Load X_col_ind (get (CSR.row_ptr X) (i + 1)) ∈ t.
Proof.
  intros HmX. pose proof HX as (Hrows & _).
  unfold Traced.print_CSR_matrix, for_each, CSR_to_dense, tabulate.
  rewrite HmX.
  apply (for_loop_inv
           (fun n (sm : list (list Z) * memory) =>
              exists t,
                sm = ((fun i => CSR_get X i <$> seqZ 0 (CSR.num_cols X))
                        <$> seqZ 0 n, logs t m) /\
                Forall ok t /\
                forall i, 0 <= i < n -> 0 < CSR.num_cols X ->
                  (forall p,
                     get (CSR.row_ptr X) i <= p
                       < get (CSR.row_ptr X) (i + 1) ->
                     get (CSR.col_ind X) p < CSR.num_cols X - 1) ->
                  Load X_col_ind (get (CSR.row_ptr X) (i + 1)) ∈ t)).
  - done.
  - exists []. rewrite logs_nil. split; [done|]. split; [done|]. intros; lia.
  - intros n sm Hn (t & -> & Hok & Hread). cbn [fst snd].
    destruct (print_CSR_line_spec n Hn
                ((fun i => CSR_get X i <$> seqZ 0 (CSR.num_cols X))
                   <$> seqZ 0 n) (logs t m))
      as (t' & -> & Hok' & Hread'); [by rewrite opX_logs|].
    exists (t ++ t'). rewrite logs_logs, seqZ_snoc, fmap_app by lia.
    split; [done|]. split; [by apply Forall_app|].
    intros i Hi Hcols Hshort. apply elem_of_app.
    destruct (decide (i = n)) as [->|]; [right; by apply Hread'|].
    left. apply Hread; [lia|done|done].
Qed.

Lemma ok_inside m e :
  opX m = X -> ok e -> inside m e \/ e = Load X_col_ind nnz.
Proof.
  intros HmX. destruct e as [a k| | | |]; try done.
  destruct a; try done; simpl; rewrite HmX; auto.
  intros Hk. destruct (decide (k = nnz)) as [->|]; [by right|left].
  unfold in_bounds. rewrite (wf_length_ind HX). fold nnz. lia.
Qed.

End TracedCSR.

Section TracedCCS.

Variable junk : array -> Z -> Z.
Variable Y : CCS_Matrix.
Hypothesis HY : CCS_wf Y.

(** The loads that [print_CCS_matrix] does. *)
Let ok (e : event) : Prop :=
  match e with
  | Load Y_val k => in_bounds (CCS.val Y) k
  | Load Y_row_ind k => in_bounds (CCS.row_ind Y) k
  | Load Y_col_ptr k => in_bounds (CCS.col_ptr Y) k
  | _ => False
  end.

Lemma column_scan_traced_spec i j :
  0 <= j < CCS.num_cols Y ->
  forall n ptr v m,
    opY m = Y ->
    n = Z.to_nat (get (CCS.col_ptr Y) (j + 1) - ptr) ->
    get (CCS.col_ptr Y) j <= ptr <= get (CCS.col_ptr Y) (j + 1) ->
    exists v' t,
      Traced.column_scan junk i j ptr v m = (v', logs t m) /\
      Forall ok t /\
      ((forall q, ptr <= q < get (CCS.col_ptr Y) (j + 1) ->
          get (CCS.row_ind Y) q <> i) -> v' = v) /\
      (forall q, ptr <= q < get (CCS.col_ptr Y) (j + 1) ->
         get (CCS.row_ind Y) q = i -> v' = get (CCS.val Y) q).
Proof.
  intros Hj.
  pose proof (wf_slice HY j Hj) as Hs.
  pose proof Hs as (Hlo & Hhi & Hinc).
  pose proof (wf_length_ind HY) as Hlen.
  set (lo := get (CCS.col_ptr Y) j) in *.
  set (hi := get (CCS.col_ptr Y) (j + 1)) in *.
  assert (Hokp : ok (Load Y_col_ptr (j + 1))).
  { simpl. apply (wf_ptr_in_bounds HY). lia. }
  induction n as [|n IH]; intros ptr v m HmY Hn Hptr;
    rewrite column_scan_traced_eqn; cbv zeta;
    unfold Traced.scan_test, bind, load, ret, log; cbn [fst snd];
    (assert (peek junk Y_col_ptr (j + 1) m = hi) as ->;
     [rewrite peek_in_bounds; simpl; rewrite HmY;
      [done|apply (wf_ptr_in_bounds HY); lia]|]).
  - rewrite decide_False by lia. cbn [fst snd].
    exists v. eexists. split; [reflexivity|]. split; [by each_event|].
    split; [done|]. intros; lia.
  - rewrite decide_True by lia. cbn [fst snd]. rewrite !peek_logs.
    assert (Hri : peek junk Y_row_ind ptr m = get (CCS.row_ind Y) ptr).
    { rewrite peek_in_bounds; simpl; rewrite HmY; [done|].
      unfold in_bounds. lia. }
    assert (Hvi : peek junk Y_val ptr m = get (CCS.val Y) ptr).
    { rewrite peek_in_bounds; simpl; rewrite HmY; [done|].
      unfold in_bounds. lia. }
    assert (Hokr : ok (Load Y_row_ind ptr)).
    { simpl. unfold in_bounds. lia. }
    assert (Hokv : ok (Load Y_val ptr)).
    { simpl. unfold in_bounds. lia. }
    rewrite Hri.
    destruct (bool_decide (get (CCS.row_ind Y) ptr <= i)) eqn:Hle.
    + apply bool_decide_eq_true in Hle.
      unfold Traced.scan_body, bind, load, ret, log. cbn [fst snd].
      rewrite !peek_logs, Hri, !logs_logs.
      destruct (decide (get (CCS.row_ind Y) ptr = i)) as [Heq|Hne];
        cbn [fst snd]; rewrite ?peek_logs, ?logs_logs, ?Hvi;
        match goal with
        | |- context [Traced.column_scan _ _ _ _ ?v1 (logs ?t1 _)] =>
            destruct (IH (ptr + 1) v1 (logs t1 m))
              as (v' & t' & -> & Hok' & Hnone & Hsome);
              [by rewrite opY_logs|lia|lia|]
        end;
        rewrite logs_logs; exists v'; eexists;
        (split; [reflexivity|]);
        (split; [each_event; done|]).
      * split.
        -- intros Habs. exfalso. apply (Habs ptr); [lia|done].
        -- intros q Hq Hqi. destruct (decide (q = ptr)) as [->|].
           ++ apply Hnone. intros q' Hq'.
              specialize (Hinc ptr q' ltac:(lia) ltac:(lia) ltac:(lia)). lia.
           ++ apply Hsome; [lia|done].
      * split.
        -- intros Hno. apply Hnone. intros q Hq. apply Hno. lia.
        -- intros q Hq Hqi. destruct (decide (q = ptr)) as [->|]; [done|].
           apply Hsome; [lia|done].
    + apply bool_decide_eq_false in Hle. cbn [fst snd].
      rewrite logs_logs. exists v. eexists. split; [reflexivity|].
      split; [each_event; done|]. split; [done|].
      intros q Hq Hqi. exfalso.
      destruct (decide (q = ptr)) as [->|]; [lia|].
      specialize (Hinc ptr q ltac:(lia) ltac:(lia) ltac:(lia)). lia.
Qed.

Lemma print_CCS_cell_spec i j line m :
  opY m = Y -> 0 <= j < CCS.num_cols Y ->
  exists t,
    Traced.print_CCS_cell junk i j line m =
      (line ++ [CCS_get Y i j], logs t m) /\
    Forall ok t.
Proof.
  intros HmY Hj.
  pose proof (wf_slice HY j Hj) as Hs.
  pose proof Hs as (Hlo & Hhi & Hinc).
  unfold Traced.print_CCS_cell, bind, load, ret, log. cbn [fst snd].
  assert (peek junk Y_col_ptr j m = get (CCS.col_ptr Y) j) as ->.
  { rewrite peek_in_bounds; simpl; rewrite HmY; [done|].
    apply (wf_ptr_in_bounds HY). lia. }
  destruct (column_scan_traced_spec i j Hj
              (Z.to_nat (get (CCS.col_ptr Y) (j + 1) - get (CCS.col_ptr Y) j))
              (get (CCS.col_ptr Y) j) 0 (logs [Load Y_col_ptr j] m))
    as (v' & t & -> & Hok & Hnone & Hsome);
    [by rewrite opY_logs|reflexivity|lia|].
  cbn [fst snd]. rewrite logs_logs. eexists. split.
  - do 3 f_equal. unfold CCS_get.
    destruct (decide (Exists (fun q => get (CCS.row_ind Y) q = i)
                        (seqZ (get (CCS.col_ptr Y) j)
                           (get (CCS.col_ptr Y) (j + 1)
                            - get (CCS.col_ptr Y) j)))) as [Hyes|Hno].
    + apply Exists_exists in Hyes as (q & Hq & Heq).
      apply elem_of_seqZ in Hq.
      rewrite (Hsome q ltac:(lia) Heq). symmetry.
      apply (slice_get_found _ _ _ _ _ q); [exact Hs|lia|done].
    + assert (Hnot : forall q,
                 get (CCS.col_ptr Y) j <= q < get (CCS.col_ptr Y) (j + 1) ->
                 get (CCS.row_ind Y) q <> i).
      { intros q Hq Heq. apply Hno, Exists_exists. exists q.
        split; [apply elem_of_seqZ; lia|done]. }
      rewrite Hnone by done. symmetry. by apply slice_get_none.
  - each_event; [|done]. simpl. apply (wf_ptr_in_bounds HY). lia.
Qed.

Lemma print_CCS_line_spec i out m :
  opY m = Y ->
  exists t,
    Traced.print_CCS_line junk i out m =
      (out ++ [CCS_get Y i <$> seqZ 0 (CCS.num_cols Y)], logs t m) /\
    Forall ok t.
Proof.
  intros HmY. pose proof HY as (Hcols & _).
  unfold Traced.print_CCS_line, bind, ret, for_each. rewrite HmY.
  cut (exists t,
         for_loop 0 (CCS.num_cols Y)
           (fun j (sm : list Z * memory) =>
              Traced.print_CCS_cell junk i j (fst sm) (snd sm)) ([], m) =
         (CCS_get Y i <$> seqZ 0 (CCS.num_cols Y), logs t m) /\
         Forall ok t).
  { intros (t & -> & Hok). cbn [fst snd]. eauto. }
  apply (for_loop_inv
           (fun j (sm : list Z * memory) =>
              exists t,
                sm = (CCS_get Y i <$> seqZ 0 j, logs t m) /\ Forall ok t)).
  - done.
  - exists []. by rewrite logs_nil.
  - intros j sm Hj (t & -> & Hok). cbn [fst snd].
    destruct (print_CCS_cell_spec i j (CCS_get Y i <$> seqZ 0 j) (logs t m))
      as (t' & -> & Hok'); [by rewrite opY_logs|lia|].
    exists (t ++ t'). rewrite logs_logs, seqZ_snoc, fmap_app by lia.
    split; [done|]. by apply Forall_app.
Qed.

Lemma print_CCS_matrix_spec m :
  opY m = Y ->
  exists t,
    Traced.print_CCS_matrix junk m = (CCS_to_dense Y, logs t m) /\
    Forall ok t.
Proof.
  intros HmY. pose proof HY as (_ & Hrows & _).
  unfold Traced.print_CCS_matrix, for_each, CCS_to_dense, tabulate.
  rewrite HmY.
  apply (for_loop_inv
           (fun n (sm : list (list Z) * memory) =>
              exists t,
                sm = ((fun i => CCS_get Y i <$> seqZ 0 (CCS.num_cols Y))
                        <$> seqZ 0 n, logs t m) /\
                Forall ok t)).
  - done.
  - exists []. by rewrite logs_nil.
  - intros n sm Hn (t & -> & Hok). cbn [fst snd].
    destruct (print_CCS_line_spec n
                ((fun i => CCS_get Y i <$> seqZ 0 (CCS.num_cols Y))
                   <$> seqZ 0 n) (logs t m))
      as (t' & -> & Hok'); [by rewrite opY_logs|].
    exists (t ++ t'). rewrite logs_logs, seqZ_snoc, fmap_app by lia.
    split; [done|]. by apply Forall_app.
Qed.

Lemma ok_CCS_inside m e : opY m = Y -> ok e -> inside m e.
Proof.
  intros HmY. destruct e as [a k| | | |]; try done.
  destruct a; try done; simpl; by rewrite HmY.
Qed.

End TracedCCS.

(** X12: run on a well-formed matrix, [print_CSR_matrix] prints its dense
    form and only loads, but not always inside the buffers: it reads
    [R->col_ind[cur_ptr]] before it compares [cur_ptr] with the end of the
    row, so that for each row with no entry in the last column it reads
    [col_ind] at the end of the row's slice; for the last row that is the
    cell after the last one of [col_ind]. No load is further out than that. *)
Theorem print_CSR_matrix_reads_past_col_ind junk m :
  CSR_wf (opX m) ->
  let X := opX m in
  let nnz := Z.of_nat (length (CSR.val X)) in
  exists t,
    Traced.print_CSR_matrix junk m = (CSR_to_dense X, logs t m) /\
    Forall (fun e => inside m e \/ e = Load X_col_ind nnz) t /\
    forall i, 0 <= i < CSR.num_rows X -> 0 < CSR.num_cols X ->
      (forall p,
         get (CSR.row_ptr X) i <= p < get (CSR.row_ptr X) (i + 1) ->
         get (CSR.col_ind X) p < CSR.num_cols X - 1) ->
      Load X_col_ind (get (CSR.row_ptr X) (i + 1)) ∈ t /\
      (i = CSR.num_rows X - 1 ->
       ~ in_bounds (CSR.col_ind X) (get (CSR.row_ptr X) (i + 1))).
Proof.
  intros HX X nnz.
  destruct (print_CSR_matrix_spec junk X HX m eq_refl) as (t & Heq & Hok & Hrd).
  exists t. split; [exact Heq|]. split.
  - eapply Forall_impl; [exact Hok|]. intros e He.
    by apply (ok_inside X HX).
  - intros i Hi Hcols Hshort. split; [by apply Hrd|].
    intros ->. replace (CSR.num_rows X - 1 + 1) with (CSR.num_rows X) by lia.
    destruct HX as (_ & _ & _ & _ & _ & Hlast & Hlen & _).
    fold X in Hlast, Hlen.
    unfold in_bounds. rewrite Hlast, Hlen. lia.
Qed.

Lemma print_CSR_matrix_reads_past_col_ind_witness :
  CSR_wf (opX (start zero_X gap_Y)) /\
  exists t,
    Traced.print_CSR_matrix no_junk (start zero_X gap_Y) =
      (CSR_to_dense zero_X, logs t (start zero_X gap_Y)) /\
    Forall (fun e => inside (start zero_X gap_Y) e \/ e = Load X_col_ind 0) t /\
    forall i, 0 <= i < 1 -> 0 < 1 ->
      (forall p,
         get (CSR.row_ptr zero_X) i <= p < get (CSR.row_ptr zero_X) (i + 1) ->
         get (CSR.col_ind zero_X) p < 1 - 1) ->
      Load X_col_ind (get (CSR.row_ptr zero_X) (i + 1)) ∈ t /\
      (i = 1 - 1 ->
       ~ in_bounds (CSR.col_ind zero_X) (get (CSR.row_ptr zero_X) (i + 1))).
Proof.
  assert (HX : CSR_wf (opX (start zero_X gap_Y)))
    by (apply (bool_decide_unpack _); vm_compute; exact I).
  split; [exact HX|].
  exact (print_CSR_matrix_reads_past_col_ind no_junk (start zero_X gap_Y) HX).
Defined.

(** X13: run on a well-formed matrix, [print_CCS_matrix] prints its dense
    form and only loads, each of them inside the buffer it reads: it
    compares [cur_ptr] with the end of the column before it reads
    [R->row_ind[cur_ptr]]. *)
Theorem print_CCS_matrix_reads_inside junk m :
  CCS_wf (opY m) ->
  exists t,
    Traced.print_CCS_matrix junk m = (CCS_to_dense (opY m), logs t m) /\
    Forall (inside m) t.
Proof.
  intros HY.
  destruct (print_CCS_matrix_spec junk (opY m) HY m eq_refl)
    as (t & Heq & Hok).
  exists t. split; [exact Heq|].
  eapply Forall_impl; [exact Hok|]. intros e He.
  by apply (ok_CCS_inside (opY m)).
Qed.

Lemma print_CCS_matrix_reads_inside_witness :
  CCS_wf (opY (start main_X main_Y)) /\
  exists t,
    Traced.print_CCS_matrix no_junk (start main_X main_Y) =
      (CCS_to_dense (opY (start main_X main_Y)),
       logs t (start main_X main_Y)) /\
    Forall (inside (start main_X main_Y)) t.
Proof.
  assert (HY : CCS_wf (opY (start main_X main_Y)))
    by (apply (bool_decide_unpack _); vm_compute; exact I).
  split; [exact HY|].
  exact (print_CCS_matrix_reads_inside no_junk (start main_X main_Y) HY).
Defined.

(** ** Allocating and freeing *)

Lemma lookup_at {A} (h : list A) x t : (h ++ x :: t) !! length h = Some x.
Proof. by apply list_lookup_middle. Qed.

Lemma insert_at {A} (h : list A) x y t :
  <[length h := y]> (h ++ x :: t) = h ++ y :: t.
Proof.
  rewrite insert_app_r_alt by lia. by rewrite Nat.sub_diag.
Qed.

Lemma bind_done {A B} (c : Heap.H A) (k : A -> Heap.H B) h a h' :
  c h = Heap.Done a h' -> Heap.bind c k h = k a h'.
Proof. unfold Heap.bind. by intros ->. Qed.

Lemma bind_exited {A B} (c : Heap.H A) (k : A -> Heap.H B) h status err :
  c h = Heap.Exited status err -> Heap.bind c k h = Heap.Exited status err.
Proof. unfold Heap.bind. by intros ->. Qed.

Lemma bind_fault {A B} (c : Heap.H A) (k : A -> Heap.H B) h :
  c h = Heap.Fault -> Heap.bind c k h = Heap.Fault.
Proof. unfold Heap.bind. by intros ->. Qed.

Lemma table_step (a i n : nat) :
  (i < n)%nat ->
  <[i := Heap.Ptr (a + i)]>
    ((Heap.Ptr <$> seq a i) ++ replicate (n - i) Heap.Undef) =
  (Heap.Ptr <$> seq a (S i)) ++ replicate (n - S i) Heap.Undef.
Proof.
  intros Hi.
  rewrite insert_app_r_alt by (rewrite length_fmap, length_seq; lia).
  rewrite length_fmap, length_seq, Nat.sub_diag.
  replace (n - i)%nat with (S (n - S i)) by lia.
  rewrite seq_S, fmap_app, <- app_assoc. reflexivity.
Qed.

Lemma for_each_heap_inv (I : Z -> Heap.result unit -> Prop) lo hi body h :
  lo <= hi ->
  I lo (Heap.Done tt h) ->
  (forall i h', lo <= i < hi -> I i (Heap.Done tt h') ->
     I (i + 1) (body i h')) ->
  (forall i status err, lo <= i < hi -> I i (Heap.Exited status err) ->
     I (i + 1) (Heap.Exited status err)) ->
  (forall i, lo <= i < hi -> I i Heap.Fault -> I (i + 1) Heap.Fault) ->
  I hi (Heap.for_each lo hi body h).
Proof.
  intros Hle H0 Hdone Hexit Hfault. unfold Heap.for_each.
  apply (for_loop_inv I); [done|done|].
  intros i [[] h'|status err|] Hi Hr; auto.
Qed.

Lemma Malloc_cases grants n h :
  Heap.Malloc grants n h =
    Heap.Done (length h) (h ++ [Some (replicate (Z.to_nat n) Heap.Undef)]) \/
  Heap.Malloc grants n h = Heap.Exited EXIT_FAILURE ["Malloc"%string].
Proof. unfold Heap.Malloc. destruct (grants h n); auto. Qed.

Lemma init_2d_array_rows grants rows cols h :
  0 <= rows ->
  let body := fun i =>
    Heap.bind (Heap.Malloc grants cols)
      (fun p => Heap.store (length h) i (Heap.Ptr p)) in
  Heap.for_each 0 rows body
    (h ++ [Some (replicate (Z.to_nat rows) Heap.Undef)]) =
    Heap.Done tt (with_2d_array h rows cols) \/
  Heap.for_each 0 rows body
    (h ++ [Some (replicate (Z.to_nat rows) Heap.Undef)]) =
    Heap.Exited EXIT_FAILURE ["Malloc"%string].
Proof.
  intros Hrows body.
  set (rn := Z.to_nat rows). set (cn := Z.to_nat cols).
  cut (Heap.for_each 0 rows body (h ++ [Some (replicate rn Heap.Undef)]) =
         Heap.Done tt
           (h ++
            Some ((Heap.Ptr <$> seq (S (length h)) (Z.to_nat rows)) ++
                  replicate (rn - Z.to_nat rows) Heap.Undef) ::
            replicate (Z.to_nat rows) (Some (replicate cn Heap.Undef))) \/
       Heap.for_each 0 rows body (h ++ [Some (replicate rn Heap.Undef)]) =
         Heap.Exited EXIT_FAILURE ["Malloc"%string]).
  { intros [Hd|He]; [left|by right]. rewrite Hd. unfold with_2d_array.
    fold rn cn. by rewrite Nat.sub_diag, app_nil_r. }
  apply (for_each_heap_inv
           (fun i r =>
              r = Heap.Done tt
                    (h ++
                     Some ((Heap.Ptr <$> seq (S (length h)) (Z.to_nat i)) ++
                           replicate (rn - Z.to_nat i) Heap.Undef) ::
                     replicate (Z.to_nat i)
                       (Some (replicate cn Heap.Undef))) \/
              r = Heap.Exited EXIT_FAILURE ["Malloc"%string])).
  - done.
  - left. simpl. by rewrite Nat.sub_0_r.
  - intros i h' Hi [[= ->]|[=]].
    unfold body, Heap.bind.
    match goal with |- context [Heap.Malloc grants cols ?h0] =>
      destruct (Malloc_cases grants cols h0) as [-> | ->] end; [left|by right].
    rewrite length_app. cbn [length]. rewrite length_replicate.
    unfold Heap.store. rewrite <- app_assoc. cbn [app].
    rewrite lookup_at.
    rewrite decide_True
      by (rewrite length_app, length_fmap, length_seq, length_replicate;
          unfold rn; lia).
    f_equal. rewrite insert_at. do 2 f_equal.
    + replace (length h + S (Z.to_nat i))%nat
        with (S (length h) + Z.to_nat i)%nat by lia.
      rewrite table_step by (unfold rn; lia).
      by replace (Z.to_nat (i + 1)) with (S (Z.to_nat i)) by lia.
    + replace (Z.to_nat (i + 1)) with (S (Z.to_nat i)) by lia.
      by rewrite replicate_S_end.
  - intros i status err Hi [[=]|[= -> ->]]. by right.
  - intros i Hi [[=]|[=]].
Qed.

Lemma with_2d_array_is_2d_array h rows cols :
  is_2d_array (with_2d_array h rows cols) (length h)
    (seq (S (length h)) (Z.to_nat rows)).
Proof.
  set (a := length h). set (rn := Z.to_nat rows). set (cn := Z.to_nat cols).
  unfold is_2d_array, with_2d_array. fold a rn cn. split; [apply lookup_at|].
  split.
  - apply NoDup_cons. split; [rewrite elem_of_seq; lia|apply NoDup_seq].
  - apply Forall_forall. intros b Hb%elem_of_seq.
    exists (replicate cn Heap.Undef).
    rewrite lookup_app_r by (fold a; lia). fold a.
    replace (b - a)%nat with (S (b - S a)) by lia. cbn [lookup list_lookup].
    apply lookup_replicate_2. lia.
Qed.

(** X14: [init_2d_array] either allocates the whole array, a table of [rows]
    pointers to [rows] new blocks of [cols] cells each, after the blocks
    there were, which it leaves alone, or it exits with [EXIT_FAILURE]
    because [malloc] found no memory. It never returns an array built in
    part, and it has no undefined behaviour. *)
Theorem init_2d_array_all_or_exit grants rows cols h :
  0 <= rows ->
  (Heap.init_2d_array grants rows cols h =
     Heap.Done (length h) (with_2d_array h rows cols) /\
   is_2d_array (with_2d_array h rows cols) (length h)
     (seq (S (length h)) (Z.to_nat rows))) \/
  Heap.init_2d_array grants rows cols h =
    Heap.Exited EXIT_FAILURE ["Malloc"%string].
Proof.
  intros Hrows. unfold Heap.init_2d_array.
  destruct (Malloc_cases grants rows h) as [Hm|Hm];
    [rewrite (bind_done _ _ _ _ _ Hm)|rewrite (bind_exited _ _ _ _ _ Hm)];
    [|by right].
  destruct (init_2d_array_rows grants rows cols h Hrows) as [Hl|Hl];
    [rewrite (bind_done _ _ _ _ _ Hl)|rewrite (bind_exited _ _ _ _ _ Hl)];
    [left|by right].
  split; [done|apply with_2d_array_is_2d_array].
Qed.

Lemma init_2d_array_all_or_exit_witness :
  0 <= 4 /\
  ((Heap.init_2d_array (fun _ _ => true) 4 5 [] =
      Heap.Done (length ([] : Heap.heap)) (with_2d_array [] 4 5) /\
    is_2d_array (with_2d_array [] 4 5) (length ([] : Heap.heap))
      (seq (S (length ([] : Heap.heap))) (Z.to_nat 4))) \/
   Heap.init_2d_array (fun _ _ => true) 4 5 [] =
     Heap.Exited EXIT_FAILURE ["Malloc"%string]).
Proof.
  split; [lia|].
  apply (init_2d_array_all_or_exit (fun _ _ => true) 4 5 []). lia.
Defined.

Lemma load_ptr_table h R bs i b :
  h !! R = Some (Some (Heap.Ptr <$> bs)) -> 0 <= i ->
  bs !! Z.to_nat i = Some b ->
  Heap.load_ptr R i h = Heap.Done b h.
Proof.
  intros HR Hi Hb. unfold Heap.load_ptr, Heap.bind, Heap.load.
  rewrite HR, decide_True by done.
  by rewrite list_lookup_fmap, Hb.
Qed.

Lemma load_ptr_freed h R i : freed h R -> Heap.load_ptr R i h = Heap.Fault.
Proof.
  intros HR. unfold Heap.load_ptr, Heap.bind, Heap.load. by rewrite HR.
Qed.

Lemma free_live h b :
  live h b -> Heap.free b h = Heap.Done tt (<[b := None]> h).
Proof. intros [block Hb]. unfold Heap.free. by rewrite Hb. Qed.

Lemma free_freed h b : freed h b -> Heap.free b h = Heap.Fault.
Proof. intros Hb. unfold Heap.free. by rewrite Hb. Qed.

Lemma live_lt h b : live h b -> (b < length h)%nat.
Proof. intros [block Hb]. by eapply lookup_lt_Some. Qed.

(** The loop of [free_2d_array]: after [i] turns the first [i] rows are
    freed and nothing else has changed. *)
Lemma free_rows_spec h R bs :
  is_2d_array h R bs ->
  exists h',
    Heap.for_each 0 (Z.of_nat (length bs))
      (fun i => Heap.bind (Heap.load_ptr R i) Heap.free) h =
      Heap.Done tt h' /\
    length h' = length h /\
    forall b, h' !! b = if decide (b ∈ bs) then Some None else h !! b.
Proof.
  intros (HR & Hnd & Hlive).
  apply NoDup_cons in Hnd as [HRbs Hnd].
  cut (exists h',
         Heap.for_each 0 (Z.of_nat (length bs))
           (fun i => Heap.bind (Heap.load_ptr R i) Heap.free) h =
           Heap.Done tt h' /\
         length h' = length h /\
         forall b, h' !! b =
                   if decide (b ∈ take (Z.to_nat (Z.of_nat (length bs))) bs)
                   then Some None else h !! b).
  { intros (h' & Hrun & Hlen & Hlook). exists h'.
    rewrite Nat2Z.id, firstn_all in Hlook. done. }
  pose (I := fun (i : Z) (r : Heap.result unit) =>
              exists h',
                r = Heap.Done tt h' /\ length h' = length h /\
                forall b, h' !! b =
                          if decide (b ∈ take (Z.to_nat i) bs)
                          then Some None else h !! b).
  apply (for_each_heap_inv I); unfold I.
  - lia.
  - exists h. split; [done|]. split; [done|]. intros b.
    rewrite decide_False; [done|]. simpl. apply not_elem_of_nil.
  - intros i hi Hi (? & [= <-] & Hlen & Hlook).
    destruct (lookup_lt_is_Some_2 bs (Z.to_nat i) ltac:(lia)) as [bi Hbi].
    assert (Hbi_in : bi ∈ bs) by (by eapply list_elem_of_lookup_2).
    assert (Hbi_new : bi ∉ take (Z.to_nat i) bs).
    { intros (k & Hk & Hlt)%elem_of_take.
      pose proof (NoDup_lookup _ _ _ _ Hnd Hk Hbi). lia. }
    assert (HRi : hi !! R = Some (Some (Heap.Ptr <$> bs))).
    { rewrite Hlook, decide_False; [done|].
      intros (k & Hk & _)%elem_of_take. apply HRbs.
      by eapply list_elem_of_lookup_2. }
    rewrite (bind_done _ _ _ _ _ (load_ptr_table hi R bs i bi HRi
                                    ltac:(lia) Hbi)).
    assert (Hbi_live : live hi bi).
    { rewrite Forall_forall in Hlive. destruct (Hlive bi Hbi_in) as [bl Hbl].
      exists bl. by rewrite Hlook, decide_False. }
    rewrite (free_live _ _ Hbi_live).
    eexists. split; [reflexivity|]. split; [by rewrite length_insert|].
    intros b. replace (Z.to_nat (i + 1)) with (S (Z.to_nat i)) by lia.
    rewrite (take_S_r _ _ _ Hbi).
    destruct (decide (b = bi)) as [->|Hne].
    + rewrite list_lookup_insert_eq by (by apply live_lt).
      rewrite decide_True; [done|]. apply elem_of_app. right. by left.
    + rewrite list_lookup_insert_ne by done. rewrite Hlook.
      destruct (decide (b ∈ take (Z.to_nat i) bs)) as [Hin|Hnin].
      * rewrite decide_True; [done|]. apply elem_of_app. by left.
      * rewrite decide_False; [done|].
        intros [?|?%list_elem_of_singleton]%elem_of_app; done.
  - intros i status err Hi (? & [=] & _).
  - intros i Hi (? & [=] & _).
Qed.

(** X15: on an array of [rows] rows, [free_2d_array] frees each row and the
    table once and touches no other block, whatever [num_cols] it is given;
    run again on the same pointer it has undefined behaviour. *)
Theorem free_2d_array_frees_rows_and_table h R bs rows cols :
  is_2d_array h R bs -> rows = Z.of_nat (length bs) ->
  exists h',
    Heap.free_2d_array R rows cols h = Heap.Done tt h' /\
    length h' = length h /\
    (forall b, b ∈ R :: bs -> freed h' b) /\
    (forall b, b ∉ R :: bs -> h' !! b = h !! b) /\
    Heap.free_2d_array R rows cols h' = Heap.Fault.
Proof.
  intros Harr ->. pose proof Harr as (HR & Hnd & Hlive).
  apply NoDup_cons in Hnd as [HRbs Hnd].
  destruct (free_rows_spec h R bs Harr) as (h1 & Hrun & Hlen & Hlook).
  assert (HR1 : live h1 R).
  { exists (Heap.Ptr <$> bs). by rewrite Hlook, decide_False. }
  exists (<[R := None]> h1).
  assert (Hfreed : forall b, b ∈ R :: bs -> freed (<[R := None]> h1) b).
  { intros b Hb. unfold freed. destruct (decide (b = R)) as [->|Hne].
    - apply list_lookup_insert_eq. by apply live_lt.
    - rewrite list_lookup_insert_ne by done.
      apply elem_of_cons in Hb as [?|Hb]; [done|].
      by rewrite Hlook, decide_True. }
  split; [|split; [|split; [|split]]].
  - unfold Heap.free_2d_array.
    rewrite (bind_done _ _ _ _ _ Hrun). by apply free_live.
  - by rewrite length_insert.
  - exact Hfreed.
  - intros b Hb. apply not_elem_of_cons in Hb as [? ?].
    rewrite list_lookup_insert_ne by done.
    by rewrite Hlook, decide_False.
  - unfold Heap.free_2d_array.
    assert (HRdead : freed (<[R := None]> h1) R) by (apply Hfreed; by left).
    destruct bs as [|b0 bs'].
    + cbn [length]. change (Z.of_nat 0) with 0.
      unfold Heap.bind, Heap.for_each. rewrite for_loop_done by lia.
      by apply free_freed.
    + apply bind_fault.
      pose (I := fun (i : Z) (r : Heap.result unit) =>
                  (i = 0 /\ r = Heap.Done tt (<[R := None]> h1)) \/
                  (0 < i /\ r = Heap.Fault)).
      assert (Hloop : I (Z.of_nat (length (b0 :: bs')))
                        (Heap.for_each 0 (Z.of_nat (length (b0 :: bs')))
                           (fun i => Heap.bind (Heap.load_ptr R i) Heap.free)
                           (<[R := None]> h1))).
      { apply (for_each_heap_inv I); unfold I.
        - lia.
        - by left.
        - intros i h' Hi [[-> [= ->]]|[_ [=]]]. right. split; [lia|].
          apply bind_fault. by apply load_ptr_freed.
        - intros i status err Hi [[_ [=]]|[_ [=]]].
        - intros i Hi _. right. split; [lia|done]. }
      destruct Hloop as [[Hz _]|[_ Hf]]; [cbn [length] in Hz; lia|exact Hf].
Qed.

(** An array allocated by [init_2d_array] and freed by [free_2d_array]:
    the blocks that were there are as before, the new ones are all
    freed. *)
Lemma free_2d_array_frees_rows_and_table_witness :
  is_2d_array (with_2d_array [] 4 5) 0 (seq 1 4) /\
  exists h',
    Heap.free_2d_array 0 4 5 (with_2d_array [] 4 5) = Heap.Done tt h' /\
    length h' = length (with_2d_array [] 4 5) /\
    (forall b, b ∈ 0%nat :: seq 1 4 -> freed h' b) /\
    (forall b, b ∉ 0%nat :: seq 1 4 ->
       h' !! b = with_2d_array [] 4 5 !! b) /\
    Heap.free_2d_array 0 4 5 h' = Heap.Fault.
Proof.
  split; [exact (with_2d_array_is_2d_array [] 4 5)|].
  apply (free_2d_array_frees_rows_and_table (with_2d_array [] 4 5) 0
           (seq 1 4) 4 5).
  - exact (with_2d_array_is_2d_array [] 4 5).
  - reflexivity.
Defined.

Lemma with_matrix_is_matrix h num_val ptrs rows cols :
  is_matrix (with_matrix h num_val ptrs rows cols) (length h)
    (S (length h)) (S (S (length h))) (S (S (S (length h)))).
Proof.
  unfold is_matrix, with_matrix. split; [|split; [|split; [|split]]].
  - eexists. apply lookup_at.
  - repeat (apply NoDup_cons; split);
      rewrite ?elem_of_cons, ?elem_of_nil; try lia. apply NoDup_nil_2.
  - eexists. rewrite lookup_app_r by lia.
    replace (S (length h) - length h)%nat with 1%nat by lia. reflexivity.
  - eexists. rewrite lookup_app_r by lia.
    replace (S (S (length h)) - length h)%nat with 2%nat by lia. reflexivity.
  - eexists. rewrite lookup_app_r by lia.
    replace (S (S (S (length h))) - length h)%nat with 3%nat by lia.
    reflexivity.
Qed.

(** One call of [Malloc] in a sequence: it returns the next block, or the
    whole sequence exits. *)
Ltac malloc_step grants :=
  match goal with
  | |- context [Heap.bind (Heap.Malloc grants ?n) _ ?h0] =>
      let Hm := fresh "Hm" in
      destruct (Malloc_cases grants n h0) as [Hm|Hm];
      [rewrite !(bind_done _ _ _ _ _ Hm)
      |rewrite !(bind_exited _ _ _ _ _ Hm); by right];
      clear Hm
  end.

(** One store into the structure that heads the blocks just allocated. *)
Lemma store_struct h block t k c :
  0 <= k < Z.of_nat (length block) ->
  Heap.store (length h) k c (h ++ Some block :: t) =
  Heap.Done tt (h ++ Some (<[Z.to_nat k := c]> block) :: t).
Proof.
  intros Hk. unfold Heap.store. rewrite lookup_at, decide_True by done.
  by rewrite insert_at.
Qed.

(** The two [init_] functions for compressed matrices run the same
    statements, with [ptrs] cells for the pointer array. *)
Lemma init_matrix_outcome grants num_val ptrs rows cols h :
  let init :=
    Heap.bind (Heap.Malloc grants 5) (fun R =>
    Heap.bind (Heap.Malloc grants num_val) (fun v =>
    Heap.bind (Heap.store R Heap.val (Heap.Ptr v)) (fun _ =>
    Heap.bind (Heap.Malloc grants num_val) (fun c =>
    Heap.bind (Heap.store R Heap.ind (Heap.Ptr c)) (fun _ =>
    Heap.bind (Heap.Malloc grants ptrs) (fun p =>
    Heap.bind (Heap.store R Heap.ptr (Heap.Ptr p)) (fun _ =>
    Heap.bind (Heap.store R Heap.num_rows (Heap.Int rows)) (fun _ =>
    Heap.bind (Heap.store R Heap.num_cols (Heap.Int cols)) (fun _ =>
    Heap.ret R))))))))) in
  init h = Heap.Done (length h) (with_matrix h num_val ptrs rows cols) \/
  init h = Heap.Exited EXIT_FAILURE ["Malloc"%string].
Proof.
  intros init. unfold init.
  malloc_step grants. malloc_step grants.
  rewrite <- !app_assoc. cbn [app].
  erewrite !bind_done by (apply store_struct; by vm_compute).
  malloc_step grants.
  rewrite <- !app_assoc. cbn [app].
  erewrite !bind_done by (apply store_struct; by vm_compute).
  malloc_step grants.
  rewrite <- !app_assoc. cbn [app].
  erewrite !bind_done by (apply store_struct; by vm_compute).
  left. unfold Heap.ret, with_matrix. do 3 f_equal.
  rewrite !length_app. cbn [length].
  replace (length h + 3)%nat with (S (S (S (length h)))) by lia.
  replace (length h + 2)%nat with (S (S (length h))) by lia.
  replace (length h + 1)%nat with (S (length h)) by lia.
  reflexivity.
Qed.

(** X16: [init_CSR_matrix] either allocates the structure and its three
    arrays, [val] and [col_ind] of [num_val] cells and [row_ptr] of
    [num_rows + 1] cells, after the blocks there were, or it exits with
    [EXIT_FAILURE] because [malloc] found no memory; it has no undefined
    behaviour. *)
Theorem init_CSR_matrix_all_or_exit grants num_val rows cols h :
  (Heap.init_CSR_matrix grants num_val rows cols h =
     Heap.Done (length h) (with_matrix h num_val (rows + 1) rows cols) /\
   is_matrix (with_matrix h num_val (rows + 1) rows cols) (length h)
     (S (length h)) (S (S (length h))) (S (S (S (length h))))) \/
  Heap.init_CSR_matrix grants num_val rows cols h =
    Heap.Exited EXIT_FAILURE ["Malloc"%string].
Proof.
  destruct (init_matrix_outcome grants num_val (rows + 1) rows cols h)
    as [Hd|He]; [left|by right].
  split; [exact Hd|apply with_matrix_is_matrix].
Qed.

Lemma init_CSR_matrix_all_or_exit_witness :
  (Heap.init_CSR_matrix (fun _ _ => true) 6 7 5 [] =
     Heap.Done 0%nat (with_matrix [] 6 (7 + 1) 7 5) /\
   is_matrix (with_matrix [] 6 (7 + 1) 7 5) 0 1 2 3) \/
  Heap.init_CSR_matrix (fun _ _ => true) 6 7 5 [] =
    Heap.Exited EXIT_FAILURE ["Malloc"%string].
Proof. exact (init_CSR_matrix_all_or_exit (fun _ _ => true) 6 7 5 []). Defined.

Lemma load_ptr_field h R block k b :
  h !! R = Some (Some block) -> 0 <= k ->
  block !! Z.to_nat k = Some (Heap.Ptr b) ->
  Heap.load_ptr R k h = Heap.Done b h.
Proof.
  intros HR Hk Hb. unfold Heap.load_ptr, Heap.bind, Heap.load.
  by rewrite HR, decide_True, Hb by done.
Qed.

Lemma lookup_kill (h : Heap.heap) b b' :
  b' <> b -> <[b := None]> h !! b' = h !! b'.
Proof. intros. by apply list_lookup_insert_ne. Qed.

Lemma live_kill (h : Heap.heap) b b' :
  b' <> b -> live h b' -> live (<[b := None]> h) b'.
Proof. intros Hne [bl Hb]. exists bl. by rewrite lookup_kill. Qed.

Lemma freed_kill_eq (h : Heap.heap) b : live h b -> freed (<[b := None]> h) b.
Proof. intros Hb. apply list_lookup_insert_eq. by apply live_lt. Qed.

Lemma freed_kill (h : Heap.heap) b b' :
  freed h b' -> freed (<[b := None]> h) b'.
Proof.
  intros Hb. unfold freed. destruct (decide (b' = b)) as [->|Hne].
  - apply list_lookup_insert_eq. by eapply lookup_lt_Some.
  - by rewrite lookup_kill.
Qed.

(** The two [free_] functions for compressed matrices run the same
    statements. *)
Lemma free_matrix_spec h R v i p :
  is_matrix h R v i p ->
  let free_matrix :=
    Heap.bind (Heap.load_ptr R Heap.val) (fun v =>
    Heap.bind (Heap.free v) (fun _ =>
    Heap.bind (Heap.load_ptr R Heap.ind) (fun c =>
    Heap.bind (Heap.free c) (fun _ =>
    Heap.bind (Heap.load_ptr R Heap.ptr) (fun p =>
    Heap.bind (Heap.free p) (fun _ =>
    Heap.free R)))))) in
  exists h',
    free_matrix h = Heap.Done tt h' /\
    length h' = length h /\
    (forall b, b ∈ [R; v; i; p] -> freed h' b) /\
    (forall b, b ∉ [R; v; i; p] -> h' !! b = h !! b) /\
    free_matrix h' = Heap.Fault.
Proof.
  intros ([dims HR] & Hnd & Hv & Hi & Hp) free_matrix.
  assert (Hne : R <> v /\ R <> i /\ R <> p /\ v <> i /\ v <> p /\ i <> p).
  { repeat (apply NoDup_cons in Hnd as [? Hnd]).
    repeat match goal with
           | H : _ ∉ _ |- _ =>
               rewrite ?not_elem_of_cons in H; destruct H as [? H]
           end.
    tauto. }
  destruct Hne as (HRv & HRi & HRp & Hvi & Hvp & Hip).
  assert (HRlive : live h R) by (eexists; exact HR).
  set (h1 := <[v := None]> h).
  set (h2 := <[i := None]> h1).
  set (h3 := <[p := None]> h2).
  exists (<[R := None]> h3).
  assert (Hrun : free_matrix h = Heap.Done tt (<[R := None]> h3)).
  { unfold free_matrix.
    rewrite (bind_done _ _ _ _ _ (load_ptr_field h R _ Heap.val v HR
                                    ltac:(done) eq_refl)).
    rewrite (bind_done _ _ _ _ _ (free_live h v Hv)). fold h1.
    assert (HR1 : h1 !! R = h !! R) by (by apply lookup_kill).
    rewrite HR in HR1.
    rewrite (bind_done _ _ _ _ _ (load_ptr_field h1 R _ Heap.ind i HR1
                                    ltac:(done) eq_refl)).
    rewrite (bind_done _ _ _ _ _
               (free_live h1 i (live_kill h v i ltac:(done) Hi))).
    fold h2.
    assert (HR2 : h2 !! R = h1 !! R) by (by apply lookup_kill).
    rewrite HR1 in HR2.
    rewrite (bind_done _ _ _ _ _ (load_ptr_field h2 R _ Heap.ptr p HR2
                                    ltac:(done) eq_refl)).
    rewrite (bind_done _ _ _ _ _
               (free_live h2 p
                  (live_kill h1 i p ltac:(done)
                     (live_kill h v p ltac:(done) Hp)))).
    fold h3. apply free_live.
    repeat apply live_kill; done. }
  assert (Hfreed : forall b, b ∈ [R; v; i; p] -> freed (<[R := None]> h3) b).
  { intros b Hb.
    repeat (apply elem_of_cons in Hb as [->|Hb]);
      [| | | |by apply elem_of_nil in Hb].
    - apply freed_kill_eq. repeat apply live_kill; done.
    - do 3 apply freed_kill. by apply freed_kill_eq.
    - do 2 apply freed_kill. apply freed_kill_eq. by apply live_kill.
    - apply freed_kill. apply freed_kill_eq. repeat apply live_kill; done. }
  split; [exact Hrun|]. split; [|split; [exact Hfreed|split]].
  - unfold h3, h2, h1. by rewrite !length_insert.
  - intros b Hb. repeat (apply not_elem_of_cons in Hb as [? Hb]).
    unfold h3, h2, h1. by rewrite !lookup_kill.
  - unfold free_matrix. apply bind_fault. apply load_ptr_freed.
    apply Hfreed. by left.
Qed.

(** X17: on a matrix structure with its three arrays, [free_CSR_matrix]
    frees the arrays and the structure, once each, and touches no other
    block; run again on the same pointer it has undefined behaviour. *)
Theorem free_CSR_matrix_frees_arrays_and_struct h R v i p :
  is_matrix h R v i p ->
  exists h',
    Heap.free_CSR_matrix R h = Heap.Done tt h' /\
    length h' = length h /\
    (forall b, b ∈ [R; v; i; p] -> freed h' b) /\
    (forall b, b ∉ [R; v; i; p] -> h' !! b = h !! b) /\
    Heap.free_CSR_matrix R h' = Heap.Fault.
Proof.
  intros Hm.
  destruct (free_matrix_spec h R v i p Hm)
    as (h' & Hrun & Hlen & Hfreed & Hkept & Hagain).
  exists h'. unfold Heap.free_CSR_matrix.
  split; [exact Hrun|]. split; [exact Hlen|]. split; [exact Hfreed|].
  split; [exact Hkept|exact Hagain].
Qed.

Lemma free_CSR_matrix_frees_arrays_and_struct_witness :
  is_matrix (with_matrix [] 6 (7 + 1) 7 5) 0 1 2 3 /\
  exists h',
    Heap.free_CSR_matrix 0 (with_matrix [] 6 (7 + 1) 7 5) =
      Heap.Done tt h' /\
    length h' = length (with_matrix [] 6 (7 + 1) 7 5) /\
    (forall b, b ∈ [0; 1; 2; 3]%nat -> freed h' b) /\
    (forall b, b ∉ [0; 1; 2; 3]%nat ->
       h' !! b = with_matrix [] 6 (7 + 1) 7 5 !! b) /\
    Heap.free_CSR_matrix 0 h' = Heap.Fault.
Proof.
  split; [exact (with_matrix_is_matrix [] 6 (7 + 1) 7 5)|].
  apply (free_CSR_matrix_frees_arrays_and_struct
           (with_matrix [] 6 (7 + 1) 7 5) 0 1 2 3).
  exact (with_matrix_is_matrix [] 6 (7 + 1) 7 5).
Defined.

(** X18: on a matrix structure with its three arrays, [free_CCS_matrix]
    frees the arrays and the structure, once each, and touches no other
    block; run again on the same pointer it has undefined behaviour. *)
Theorem free_CCS_matrix_frees_arrays_and_struct h R v i p :
  is_matrix h R v i p ->
  exists h',
    Heap.free_CCS_matrix R h = Heap.Done tt h' /\
    length h' = length h /\
    (forall b, b ∈ [R; v; i; p] -> freed h' b) /\
    (forall b, b ∉ [R; v; i; p] -> h' !! b = h !! b) /\
    Heap.free_CCS_matrix R h' = Heap.Fault.
Proof.
  intros Hm.
  destruct (free_matrix_spec h R v i p Hm)
    as (h' & Hrun & Hlen & Hfreed & Hkept & Hagain).
  exists h'. unfold Heap.free_CCS_matrix.
  split; [exact Hrun|]. split; [exact Hlen|]. split; [exact Hfreed|].
  split; [exact Hkept|exact Hagain].
Qed.

Lemma free_CCS_matrix_frees_arrays_and_struct_witness :
  is_matrix (with_matrix [] 9 (5 + 1) 5 6) 0 1 2 3 /\
  exists h',
    Heap.free_CCS_matrix 0 (with_matrix [] 9 (5 + 1) 5 6) =
      Heap.Done tt h' /\
    length h' = length (with_matrix [] 9 (5 + 1) 5 6) /\
    (forall b, b ∈ [0; 1; 2; 3]%nat -> freed h' b) /\
    (forall b, b ∉ [0; 1; 2; 3]%nat ->
       h' !! b = with_matrix [] 9 (5 + 1) 5 6 !! b) /\
    Heap.free_CCS_matrix 0 h' = Heap.Fault.
Proof.
  split; [exact (with_matrix_is_matrix [] 9 (5 + 1) 5 6)|].
  apply (free_CCS_matrix_frees_arrays_and_struct
           (with_matrix [] 9 (5 + 1) 5 6) 0 1 2 3).
  exact (with_matrix_is_matrix [] 9 (5 + 1) 5 6).
Defined.

(** X19: [init_CCS_matrix] either allocates the structure and its three
    arrays or exits with [EXIT_FAILURE]. The array of the column pointers
    gets [num_rows + 1] cells, not [num_cols + 1]: in the matrix returned,
    [Y->col_ptr[i]] can be written for [i] from 0 to [num_rows], and writing
    it for a larger [i] is outside the block; so for a matrix with more
    columns than rows the last column pointer, [col_ptr[num_cols]], cannot
    be written. *)
Theorem init_CCS_matrix_col_ptr_cells grants num_val rows cols h :
  0 <= rows ->
  (Heap.init_CCS_matrix grants num_val rows cols h =
     Heap.Done (length h) (with_matrix h num_val (rows + 1) rows cols) /\
   is_matrix (with_matrix h num_val (rows + 1) rows cols) (length h)
     (S (length h)) (S (S (length h))) (S (S (S (length h)))) /\
   (forall i v, 0 <= i <= rows ->
      exists h',
        Heap.set_col_ptr (length h) i v
          (with_matrix h num_val (rows + 1) rows cols) = Heap.Done tt h') /\
   (forall i v, rows < i ->
      Heap.set_col_ptr (length h) i v
        (with_matrix h num_val (rows + 1) rows cols) = Heap.Fault) /\
   (rows < cols ->
    forall v,
      Heap.set_col_ptr (length h) cols v
        (with_matrix h num_val (rows + 1) rows cols) = Heap.Fault)) \/
  Heap.init_CCS_matrix grants num_val rows cols h =
    Heap.Exited EXIT_FAILURE ["Malloc"%string].
Proof.
  intros Hrows.
  destruct (init_matrix_outcome grants num_val (rows + 1) rows cols h)
    as [Hd|He]; [left|by right].
  split; [exact Hd|]. split; [apply with_matrix_is_matrix|].
  assert (Hload : Heap.load_ptr (length h) Heap.ptr
                    (with_matrix h num_val (rows + 1) rows cols) =
                  Heap.Done (S (S (S (length h))))
                    (with_matrix h num_val (rows + 1) rows cols)).
  { eapply load_ptr_field; [apply lookup_at|done|reflexivity]. }
  assert (Hblock : with_matrix h num_val (rows + 1) rows cols
                     !! S (S (S (length h))) =
                   Some (Some (replicate (Z.to_nat (rows + 1)) Heap.Undef))).
  { unfold with_matrix. rewrite lookup_app_r by lia.
    replace (S (S (S (length h))) - length h)%nat with 3%nat by lia.
    reflexivity. }
  assert (Hout : forall i v, rows < i ->
            Heap.set_col_ptr (length h) i v
              (with_matrix h num_val (rows + 1) rows cols) = Heap.Fault).
  { intros i v Hi. unfold Heap.set_col_ptr.
    rewrite (bind_done _ _ _ _ _ Hload). unfold Heap.store.
    rewrite Hblock, decide_False; [done|]. rewrite length_replicate. lia. }
  split; [|split; [exact Hout|intros; by apply Hout]].
  intros i v Hi. unfold Heap.set_col_ptr.
  rewrite (bind_done _ _ _ _ _ Hload). unfold Heap.store.
  rewrite Hblock, decide_True by (rewrite length_replicate; lia). eauto.
Qed.

(** The call of [main]: a matrix of 5 rows and 6 columns, whose
    [col_ptr[6]] is then written. *)
Lemma init_CCS_matrix_col_ptr_cells_witness :
  0 <= 5 /\ 5 < 6 /\
  Heap.bind (Heap.init_CCS_matrix (fun _ _ => true) 9 5 6)
    (fun Y => Heap.set_col_ptr Y 6 9) [] = Heap.Fault /\
  ((Heap.init_CCS_matrix (fun _ _ => true) 9 5 6 [] =
      Heap.Done 0%nat (with_matrix [] 9 (5 + 1) 5 6) /\
    is_matrix (with_matrix [] 9 (5 + 1) 5 6) 0 1 2 3 /\
    (forall i v, 0 <= i <= 5 ->
       exists h',
         Heap.set_col_ptr 0 i v (with_matrix [] 9 (5 + 1) 5 6) =
           Heap.Done tt h') /\
    (forall i v, 5 < i ->
       Heap.set_col_ptr 0 i v (with_matrix [] 9 (5 + 1) 5 6) = Heap.Fault) /\
    (5 < 6 ->
     forall v,
       Heap.set_col_ptr 0 6 v (with_matrix [] 9 (5 + 1) 5 6) = Heap.Fault)) \/
   Heap.init_CCS_matrix (fun _ _ => true) 9 5 6 [] =
     Heap.Exited EXIT_FAILURE ["Malloc"%string]).
Proof.
  split; [lia|]. split; [lia|]. split; [reflexivity|].
  apply (init_CCS_matrix_col_ptr_cells (fun _ _ => true) 9 5 6 []). lia.
Defined.

(** ** The operands of main *)

(** One call of [malloc] in a program that is otherwise closed: it finds
    memory or not. *)
Ltac malloc_or_not grants :=
  cbv;
  match goal with
  | |- context [grants ?h0 ?n] => destruct (grants h0 n)
  end.

(** X20: [main] starts on an empty heap.  Unless [malloc] fails (and
    the process exits), it builds in [X] the matrix [main_X]; but it cannot
    build [Y] without undefined behaviour: [init_CCS_matrix(9, 5, 6)]
    gives [col_ptr] six cells and [main] writes [Y->col_ptr[6]].  So [main]
    never reaches the call of [sparse_matrix_multiply] with both operands
    in place. *)
Theorem main_operands_outcome grants :
  (Heap.build_X grants [] = Heap.Exited EXIT_FAILURE ["Malloc"%string] \/
   exists h, Heap.build_X grants [] = Heap.Done 0%nat h /\
             holds_CSR h 0 main_X) /\
  (Heap.main_operands grants [] = Heap.Fault \/
   Heap.main_operands grants [] =
     Heap.Exited EXIT_FAILURE ["Malloc"%string]) /\
  ((forall h n, grants h n = true) ->
   Heap.main_operands grants [] = Heap.Fault).
Proof.
  split; [|split].
  - do 4 (malloc_or_not grants; [|by left]).
    right. eexists. split; [reflexivity|].
    exists 1%nat, 2%nat, 3%nat. repeat split.
  - do 8 (malloc_or_not grants; [|by right]).
    by left.
  - intros Hg.
    do 8 (cbv;
          match goal with
          | |- context [grants ?h0 ?n] => rewrite (Hg h0 n)
          end).
    reflexivity.
Qed.

(** ** The dense program on the heap *)

Lemma for_state_done {S : Type} (I : Z -> S -> Heap.heap -> Prop)
  lo hi body (s : S) h :
  lo <= hi ->
  I lo s h ->
  (forall i s' h', lo <= i < hi -> I i s' h' ->
     exists s'' h'', body i s' h' = Heap.Done s'' h'' /\ I (i + 1) s'' h'') ->
  exists s' h', Heap.for_state lo hi body s h = Heap.Done s' h' /\ I hi s' h'.
Proof.
  intros Hle H0 Hstep. unfold Heap.for_state.
  apply (for_loop_inv
           (fun i r => exists s' h', r = Heap.Done s' h' /\ I i s' h')).
  - done.
  - by exists s, h.
  - intros i r Hi (s' & h' & -> & HI). by apply Hstep.
Qed.

Lemma holds_cells_frame h h' R bs C :
  holds_cells h R bs C ->
  (forall b, b ∈ R :: bs -> h' !! b = h !! b) ->
  holds_cells h' R bs C.
Proof.
  intros (HR & Hnd & Hrows) Hsame. split; [|split; [done|]].
  - rewrite Hsame; [done|by left].
  - apply Forall2_same_length_lookup.
    apply Forall2_same_length_lookup in Hrows as [Hlen Hrows].
    split; [done|]. intros i b row Hb Hrow.
    rewrite Hsame; [by eapply Hrows|].
    right. by eapply list_elem_of_lookup_2.
Qed.

Lemma holds_cells_lt h R bs C b :
  holds_cells h R bs C -> b ∈ R :: bs -> (b < length h)%nat.
Proof.
  intros (HR & Hnd & Hrows) [->|Hb]%elem_of_cons.
  - by eapply lookup_lt_Some.
  - apply list_elem_of_lookup_1 in Hb as [i Hi].
    destruct (Forall2_lookup_l _ _ _ _ _ Hrows Hi) as (row & _ & Hrow).
    by eapply lookup_lt_Some.
Qed.

Lemma holds_cells_app h t R bs C :
  holds_cells h R bs C -> holds_cells (h ++ t) R bs C.
Proof.
  intros Hh. apply (holds_cells_frame h); [done|].
  intros b Hb. apply lookup_app_l. by eapply holds_cells_lt.
Qed.

Lemma holds_cells_insert h R bs C b x :
  holds_cells h R bs C -> b ∉ R :: bs -> holds_cells (<[b := x]> h) R bs C.
Proof.
  intros Hh Hb. apply (holds_cells_frame h); [done|].
  intros b' Hb'. apply list_lookup_insert_ne. by intros ->.
Qed.

Lemma holds_cells_is_2d_array h R bs C :
  holds_cells h R bs C -> is_2d_array h R bs.
Proof.
  intros (HR & Hnd & Hrows). split; [done|]. split; [done|].
  apply Forall_forall. intros b Hb.
  apply list_elem_of_lookup_1 in Hb as [i Hi].
  destruct (Forall2_lookup_l _ _ _ _ _ Hrows Hi) as (row & _ & Hrow).
  by exists row.
Qed.

Lemma holds_2d_row h R bs A r c i :
  holds_2d h R bs A -> shape A r c -> 0 <= i < r ->
  exists b row,
    bs !! Z.to_nat i = Some b /\ A !! Z.to_nat i = Some row /\
    Z.of_nat (length row) = c /\ h !! b = Some (Some (Heap.Int <$> row)).
Proof.
  intros (HR & Hnd & Hrows) HA Hi.
  destruct (shape_row A r c i HA Hi) as (row & Hrow & Hlen).
  assert (Hc : ((fun row : list Z => Heap.Int <$> row) <$> A) !! Z.to_nat i = Some (Heap.Int <$> row))
    by (by rewrite list_lookup_fmap, Hrow).
  destruct (Forall2_lookup_r _ _ _ _ _ Hrows Hc) as (b & Hb & Hblock).
  by exists b, row.
Qed.

Lemma load2_holds h R bs A r c i j :
  holds_2d h R bs A -> shape A r c -> 0 <= i < r -> 0 <= j < c ->
  Heap.load2 R i j h = Heap.Done (rd2 0 A i j) h.
Proof.
  intros Hh HA Hi Hj.
  destruct (holds_2d_row h R bs A r c i Hh HA Hi)
    as (b & row & Hb & Hrow & Hlen & Hblock).
  destruct Hh as (HR & _).
  unfold Heap.load2.
  rewrite (bind_done _ _ _ _ _
             (load_ptr_table h R bs i b HR ltac:(lia) Hb)).
  destruct (lookup_lt_is_Some_2 row (Z.to_nat j) ltac:(lia)) as [v Hv].
  unfold Heap.load_int, Heap.bind, Heap.load.
  rewrite Hblock, decide_True by lia.
  rewrite list_lookup_fmap, Hv. simpl. unfold Heap.ret. f_equal.
  unfold rd2. rewrite decide_True by lia. rewrite Hrow.
  unfold rd. rewrite decide_True by lia. by rewrite Hv.
Qed.

Lemma store2_row h R bs i j v b block :
  h !! R = Some (Some (Heap.Ptr <$> bs)) ->
  bs !! Z.to_nat i = Some b -> h !! b = Some (Some block) ->
  0 <= i -> 0 <= j < Z.of_nat (length block) ->
  Heap.store2 R i j v h =
  Heap.Done tt (<[b := Some (<[Z.to_nat j := Heap.Int v]> block)]> h).
Proof.
  intros HR Hb Hblock Hi Hj. unfold Heap.store2.
  rewrite (bind_done _ _ _ _ _ (load_ptr_table h R bs i b HR Hi Hb)).
  unfold Heap.store. by rewrite Hblock, decide_True by lia.
Qed.

Lemma rem_abs_bound x u : 0 < u -> Z.abs (Z.rem x u) <= u - 1.
Proof.
  intros Hu. destruct (Z.le_gt_cases 0 x) as [Hx|Hx].
  - pose proof (Z.rem_bound_pos x u Hx Hu). lia.
  - pose proof (Z.rem_bound_pos (- x) u ltac:(lia) Hu) as Hb.
    rewrite Z.rem_opp_l' in Hb. lia.
Qed.

Lemma rand_below_zero {B} rand s (k : Z -> Heap.H B) h :
  Heap.bind (Heap.rand_below rand 0 s) k h = Heap.Fault.
Proof. unfold Heap.bind, Heap.rand_below. by rewrite decide_True. Qed.

Lemma int_result_fits z h :
  INT_MIN <= z <= INT_MAX -> Heap.int_result z h = Heap.Done z h.
Proof. intros Hz. unfold Heap.int_result. by rewrite decide_True. Qed.

(** The inner loop of [matrix_multiply] reads and changes nothing; with
    entries so bounded that [k] products fit an [int] together, no product
    and no sum overflows. *)
Lemma dot_product_holds h X bx A Y by_ B r k c i j a b :
  holds_2d h X bx A -> holds_2d h Y by_ B ->
  shape A r k -> shape B k c -> 0 <= k -> 0 <= i < r -> 0 <= j < c ->
  (forall l, 0 <= l < k -> Z.abs (rd2 0 A i l) <= a) ->
  (forall l, 0 <= l < k -> Z.abs (rd2 0 B l j) <= b) ->
  k * (a * b) <= INT_MAX ->
  Heap.for_state 0 k
    (fun l dp =>
       Heap.bind (Heap.load2 X i l)
         (fun x =>
            Heap.bind (Heap.load2 Y l j)
              (fun y =>
                 Heap.bind (Heap.int_result (x * y))
                   (fun p => Heap.int_result (dp + p)))))
    0 h =
  Heap.Done (dense_sum A B k i j) h.
Proof.
  intros HX HY HA HB Hk Hi Hj Ha Hb Hfit.
  edestruct (for_state_done
               (fun l dp h' => h' = h /\ dp = dense_sum A B l i j))
    as (dp & h' & Hrun & -> & ->); [exact Hk|done| |exact Hrun].
  intros l dp h' Hl [-> ->].
  rewrite (bind_done _ _ _ _ _ (load2_holds h X bx A r k i l HX HA Hi Hl)).
  rewrite (bind_done _ _ _ _ _ (load2_holds h Y by_ B k c l j HY HB Hl Hj)).
  pose proof (Ha l Hl) as Hal. pose proof (Hb l Hl) as Hbl.
  assert (Hprod : Z.abs (rd2 0 A i l * rd2 0 B l j) <= a * b)
    by (rewrite Z.abs_mul; nia).
  assert (Hsum : Z.abs (dense_sum A B (l + 1) i j) <= (l + 1) * (a * b)).
  { apply dense_sum_bound; [lia| |]; intros l' Hl'; [apply Ha|apply Hb]; lia. }
  assert (Hstep : dense_sum A B (l + 1) i j =
                  dense_sum A B l i j + rd2 0 A i l * rd2 0 B l j)
    by (unfold dense_sum; by rewrite Zsum_last by lia).
  assert (Hab : 0 <= a * b) by nia.
  assert (Hone : a * b <= k * (a * b)) by nia.
  assert (Hmore : (l + 1) * (a * b) <= k * (a * b)) by nia.
  assert (Hpfit : INT_MIN <= rd2 0 A i l * rd2 0 B l j <= INT_MAX)
    by (unfold INT_MIN, INT_MAX in *; lia).
  assert (Hsfit : INT_MIN <= dense_sum A B l i j +
                              rd2 0 A i l * rd2 0 B l j <= INT_MAX)
    by (rewrite <- Hstep; unfold INT_MIN, INT_MAX in *; lia).
  rewrite (bind_done _ _ _ _ _ (int_result_fits _ h Hpfit)).
  rewrite (int_result_fits _ h Hsfit).
  eexists _, _. split; [reflexivity|]. split; [done|]. by rewrite Hstep.
Qed.

(** Where no sum overflows, reducing the sums to an [int] changes
    nothing. *)
Lemma tabulate_exact A B r k c a b :
  0 <= k ->
  (forall i l, 0 <= i < r -> 0 <= l < k -> Z.abs (rd2 0 A i l) <= a) ->
  (forall l j, 0 <= l < k -> 0 <= j < c -> Z.abs (rd2 0 B l j) <= b) ->
  k * (a * b) <= INT_MAX ->
  tabulate r c (fun i j => wrap (dense_sum A B k i j)) =
  tabulate r c (dense_sum A B k).
Proof.
  intros Hk Ha Hb Hfit. apply tabulate_ext. intros i j Hi Hj.
  pose proof (dense_sum_bound A B k i j a b Hk
                ltac:(intros; by apply Ha) ltac:(intros; by apply Hb)) as Hs.
  apply wrap_small. unfold INT_MIN, INT_MAX in *. lia.
Qed.

Lemma row_step (f : Z -> Heap.cell) j (block : list Heap.cell) :
  0 <= j < Z.of_nat (length block) ->
  <[Z.to_nat j := f j]> ((f <$> seqZ 0 j) ++ drop (Z.to_nat j) block) =
  (f <$> seqZ 0 (j + 1)) ++ drop (Z.to_nat (j + 1)) block.
Proof.
  intros Hj.
  destruct (lookup_lt_is_Some_2 block (Z.to_nat j) ltac:(lia)) as [x Hx].
  rewrite insert_app_r_alt by (rewrite length_fmap, length_seqZ; lia).
  rewrite length_fmap, length_seqZ.
  replace (Z.to_nat j - Z.to_nat j)%nat with 0%nat by lia.
  rewrite (drop_S _ _ _ Hx). cbn [insert list_insert].
  rewrite seqZ_snoc, fmap_app, <- app_assoc by lia.
  by replace (Z.to_nat (j + 1)) with (S (Z.to_nat j)) by lia.
Qed.

(** Two nested loops that store one value in every cell of an array, row
    after row, while they update local variables [s] and may read what a
    frame protects. *)
Section ArrayFill.

Context {St : Type}.
Variables (R : nat) (bs : list nat) (r c : Z).
Variable D : Z -> Z -> Z.
Variable st : Z -> Z -> St.
Variable body : Z -> Z -> St -> Heap.H St.
Variable inner : Z -> St -> Heap.H St.
Variable frame : Heap.heap -> Prop.

Hypothesis Hr : r = Z.of_nat (length bs).
Hypothesis Hc : 0 <= c.
Hypothesis st_row : forall i, 0 <= i < r -> st (i + 1) 0 = st i c.
Hypothesis body_spec :
  forall i j h b block,
    0 <= i < r -> 0 <= j < c -> frame h ->
    h !! R = Some (Some (Heap.Ptr <$> bs)) ->
    bs !! Z.to_nat i = Some b -> h !! b = Some (Some block) ->
    Z.of_nat (length block) = c ->
    body i j (st i j) h =
    Heap.Done (st i (j + 1))
      (<[b := Some (<[Z.to_nat j := Heap.Int (D i j)]> block)]> h).
Hypothesis frame_keep :
  forall h b block, frame h -> b ∈ bs -> frame (<[b := Some block]> h).
Hypothesis inner_eq :
  forall i s h, inner i s h = Heap.for_state 0 c (body i) s h.

Lemma fill_row i h b block :
  0 <= i < r -> frame h ->
  h !! R = Some (Some (Heap.Ptr <$> bs)) -> R ∉ bs ->
  bs !! Z.to_nat i = Some b -> h !! b = Some (Some block) ->
  Z.of_nat (length block) = c ->
  exists h',
    Heap.for_state 0 c (body i) (st i 0) h = Heap.Done (st i c) h' /\
    frame h' /\ length h' = length h /\
    h' !! b = Some (Some ((fun j => Heap.Int (D i j)) <$> seqZ 0 c)) /\
    forall b', b' <> b -> h' !! b' = h !! b'.
Proof.
  intros Hi Hframe HR HRbs Hb Hblock Hlen.
  assert (Hbin : b ∈ bs) by (by eapply list_elem_of_lookup_2).
  edestruct (for_state_done
               (fun j s h' =>
                  s = st i j /\ frame h' /\ length h' = length h /\
                  h' !! b =
                    Some (Some (((fun j => Heap.Int (D i j)) <$> seqZ 0 j) ++
                                drop (Z.to_nat j) block)) /\
                  forall b', b' <> b -> h' !! b' = h !! b'))
    as (s & h' & Hrun & -> & Hf & Hl & Hrow & Hrest); [exact Hc| | |].
  - done.
  - intros j s h' Hj (-> & Hf & Hl & Hrow & Hrest).
    assert (HR' : h' !! R = Some (Some (Heap.Ptr <$> bs))).
    { rewrite Hrest; [done|]. by intros ->. }
    rewrite (body_spec i j h' b _ Hi Hj Hf HR' Hb Hrow)
      by (rewrite length_app, length_fmap, length_seqZ, length_drop; lia).
    eexists _, _. split; [reflexivity|]. split; [done|].
    split; [by apply frame_keep|]. split; [by rewrite length_insert|].
    split.
    + rewrite list_lookup_insert_eq
        by (apply lookup_lt_Some in Hrow; lia).
      do 2 f_equal. apply (row_step (fun j => Heap.Int (D i j))). lia.
    + intros b' Hb'. rewrite list_lookup_insert_ne by done. by apply Hrest.
  - exists h'. rewrite drop_ge, app_nil_r in Hrow by lia. done.
Qed.

Lemma fill_array h C :
  holds_cells h R bs C ->
  Forall (fun row => Z.of_nat (length row) = c) C ->
  frame h ->
  exists h',
    Heap.for_state 0 r inner (st 0 0) h = Heap.Done (st r 0) h' /\
    holds_2d h' R bs (tabulate r c D) /\ frame h' /\
    length h' = length h /\
    forall b, b ∉ bs -> h' !! b = h !! b.
Proof.
  intros (HR & Hnd & Hrows) Hlens Hframe.
  apply NoDup_cons in Hnd as [HRbs Hnd].
  apply Forall2_same_length_lookup in Hrows as [Hsame Hrows].
  edestruct (for_state_done
               (fun i s h' =>
                  s = st i 0 /\ frame h' /\ length h' = length h /\
                  (forall b, b ∉ take (Z.to_nat i) bs -> h' !! b = h !! b) /\
                  forall k b, (k < Z.to_nat i)%nat -> bs !! k = Some b ->
                    h' !! b =
                      Some (Some ((fun j => Heap.Int (D (Z.of_nat k) j)) <$>
                                  seqZ 0 c)))
               0 r inner (st 0 0) h)
    as (s & h' & Hrun & -> & Hf & Hl & Hrest & Hdone);
    [lia| | |].
  - split; [done|]. split; [done|]. split; [done|]. split; [done|].
    intros k b Hk. lia.
  - intros i s h' Hi (-> & Hf & Hl & Hrest & Hdone).
    destruct (lookup_lt_is_Some_2 bs (Z.to_nat i) ltac:(lia)) as [b Hb].
    destruct (lookup_lt_is_Some_2 C (Z.to_nat i) ltac:(lia)) as [row Hrow].
    assert (Hnew : b ∉ take (Z.to_nat i) bs).
    { intros (k & Hk & Hlt)%elem_of_take.
      pose proof (NoDup_lookup _ _ _ _ Hnd Hk Hb). lia. }
    assert (HR' : h' !! R = Some (Some (Heap.Ptr <$> bs))).
    { rewrite Hrest; [done|]. intros (k & Hk & _)%elem_of_take.
      apply HRbs. by eapply list_elem_of_lookup_2. }
    assert (Hblock : h' !! b = Some (Some row)).
    { rewrite Hrest by done. by eapply Hrows. }
    assert (Hlen : Z.of_nat (length row) = c).
    { rewrite Forall_lookup in Hlens. by eapply Hlens. }
    destruct (fill_row i h' b row Hi Hf HR' HRbs Hb Hblock Hlen)
      as (h'' & Hrun & Hf' & Hl' & Hrow' & Hrest').
    exists (st i c), h''. split; [by rewrite inner_eq|].
    split; [by rewrite st_row|]. split; [done|]. split; [congruence|].
    replace (Z.to_nat (i + 1)) with (S (Z.to_nat i)) by lia.
    split.
    + intros b'. rewrite (take_S_r _ _ _ Hb).
      intros Hb'. apply not_elem_of_app in Hb' as [Hb1 Hb2].
      rewrite Hrest'; [by apply Hrest|].
      intros ->. apply Hb2. by left.
    + intros k b' Hk Hb'.
      destruct (decide (k = Z.to_nat i)) as [->|Hne].
      * assert (b' = b) as -> by congruence.
        by rewrite Z2Nat.id by lia.
      * rewrite Hrest'; [apply Hdone; [lia|done]|].
        intros ->. pose proof (NoDup_lookup _ _ _ _ Hnd Hb Hb'). lia.
  - exists h'. split; [exact Hrun|].
    rewrite Hr, Nat2Z.id, firstn_all in Hrest.
    split; [|done].
    split; [rewrite Hrest; done|]. split; [by apply NoDup_cons|].
    apply Forall2_same_length_lookup. split.
    + unfold tabulate. rewrite !length_fmap, length_seqZ. lia.
    + intros k b row Hb. unfold tabulate.
      rewrite !list_lookup_fmap.
      pose proof (lookup_lt_Some _ _ _ Hb) as Hk.
      rewrite lookup_seqZ_lt by lia. simpl. intros [= <-].
      rewrite (Hdone k b) by (done || lia).
      by rewrite <- list_fmap_compose.
Qed.

End ArrayFill.

Lemma rd2_lookup d (A : list (list Z)) i j row v :
  0 <= i -> 0 <= j ->
  A !! Z.to_nat i = Some row -> row !! Z.to_nat j = Some v ->
  rd2 d A i j = v.
Proof.
  intros Hi Hj Hrow Hv. unfold rd2. rewrite decide_True by lia.
  rewrite Hrow. unfold rd. rewrite decide_True by lia. by rewrite Hv.
Qed.

Lemma fill_rand_heap rand h R bs C r c upper calls :
  holds_cells h R bs C ->
  Forall (fun row => Z.of_nat (length row) = c) C ->
  r = Z.of_nat (length bs) -> 0 <= c -> upper <> 0 ->
  exists h',
    Heap.fill_rand_2d_array rand R r c upper calls h =
      Heap.Done (calls + Z.to_nat (r * c))%nat h' /\
    holds_2d h' R bs
      (tabulate r c
         (fun i j => Z.rem (rand (calls + Z.to_nat (i * c + j))%nat) upper)) /\
    length h' = length h /\
    forall b, b ∉ bs -> h' !! b = h !! b.
Proof.
  intros Hh Hlens Hr Hc Hupper.
  destruct (fill_array R bs r c
              (fun i j =>
                 Z.rem (rand (calls + Z.to_nat (i * c + j))%nat) upper)
              (fun i j => (calls + Z.to_nat (i * c + j))%nat)
              (fun i j s =>
                 Heap.bind (Heap.rand_below rand upper s)
                   (fun v =>
                      Heap.bind (Heap.store2 R i j v)
                        (fun _ => Heap.ret (S s))))
              (fun i s =>
                 Heap.for_state 0 c
                   (fun j s =>
                      Heap.bind (Heap.rand_below rand upper s)
                        (fun v =>
                           Heap.bind (Heap.store2 R i j v)
                             (fun _ => Heap.ret (S s))))
                   s)
              (fun _ => True) Hr Hc)
    with (h := h) (C := C) as (h' & Hrun & Hh' & _ & Hl & Hrest);
    try done.
  - intros i Hi. f_equal. lia.
  - intros i j h0 b block Hi Hj _ HR Hb Hblock Hlen.
    assert (Hdraw : Heap.rand_below rand upper
                      (calls + Z.to_nat (i * c + j))%nat h0 =
                    Heap.Done
                      (Z.rem (rand (calls + Z.to_nat (i * c + j))%nat) upper)
                      h0)
      by (unfold Heap.rand_below; by rewrite decide_False).
    rewrite (bind_done _ _ _ _ _ Hdraw).
    rewrite (bind_done _ _ _ _ _
               (store2_row h0 R bs i j _ b block HR Hb Hblock
                  ltac:(lia) ltac:(lia))).
    unfold Heap.ret. f_equal. nia.
  - exists h'. split; [|done].
    unfold Heap.fill_rand_2d_array.
    replace (calls + Z.to_nat (0 * c + 0))%nat with calls in Hrun
      by (simpl; lia).
    rewrite Hrun. do 3 f_equal. lia.
Qed.

Lemma print_line_heap h R bs A r c i row :
  holds_2d h R bs A -> shape A r c -> 0 <= i < r -> 0 <= c ->
  A !! Z.to_nat i = Some row ->
  Heap.for_state 0 c
    (fun j l =>
       Heap.bind (Heap.load2 R i j) (fun v => Heap.ret (l ++ [v])))
    [] h =
  Heap.Done row h.
Proof.
  intros Hh HA Hi Hc Hrow.
  destruct (shape_row A r c i HA Hi) as (row' & Hrow' & Hlen).
  assert (row' = row) as -> by congruence.
  destruct (for_state_done
              (fun j l h' => h' = h /\ l = take (Z.to_nat j) row)
              0 c
              (fun j l =>
                 Heap.bind (Heap.load2 R i j)
                   (fun v => Heap.ret (l ++ [v])))
              [] h)
    as (l & h' & Hrun & -> & ->); [exact Hc|done| |].
  - intros j l h' Hj [-> ->].
    rewrite (bind_done _ _ _ _ _ (load2_holds h R bs A r c i j Hh HA Hi Hj)).
    eexists _, _. split; [reflexivity|]. split; [done|].
    destruct (lookup_lt_is_Some_2 row (Z.to_nat j) ltac:(lia)) as [v Hv].
    rewrite (rd2_lookup 0 A i j row v) by (done || lia).
    replace (Z.to_nat (j + 1)) with (S (Z.to_nat j)) by lia.
    by rewrite (take_S_r _ _ _ Hv).
  - rewrite Hrun. f_equal. apply firstn_all2. lia.
Qed.

Lemma print_matrix_heap h R bs A r c :
  holds_2d h R bs A -> shape A r c -> 0 <= r -> 0 <= c ->
  Heap.print_matrix R r c h = Heap.Done A h.
Proof.
  intros Hh HA Hr Hc. unfold Heap.print_matrix.
  match goal with |- Heap.for_state 0 r ?body [] h = _ =>
    destruct (for_state_done
                (fun i out h' => h' = h /\ out = take (Z.to_nat i) A)
                0 r body [] h)
      as (out & h' & Hrun & -> & ->); [exact Hr|done| |]
  end.
  - intros i out h' Hi [-> ->].
    destruct (shape_row A r c i HA Hi) as (row & Hrow & Hlen).
    rewrite (bind_done _ _ _ _ _
               (print_line_heap h R bs A r c i row Hh HA Hi Hc Hrow)).
    eexists _, _. split; [reflexivity|]. split; [done|].
    replace (Z.to_nat (i + 1)) with (S (Z.to_nat i)) by lia.
    by rewrite (take_S_r _ _ _ Hrow).
  - rewrite Hrun. f_equal. apply firstn_all2. destruct HA as [HA _]. lia.
Qed.

Lemma init_2d_array_outcome grants rows cols h :
  0 <= rows ->
  Heap.init_2d_array grants rows cols h =
    Heap.Done (length h) (with_2d_array h rows cols) \/
  Heap.init_2d_array grants rows cols h =
    Heap.Exited EXIT_FAILURE ["Malloc"%string].
Proof.
  intros Hrows. unfold Heap.init_2d_array.
  destruct (Malloc_cases grants rows h) as [Hm|Hm];
    [rewrite (bind_done _ _ _ _ _ Hm)|rewrite (bind_exited _ _ _ _ _ Hm)];
    [|by right].
  destruct (init_2d_array_rows grants rows cols h Hrows) as [Hl|Hl];
    [rewrite (bind_done _ _ _ _ _ Hl)|rewrite (bind_exited _ _ _ _ _ Hl)];
    [by left|by right].
Qed.

Lemma length_with_2d_array h rows cols :
  length (with_2d_array h rows cols) = (length h + S (Z.to_nat rows))%nat.
Proof.
  unfold with_2d_array. rewrite length_app. cbn [length].
  by rewrite length_replicate.
Qed.

Lemma with_2d_array_cells h rows cols :
  holds_cells (with_2d_array h rows cols) (length h)
    (seq (S (length h)) (Z.to_nat rows))
    (replicate (Z.to_nat rows) (replicate (Z.to_nat cols) Heap.Undef)).
Proof.
  destruct (with_2d_array_is_2d_array h rows cols) as (HR & Hnd & _).
  split; [done|]. split; [done|].
  apply Forall2_same_length_lookup. split.
  - by rewrite length_seq, length_replicate.
  - intros i b row Hb Hrow.
    apply lookup_seq in Hb as [-> Hi].
    apply lookup_replicate in Hrow as [-> _].
    unfold with_2d_array.
    rewrite lookup_app_r by lia.
    replace (S (length h) + i - length h)%nat with (S i) by lia.
    cbn [lookup list_lookup].
    by apply lookup_replicate_2.
Qed.

Lemma with_2d_array_old h rows cols b :
  (b < length h)%nat -> with_2d_array h rows cols !! b = h !! b.
Proof. intros Hb. unfold with_2d_array. by apply lookup_app_l. Qed.

Lemma matrix_multiply_heap grants h X bx A Y by_ B r k c amax bmax :
  holds_2d h X bx A -> holds_2d h Y by_ B ->
  shape A r k -> shape B k c -> 0 <= r -> 0 <= k -> 0 <= c ->
  (forall i l, 0 <= i < r -> 0 <= l < k -> Z.abs (rd2 0 A i l) <= amax) ->
  (forall l j, 0 <= l < k -> 0 <= j < c -> Z.abs (rd2 0 B l j) <= bmax) ->
  k * (amax * bmax) <= INT_MAX ->
  Heap.matrix_multiply grants X Y r k k c h =
    Heap.Exited EXIT_FAILURE ["Malloc"%string] \/
  exists h',
    Heap.matrix_multiply grants X Y r k k c h = Heap.Done (length h) h' /\
    holds_2d h' (length h) (seq (S (length h)) (Z.to_nat r))
      (tabulate r c (dense_sum A B k)) /\
    length h' = (length h + S (Z.to_nat r))%nat /\
    forall b, (b < length h)%nat -> h' !! b = h !! b.
Proof.
  intros HX HY HA HB Hr Hk Hc Hamax Hbmax Hfit. unfold Heap.matrix_multiply.
  rewrite decide_False by (intros Hne; by apply Hne).
  destruct (init_2d_array_outcome grants r c h Hr) as [Hi|Hi];
    [|left; by apply bind_exited].
  right. rewrite (bind_done _ _ _ _ _ Hi).
  set (Zb := length h). set (bz := seq (S Zb) (Z.to_nat r)).
  assert (Hold : forall b, b ∈ bz -> (b ∉ X :: bx) /\ (b ∉ Y :: by_)).
  { intros b Hb%elem_of_seq. split; intros Hin.
    - pose proof (holds_cells_lt _ _ _ _ _ HX Hin). unfold Zb in Hb. lia.
    - pose proof (holds_cells_lt _ _ _ _ _ HY Hin). unfold Zb in Hb. lia. }
  pose (cell_body := fun (i j : Z) (_ : unit) =>
    Heap.bind
      (Heap.for_state 0 k
         (fun l dp =>
            Heap.bind (Heap.load2 X i l)
              (fun x =>
                 Heap.bind (Heap.load2 Y l j)
                   (fun y =>
                      Heap.bind (Heap.int_result (x * y))
                        (fun p => Heap.int_result (dp + p)))))
         0)
      (fun dp => Heap.store2 Zb i j dp)).
  destruct (fill_array Zb bz r c
              (dense_sum A B k)
              (fun _ _ => tt) cell_body
              (fun i _ => Heap.for_each 0 c (fun j => cell_body i j tt))
              (fun h' => holds_2d h' X bx A /\ holds_2d h' Y by_ B))
    with (h := with_2d_array h r c)
         (C := replicate (Z.to_nat r)
                 (replicate (Z.to_nat c) Heap.Undef))
    as (h' & Hrun & Hh' & _ & Hl & Hrest).
  - unfold bz. rewrite length_seq. lia.
  - done.
  - done.
  - intros i j h0 b block Hrow Hcol [HX0 HY0] HZ Hb Hblock Hlen.
    unfold cell_body.
    rewrite (bind_done _ _ _ _ _
               (dot_product_holds h0 X bx A Y by_ B r k c i j amax bmax
                  HX0 HY0 HA HB Hk Hrow Hcol
                  ltac:(intros; by apply Hamax) ltac:(intros; by apply Hbmax)
                  Hfit)).
    by apply (store2_row h0 Zb bz i j _ b block); try lia.
  - intros h0 b block [HX0 HY0] Hb. destruct (Hold b Hb) as [HbX HbY].
    split; by apply holds_cells_insert.
  - intros i [] h0. reflexivity.
  - apply with_2d_array_cells.
  - apply Forall_replicate. rewrite length_replicate. lia.
  - unfold with_2d_array. split; by apply holds_cells_app.
  - exists h'. erewrite bind_done; [|exact Hrun].
    split; [done|]. split; [done|].
    split; [by rewrite Hl, length_with_2d_array|].
    intros b Hb. rewrite Hrest; [by apply with_2d_array_old|].
    intros Hin%elem_of_seq. unfold Zb in Hin. lia.
Qed.

Lemma is_2d_array_frame h h' R bs :
  is_2d_array h R bs ->
  (forall b, b ∈ R :: bs -> h' !! b = h !! b) ->
  is_2d_array h' R bs.
Proof.
  intros (HR & Hnd & Hlive) Hsame. split; [|split; [done|]].
  - rewrite Hsame; [done|by left].
  - apply Forall_forall. intros b Hb.
    rewrite Forall_forall in Hlive. destruct (Hlive b Hb) as [block Hblock].
    exists block. rewrite Hsame; [done|by right].
Qed.

Lemma free_2d_array_spec h R bs rows cols :
  is_2d_array h R bs -> rows = Z.of_nat (length bs) ->
  exists h',
    Heap.free_2d_array R rows cols h = Heap.Done tt h' /\
    length h' = length h /\
    (forall b, b ∈ R :: bs -> h' !! b = Some None) /\
    (forall b, b ∉ R :: bs -> h' !! b = h !! b).
Proof.
  intros Harr ->. pose proof Harr as (HR & Hnd & Hlive).
  apply NoDup_cons in Hnd as [HRbs Hnd].
  destruct (free_rows_spec h R bs Harr) as (h1 & Hrun & Hlen & Hlook).
  assert (HR1 : live h1 R).
  { exists (Heap.Ptr <$> bs). by rewrite Hlook, decide_False. }
  exists (<[R := None]> h1). split; [|split; [|split]].
  - unfold Heap.free_2d_array.
    rewrite (bind_done _ _ _ _ _ Hrun). by apply free_live.
  - by rewrite length_insert.
  - intros b Hb. destruct (decide (b = R)) as [->|Hne].
    + apply list_lookup_insert_eq. by apply live_lt.
    + rewrite list_lookup_insert_ne by done.
      apply elem_of_cons in Hb as [?|Hb]; [done|].
      by rewrite Hlook, decide_True.
  - intros b Hb. apply not_elem_of_cons in Hb as [? ?].
    rewrite list_lookup_insert_ne by done.
    by rewrite Hlook, decide_False.
Qed.

Ltac run_step H := erewrite bind_done; [|exact H].

Ltac by_blocks :=
  repeat match goal with
         | H : _ ∈ _ :: _ |- _ => rewrite elem_of_cons in H
         | H : _ ∈ seq _ _ |- _ => rewrite elem_of_seq in H
         | H : _ \/ _ |- _ => destruct H
         end;
  rewrite ?elem_of_cons, ?elem_of_seq; try lia.

(** X21: on an array whose rows have [num_cols] cells each, written or
    not, and for [upper] other than 0, [fill_rand_2d_array] runs without
    undefined behaviour, writes every cell of the array and no other block,
    draws one number for each cell, and leaves in the array what the list
    model of the function computes.  For [upper = 0] and an array that has
    a cell, the first [rand() % upper] divides by zero. *)
Theorem heap_fill_rand_2d_array_fills rand junk2 h R bs C r c upper calls :
  holds_cells h R bs C ->
  Forall (fun row => Z.of_nat (length row) = c) C ->
  r = Z.of_nat (length bs) -> 0 <= c ->
  (upper <> 0 ->
   let filled :=
     fill_rand_2d_array rand (init_2d_array junk2 r c) r c upper calls in
   snd filled = (calls + Z.to_nat (r * c))%nat /\
   exists h',
     Heap.fill_rand_2d_array rand R r c upper calls h =
       Heap.Done (snd filled) h' /\
     holds_2d h' R bs (fst filled) /\
     length h' = length h /\
     forall b, b ∉ bs -> h' !! b = h !! b) /\
  (upper = 0 -> 0 < r -> 0 < c ->
   Heap.fill_rand_2d_array rand R r c upper calls h = Heap.Fault).
Proof.
  intros Hh Hlens Hr Hc. split.
  - intros Hupper filled.
    pose proof (fill_rand_spec rand r c upper calls ltac:(lia) Hc
                  (init_2d_array junk2 r c)
                  (shape_init_2d_array junk2 r c ltac:(lia) Hc)) as Hspec.
    fold filled in Hspec. rewrite Hspec. cbn [fst snd]. split; [done|].
    by apply (fill_rand_heap rand h R bs C).
  - intros -> Hr0 Hc0. unfold Heap.fill_rand_2d_array, Heap.for_state.
    rewrite for_loop_eqn, decide_True by lia.
    rewrite (for_loop_eqn 0 c), decide_True by lia.
    rewrite rand_below_zero.
    match goal with
    | |- for_loop _ _ _ ?inner = _ =>
        assert (Hin : inner = Heap.Fault)
          by (apply (for_loop_keeps (fun r => r = Heap.Fault));
              [done|by intros ? ? ->]);
        rewrite Hin
    end.
    apply (for_loop_keeps (fun r => r = Heap.Fault)); [done|by intros ? ? ->].
Qed.

Lemma heap_fill_rand_2d_array_fills_witness :
  holds_cells (with_2d_array [] 2 3) 0 (seq 1 2)
    (replicate 2 (replicate 3 Heap.Undef)) /\
  exists h',
    Heap.fill_rand_2d_array Z.of_nat 0 2 3 10 0 (with_2d_array [] 2 3) =
      Heap.Done 6%nat h' /\
    length h' = 3%nat.
Proof.
  split; [exact (with_2d_array_cells [] 2 3)|].
  destruct (heap_fill_rand_2d_array_fills Z.of_nat (fun _ _ => 0)
              (with_2d_array [] 2 3) 0 (seq 1 2)
              (replicate 2 (replicate 3 Heap.Undef)) 2 3 10 0
              (with_2d_array_cells [] 2 3))
    as [Hfill _].
  - repeat constructor.
  - reflexivity.
  - lia.
  - destruct (Hfill ltac:(lia)) as (Hcalls & h' & Hrun & _ & Hlen & _).
    exists h'. rewrite Hcalls in Hrun. split; [exact Hrun|exact Hlen].
Defined.

(** X22: on two arrays that hold an [r x k] and a [k x c] matrix (they may
    be the same array), with entries at most [a] and [b] in absolute value
    and [k * a * b <= INT_MAX], [matrix_multiply] has no undefined
    behaviour: it reads inside the rows of its operands only, writes into
    the array it allocates only, and no product or sum overflows.  Unless
    [malloc] fails, it returns a new array, after the blocks there were,
    that holds the sums themselves, which is what the list model of the
    function returns; the operands and all older blocks are as they
    were. *)
Theorem heap_matrix_multiply_safe grants junk2 h X bx A Y by_ B r k c a b :
  holds_2d h X bx A -> holds_2d h Y by_ B ->
  shape A r k -> shape B k c -> 0 <= r -> 0 <= k -> 0 <= c ->
  (forall i l, 0 <= i < r -> 0 <= l < k -> Z.abs (rd2 0 A i l) <= a) ->
  (forall l j, 0 <= l < k -> 0 <= j < c -> Z.abs (rd2 0 B l j) <= b) ->
  k * (a * b) <= INT_MAX ->
  Heap.matrix_multiply grants X Y r k k c h =
    Heap.Exited EXIT_FAILURE ["Malloc"%string] \/
  exists P h',
    matrix_multiply junk2 A B r k k c = Dense_returned P /\
    (forall i j, 0 <= i < r -> 0 <= j < c ->
       rd2 0 P i j = dense_sum A B k i j) /\
    Heap.matrix_multiply grants X Y r k k c h = Heap.Done (length h) h' /\
    holds_2d h' (length h) (seq (S (length h)) (Z.to_nat r)) P /\
    holds_2d h' X bx A /\ holds_2d h' Y by_ B /\
    length h' = (length h + S (Z.to_nat r))%nat /\
    forall b, (b < length h)%nat -> h' !! b = h !! b.
Proof.
  intros HX HY HA HB Hr Hk Hc Ha Hb Hfit.
  destruct (matrix_multiply_heap grants h X bx A Y by_ B r k c a b
              HX HY HA HB Hr Hk Hc Ha Hb Hfit)
    as [Hexit|(h' & Hrun & HZ & Hlen & Hold)]; [by left|right].
  exists (tabulate r c (dense_sum A B k)), h'.
  split.
  { rewrite <- (tabulate_exact A B r k c a b Hk Ha Hb Hfit).
    by apply matrix_multiply_spec. }
  split; [intros i j Hi Hj; by rewrite rd2_tabulate|].
  split; [exact Hrun|]. split; [exact HZ|].
  split; [|split; [|done]].
  - apply (holds_cells_frame h); [done|]. intros blk Hblk. apply Hold.
    exact (holds_cells_lt _ _ _ _ _ HX Hblk).
  - apply (holds_cells_frame h); [done|]. intros blk Hblk. apply Hold.
    exact (holds_cells_lt _ _ _ _ _ HY Hblk).
Qed.

Lemma heap_matrix_multiply_safe_witness :
  holds_2d
    [Some [Heap.Ptr 1; Heap.Ptr 2]; Some [Heap.Int 1; Heap.Int 2];
     Some [Heap.Int 3; Heap.Int 4]]
    0 [1%nat; 2%nat] [[1; 2]; [3; 4]] /\
  exists h',
    Heap.matrix_multiply (fun _ _ => true) 0 0 2 2 2 2
      [Some [Heap.Ptr 1; Heap.Ptr 2]; Some [Heap.Int 1; Heap.Int 2];
       Some [Heap.Int 3; Heap.Int 4]] =
    Heap.Done 3%nat h' /\
    holds_2d h' 3 [4%nat; 5%nat] [[7; 10]; [15; 22]].
Proof.
  assert (Hh : holds_2d
                 [Some [Heap.Ptr 1; Heap.Ptr 2];
                  Some [Heap.Int 1; Heap.Int 2];
                  Some [Heap.Int 3; Heap.Int 4]]
                 0 [1%nat; 2%nat] [[1; 2]; [3; 4]]).
  { split; [reflexivity|]. split; [|repeat constructor].
    apply (bool_decide_unpack _). vm_compute. exact I. }
  assert (HA : shape [[1; 2]; [3; 4]] 2 2)
    by (split; [done|repeat constructor]).
  split; [exact Hh|].
  assert (Hbound : forall i l, 0 <= i < 2 -> 0 <= l < 2 ->
                      Z.abs (rd2 0 [[1; 2]; [3; 4]] i l) <= 4).
  { intros i l Hi Hl.
    assert (i = 0 \/ i = 1) as [-> | ->] by lia;
      assert (l = 0 \/ l = 1) as [-> | ->] by lia;
      vm_compute; discriminate. }
  destruct (heap_matrix_multiply_safe (fun _ _ => true) (fun _ _ => 0)
              _ 0 [1%nat; 2%nat] [[1; 2]; [3; 4]]
              0 [1%nat; 2%nat] [[1; 2]; [3; 4]] 2 2 2 4 4
              Hh Hh HA HA ltac:(lia) ltac:(lia) ltac:(lia) Hbound Hbound
              ltac:(by vm_compute))
    as [Hexit|(P & h' & HP & _ & Hrun & HZ & _)].
  - vm_compute in Hexit. discriminate Hexit.
  - exists h'. split; [exact Hrun|].
    vm_compute in HP. injection HP as <-. exact HZ.
Defined.

(** X23: on an array that holds an [r_rows x r_cols] matrix, [print_matrix]
    has no undefined behaviour, changes no block, and prints the rows of
    the matrix, as the list model of the function does. *)
Theorem heap_print_matrix_prints_rows h R bs A r c :
  holds_2d h R bs A -> shape A r c -> 0 <= r -> 0 <= c ->
  Heap.print_matrix R r c h = Heap.Done A h /\
  print_matrix A r c = Some A.
Proof.
  intros Hh HA Hr Hc. split; [|by apply print_matrix_spec].
  by apply (print_matrix_heap h R bs A r c).
Qed.

Lemma heap_print_matrix_prints_rows_witness :
  holds_2d
    [Some [Heap.Ptr 1; Heap.Ptr 2]; Some [Heap.Int 1; Heap.Int 2];
     Some [Heap.Int 3; Heap.Int 4]]
    0 [1%nat; 2%nat] [[1; 2]; [3; 4]] /\
  Heap.print_matrix 0 2 2
    [Some [Heap.Ptr 1; Heap.Ptr 2]; Some [Heap.Int 1; Heap.Int 2];
     Some [Heap.Int 3; Heap.Int 4]] =
  Heap.Done [[1; 2]; [3; 4]]
    [Some [Heap.Ptr 1; Heap.Ptr 2]; Some [Heap.Int 1; Heap.Int 2];
     Some [Heap.Int 3; Heap.Int 4]].
Proof.
  assert (Hh : holds_2d
                 [Some [Heap.Ptr 1; Heap.Ptr 2];
                  Some [Heap.Int 1; Heap.Int 2];
                  Some [Heap.Int 3; Heap.Int 4]]
                 0 [1%nat; 2%nat] [[1; 2]; [3; 4]]).
  { split; [reflexivity|]. split; [|repeat constructor].
    apply (bool_decide_unpack _). vm_compute. exact I. }
  split; [exact Hh|].
  destruct (heap_print_matrix_prints_rows _ 0
              [1%nat; 2%nat] [[1; 2]; [3; 4]] 2 2 Hh
              ltac:(split; [done|repeat constructor])
              ltac:(lia) ltac:(lia)) as [Hrun Hlist].
  exact Hrun.
Defined.

(** X24: [main] of the dense program, on an empty heap, whatever [rand]
    returns and whenever [malloc] fails: it has no undefined behaviour.
    Either it exits with [EXIT_FAILURE] because [malloc] found no memory, or
    it prints the two operands that the list model draws and their product
    as the list model computes it, and ends with every one of the sixteen
    blocks it allocated freed once. *)
Theorem main_dense_outcome grants rand junk2 :
  let X := fill_rand_2d_array rand (init_2d_array junk2 4 5) 4 5 10 0 in
  let Y := fill_rand_2d_array rand (init_2d_array junk2 5 3) 5 3 10 (snd X) in
  Heap.main_dense grants rand [] =
    Heap.Exited EXIT_FAILURE ["Malloc"%string] \/
  exists Z,
    matrix_multiply junk2 (fst X) (fst Y) 4 5 5 3 = Dense_returned Z /\
    Heap.main_dense grants rand [] =
      Heap.Done
        ([Heap.Title "---X---"] ++ (Heap.Numbers <$> fst X) ++
         [Heap.Title "---Y---"] ++ (Heap.Numbers <$> fst Y) ++
         [Heap.Title "---Z---"] ++ (Heap.Numbers <$> Z))
        (replicate 16 None).
Proof.
  intros X Y.
  pose proof (fill_rand_spec rand 4 5 10 0 ltac:(lia) ltac:(lia)
                (init_2d_array junk2 4 5)
                (shape_init_2d_array junk2 4 5 ltac:(lia) ltac:(lia))) as HXs.
  fold X in HXs.
  pose proof (fill_rand_spec rand 5 3 10 (snd X) ltac:(lia) ltac:(lia)
                (init_2d_array junk2 5 3)
                (shape_init_2d_array junk2 5 3 ltac:(lia) ltac:(lia))) as HYs.
  fold Y in HYs.
  assert (HXsh : shape (fst X) 4 5)
    by (rewrite HXs; by apply shape_tabulate).
  assert (HYsh : shape (fst Y) 5 3)
    by (rewrite HYs; by apply shape_tabulate).
  unfold Heap.main_dense.
  (* X *)
  destruct (init_2d_array_outcome grants 4 5 [] ltac:(lia)) as [Hi1|Hi1];
    [|left; by apply bind_exited].
  run_step Hi1.
  destruct (fill_rand_heap rand (with_2d_array [] 4 5) 0 (seq 1 4) _
              4 5 10 0 (with_2d_array_cells [] 4 5))
    as (h2 & Hf2 & HX2 & Hl2 & _);
    [apply Forall_replicate; by rewrite length_replicate|done|lia|lia|].
  change (length (with_2d_array [] 4 5)) with 5%nat in Hl2.
  assert (HXf : tabulate 4 5
                  (fun i j => Z.rem (rand (0 + Z.to_nat (i * 5 + j))%nat) 10) =
                fst X) by (by rewrite HXs).
  assert (HXc : (0 + Z.to_nat (4 * 5))%nat = snd X) by (by rewrite HXs).
  rewrite HXf in HX2. rewrite HXc in Hf2.
  run_step Hf2.
  (* Y *)
  destruct (init_2d_array_outcome grants 5 3 h2 ltac:(lia)) as [Hi3|Hi3];
    [|left; by apply bind_exited].
  rewrite Hl2 in Hi3. run_step Hi3.
  destruct (fill_rand_heap rand (with_2d_array h2 5 3) (length h2)
              (seq (S (length h2)) (Z.to_nat 5)) _
              5 3 10 (snd X) (with_2d_array_cells h2 5 3))
    as (h4 & Hf4 & HY4 & Hl4 & Hr4);
    [apply Forall_replicate; by rewrite length_replicate
    |by rewrite length_seq|lia|lia|].
  rewrite length_with_2d_array, Hl2 in Hl4.
  change (5 + S (Z.to_nat 5))%nat with 11%nat in Hl4.
  rewrite Hl2 in Hf4, HY4, Hr4.
  change (Z.to_nat 5) with 5%nat in HY4, Hr4.
  assert (HYf : tabulate 5 3
                  (fun i j =>
                     Z.rem (rand (snd X + Z.to_nat (i * 3 + j))%nat) 10) =
                fst Y) by (by rewrite HYs).
  assert (HYc : (snd X + Z.to_nat (5 * 3))%nat = snd Y) by (by rewrite HYs).
  rewrite HYf in HY4. rewrite HYc in Hf4.
  run_step Hf4.
  assert (HX4 : holds_2d h4 0 (seq 1 4) (fst X)).
  { apply (holds_cells_frame h2); [done|]. intros b Hb.
    rewrite Hr4 by by_blocks. apply with_2d_array_old. by_blocks. }
  (* Z *)
  assert (HXb : forall i l, 0 <= i < 4 -> 0 <= l < 5 ->
                   Z.abs (rd2 0 (fst X) i l) <= 9).
  { intros i l Hi Hl. rewrite HXs. cbn [fst]. rewrite rd2_tabulate by done.
    apply (rem_abs_bound _ 10). lia. }
  assert (HYb : forall l j, 0 <= l < 5 -> 0 <= j < 3 ->
                   Z.abs (rd2 0 (fst Y) l j) <= 9).
  { intros l j Hl Hj. rewrite HYs. cbn [fst]. rewrite rd2_tabulate by done.
    apply (rem_abs_bound _ 10). lia. }
  assert (Hfit : 5 * (9 * 9) <= INT_MAX) by (by vm_compute).
  destruct (matrix_multiply_heap grants h4 0 (seq 1 4) (fst X)
              5 (seq 6 5) (fst Y) 4 5 3 9 9 HX4 HY4 HXsh HYsh)
    as [Hm|(h5 & Hm & HZ5 & Hl5 & Hold5)]; [lia|lia|lia|done|done|done| |].
  { left. by apply bind_exited. }
  right. eexists. split; [by apply matrix_multiply_spec|].
  rewrite <- (tabulate_exact (fst X) (fst Y) 4 5 3 9 9 ltac:(lia) HXb HYb
                Hfit) in HZ5.
  set (P := tabulate 4 3 (fun i j => wrap (dense_sum (fst X) (fst Y) 5 i j)))
    in *.
  rewrite Hl4 in Hm, HZ5, Hl5, Hold5.
  change (Z.to_nat 4) with 4%nat in HZ5, Hl5.
  change (11 + 5)%nat with 16%nat in Hl5.
  run_step Hm.
  assert (HX5 : holds_2d h5 0 (seq 1 4) (fst X)).
  { apply (holds_cells_frame h4); [done|]. intros b Hb.
    apply Hold5. by_blocks. }
  assert (HY5 : holds_2d h5 5 (seq 6 5) (fst Y)).
  { apply (holds_cells_frame h4); [done|]. intros b Hb.
    apply Hold5. by_blocks. }
  (* printing *)
  run_step (print_matrix_heap h5 0 (seq 1 4) (fst X) 4 5 HX5 HXsh
              ltac:(lia) ltac:(lia)).
  run_step (print_matrix_heap h5 5 (seq 6 5) (fst Y) 5 3 HY5 HYsh
              ltac:(lia) ltac:(lia)).
  run_step (print_matrix_heap h5 11 (seq 12 4) P 4 3 HZ5
              (shape_tabulate 4 3 _ ltac:(lia) ltac:(lia))
              ltac:(lia) ltac:(lia)).
  (* freeing *)
  destruct (free_2d_array_spec h5 0 (seq 1 4) 4 5
              (holds_cells_is_2d_array _ _ _ _ HX5) eq_refl)
    as (h6 & Hfr6 & Hl6 & Hdead6 & Hrest6).
  run_step Hfr6.
  assert (HY6 : is_2d_array h6 5 (seq 6 5)).
  { apply (is_2d_array_frame h5);
      [by apply (holds_cells_is_2d_array _ _ _ _ HY5)|].
    intros b Hb. apply Hrest6. by_blocks. }
  destruct (free_2d_array_spec h6 5 (seq 6 5) 5 3 HY6 eq_refl)
    as (h7 & Hfr7 & Hl7 & Hdead7 & Hrest7).
  run_step Hfr7.
  assert (HZ7 : is_2d_array h7 11 (seq 12 4)).
  { apply (is_2d_array_frame h5);
      [by apply (holds_cells_is_2d_array _ _ _ _ HZ5)|].
    intros b Hb. rewrite Hrest7 by by_blocks. apply Hrest6. by_blocks. }
  destruct (free_2d_array_spec h7 11 (seq 12 4) 4 3 HZ7 eq_refl)
    as (h8 & Hfr8 & Hl8 & Hdead8 & Hrest8).
  run_step Hfr8.
  unfold Heap.ret. f_equal.
  apply list_eq. intros b.
  destruct (decide (b < 16)%nat) as [Hb|Hb].
  - rewrite (lookup_replicate_2 _ _ _ Hb).
    destruct (decide (b < 5)%nat);
      [rewrite Hrest8, Hrest7 by by_blocks; apply Hdead6; by_blocks|].
    destruct (decide (b < 11)%nat);
      [rewrite Hrest8 by by_blocks; apply Hdead7; by_blocks|].
    apply Hdead8. by_blocks.
  - rewrite !lookup_ge_None_2; [done|rewrite length_replicate; lia|lia].
Qed.
